(** * tinycss2 tokenizer: a shallow embedding of [tinycss2/tokenizer.py]

    The embedding follows the Python source function by function.

    - A Python [str] is a list of code points ([list Z]).
    - Indexing [css[i]] raises [IndexError] out of range; [assert], [int]
      and [list.pop] raise as in Python.  Every function that can raise
      lives in the result monad [res].
    - A [while] loop that only steps over the characters of a set
      recurses on the rest of the input; every other loop is a fixpoint
      on a fuel argument, and running out of fuel is a separate outcome
      ([OutOfFuel]) which the theorems exclude.
    - The lists the main loop appends to are objects of a store: a block
      token holds the location of its content list, so that
      [tokens.append] on the innermost list is seen through every token
      that refers to it, as in Python.  The list returned is read back
      from the store.
    - The two compiled regular expressions are values of a small regex
      syntax, run by a backtracking matcher with Python's preference
      order (greedy repetition, ordered options).
    - [tinycss2.serializer] is not part of the tokenizer: its two
      functions are parameters, and the token classes of [tinycss2.ast]
      are constructors.  [float(repr_)] is kept as the call on the
      literal text.  [int] refuses more digits than
      [sys.get_int_max_str_digits()], 4300 as the interpreter starts.
      [webencodings.ascii_lower] encodes its argument as UTF-8, and so
      raises [UnicodeEncodeError] on a surrogate. *)

From Stdlib Require Import ZArith Lia Bool String Ascii.
From stdpp Require Import base list.

(** ** Results: a value, a raised exception, or a loop out of fuel *)

Inductive exn :=
  IndexError | ValueError | TypeError | AssertionError | UnicodeEncodeError.

Inductive res (A : Type) :=
| Ok (a : A)
| Raise (e : exn)
| OutOfFuel.
Arguments Ok {A} a.
Arguments Raise {A} e.
Arguments OutOfFuel {A}.

Definition bind {A B} (m : res A) (f : A -> res B) : res B :=
  match m with
  | Ok a => f a
  | Raise e => Raise e
  | OutOfFuel => OutOfFuel
  end.

Notation "'let*' x ':=' m 'in' k" := (bind m (fun x => k))
  (at level 10, x name, m at level 100, k at level 200).
Notation "'let*' ' p ':=' m 'in' k" := (bind m (fun x => let 'p := x in k))
  (at level 10, p pattern, m at level 100, k at level 200).

(** ** Python strings *)

Module Py.
Local Open Scope Z_scope.

Abbreviation str := (list Z).

(** [lit "abc"]: the code points of an ASCII literal of the source. *)
Definition lit (s : string) : str :=
  map (fun a => Z.of_N (N_of_ascii a)) (list_ascii_of_string s).

Definition NUL : Z := 0.
Definition TAB : Z := 9.
Definition LF : Z := 10.
Definition FF : Z := 12.
Definition CR : Z := 13.
Definition SPACE : Z := 32.
Definition DQUOTE : Z := 34.
Definition SQUOTE : Z := 39.
Definition BACKSLASH : Z := 92.
Definition REPLACEMENT : Z := 0xFFFD.

(** the code point of a one-character literal of the source *)
Definition ch (a : ascii) : Z := Z.of_N (N_of_ascii a).

(** [c in chars] for a one-character string [c]. *)
Definition mem (c : Z) (chars : str) : bool := existsb (Z.eqb c) chars.

(** [' \n\t'] *)
Definition WS : str := [SPACE; LF; TAB].

Fixpoint is_prefix (p s : str) : bool :=
  match p, s with
  | [], _ => true
  | a :: p', b :: s' => (a =? b) && is_prefix p' s'
  | _ :: _, [] => false
  end.

(** [css.startswith(prefix, pos)] *)
Definition startswith (prefix css : str) (pos : nat) : bool :=
  is_prefix prefix (drop pos css).

(** [css.startswith((' ', '\n', '\t'), pos)]: a tuple of one-character
    prefixes. *)
Definition startswith_any (chars css : str) (pos : nat) : bool :=
  match css !! pos with
  | Some c => mem c chars
  | None => false
  end.

(** [css[a:b]] *)
Definition slice (css : str) (a b : nat) : str := take (b - a) (drop a css).

(** [css[a:]] *)
Definition slice_from (css : str) (a : nat) : str := drop a css.

(** [repr[:-n]] *)
Definition drop_last (n : nat) (s : str) : str := take (length s - n) s.

Fixpoint find_in (needle rest : str) (i : nat) : option nat :=
  match rest with
  | [] => None
  | _ :: rest' =>
      if is_prefix needle rest then Some i else find_in needle rest' (S i)
  end.

(** [css.find(needle, start)] for a non-empty needle; [None] is Python's -1. *)
Definition find (needle css : str) (start : nat) : option nat :=
  find_in needle (drop start css) start.

(** the last index [i] of [c] in [rest], offset by [base] *)
Fixpoint rfind_in (c : Z) (rest : str) (base : nat) : option nat :=
  match rest with
  | [] => None
  | x :: rest' =>
      match rfind_in c rest' (S base) with
      | Some i => Some i
      | None => if x =? c then Some base else None
      end
  end.

(** [css.rfind(c, a, b)] *)
Definition rfind (c : Z) (css : str) (a b : nat) : option nat :=
  rfind_in c (slice css a b) a.

(** [css.count(c, a, b)] *)
Definition count (c : Z) (css : str) (a b : nat) : nat :=
  length (filter (fun x => x = c) (slice css a b)).

(** [css.replace(old, new)] for a one-character [old] *)
Definition replace1 (old new : Z) (css : str) : str :=
  map (fun c => if c =? old then new else c) css.

(** [css.replace('\r\n', '\n')] *)
Fixpoint replace_crlf (css : str) : str :=
  match css with
  | [] => []
  | c :: rest =>
      match rest with
      | d :: rest' =>
          if (c =? CR) && (d =? LF) then LF :: replace_crlf rest'
          else c :: replace_crlf rest
      | [] => [c]
      end
  end.

(** a surrogate code point, which [str.encode('utf8')] refuses *)
Definition surrogate (c : Z) : bool := (0xD800 <=? c) && (c <=? 0xDFFF).

(** [webencodings.ascii_lower(string)], which is
    [string.encode('utf8').lower().decode('utf8')]: the encoding raises
    [UnicodeEncodeError] on a surrogate; [bytes.lower] maps A-Z to a-z
    and changes no other byte. *)
Definition ascii_lower (s : str) : res str :=
  if existsb surrogate s then Raise UnicodeEncodeError
  else Ok (map (fun c => if (65 <=? c) && (c <=? 90) then c + 32 else c) s).

(** [sys.maxunicode] *)
Definition maxunicode : Z := 0x10FFFF.

(** [css[pos]] *)
Definition idx (css : str) (pos : nat) : res Z :=
  match css !! pos with
  | Some c => Ok c
  | None => Raise IndexError
  end.

(** [assert b] *)
Definition assert (b : bool) : res unit :=
  if b then Ok tt else Raise AssertionError.

Definition hex_digit (c : Z) : option Z :=
  if (48 <=? c) && (c <=? 57) then Some (c - 48)
  else if (65 <=? c) && (c <=? 70) then Some (c - 55)
  else if (97 <=? c) && (c <=? 102) then Some (c - 87)
  else None.

Fixpoint int16_acc (acc : Z) (s : str) : res Z :=
  match s with
  | [] => Ok acc
  | c :: s' =>
      match hex_digit c with
      | Some d => int16_acc (16 * acc + d) s'
      | None => Raise ValueError
      end
  end.

(** [int(s, 16)] on a string of hexadecimal digits; [ValueError] on the
    empty string and on any other character. *)
Definition int16 (s : str) : res Z :=
  match s with
  | [] => Raise ValueError
  | _ => int16_acc 0 s
  end.

Definition dec_digit (c : Z) : option Z :=
  if (48 <=? c) && (c <=? 57) then Some (c - 48) else None.

Fixpoint int10_acc (acc : Z) (s : str) : res Z :=
  match s with
  | [] => Ok acc
  | c :: s' =>
      match dec_digit c with
      | Some d => int10_acc (10 * acc + d) s'
      | None => Raise ValueError
      end
  end.

(** [sys.get_int_max_str_digits()], as the interpreter starts *)
Definition int_max_str_digits : nat := 4300%nat.

(** the digits of [int(s)]: [ValueError] on the empty string, on any
    other character, and on more digits than the interpreter converts
    (the sign is not counted, leading zeros are) *)
Definition int10_digits (s : str) : res Z :=
  match s with
  | [] => Raise ValueError
  | _ =>
      if (int_max_str_digits <? length s)%nat then Raise ValueError
      else int10_acc 0 s
  end.

(** [int(s)] on an optionally signed run of decimal digits. *)
Definition int10 (s : str) : res Z :=
  match s with
  | c :: s' =>
      if c =? 45 then let* n := int10_digits s' in Ok (- n)
      else if c =? 43 then int10_digits s'
      else int10_digits s
  | [] => Raise ValueError
  end.

End Py.
Import Py.

(** ** Regular expressions

    The fragment of [re] the tokenizer uses: character sets, sequence,
    greedy option, greedy bounded repetition of a character set, and
    capture groups.  [rmatch] is a backtracking matcher in continuation
    style: [k] is the rest of the pattern, and a [None] from it makes
    the matcher try its next alternative, in Python's order. *)

Module Re.

Inductive regex :=
| Set_ (chars : str)                                (* [chars] *)
| Cat (r1 r2 : regex)                               (* r1 r2 *)
| Opt (r : regex)                                   (* r? *)
| Repeat (lo : nat) (hi : option nat) (chars : str) (* [chars]{lo,hi} *)
| Group (n : nat) (r : regex).                      (* (r), group n *)

(** [chars]* and [chars]+ *)
Definition Star := Repeat 0 None.
Definition Plus := Repeat 1 None.

(** the spans of the groups that took part in the match *)
Definition groups := list (nat * (nat * nat)).

Fixpoint group (g : groups) (n : nat) : option (nat * nat) :=
  match g with
  | [] => None
  | (m, span) :: g' => if Nat.eqb m n then Some span else group g' n
  end.

Definition cont := nat -> groups -> option (nat * groups).

Definition hi_pred (hi : option nat) : option nat :=
  match hi with Some h => Some (Nat.pred h) | None => None end.

Definition hi_zero (hi : option nat) : bool :=
  match hi with Some O => true | _ => false end.

(** greedy repetition: one more character first, then stop here *)
Fixpoint repeat_greedy (chars : str) (lo : nat) (hi : option nat) (k : cont)
    (rest : str) (pos : nat) (g : groups) : option (nat * groups) :=
  let stop := match lo with O => k pos g | S _ => None end in
  if hi_zero hi then stop
  else
    match rest with
    | c :: rest' =>
        if mem c chars then
          match repeat_greedy chars (Nat.pred lo) (hi_pred hi) k rest' (S pos) g with
          | Some r => Some r
          | None => stop
          end
        else stop
    | [] => stop
    end.

Fixpoint rmatch (r : regex) (css : str) (k : cont) (pos : nat) (g : groups)
    : option (nat * groups) :=
  match r with
  | Set_ chars =>
      match css !! pos with
      | Some c => if mem c chars then k (S pos) g else None
      | None => None
      end
  | Cat r1 r2 => rmatch r1 css (rmatch r2 css k) pos g
  | Opt r1 =>
      match rmatch r1 css k pos g with
      | Some m => Some m
      | None => k pos g
      end
  | Repeat lo hi chars => repeat_greedy chars lo hi k (drop pos css) pos g
  | Group n r1 => rmatch r1 css (fun pos' g' => k pos' ((n, (pos, pos')) :: g')) pos g
  end.

(** [regex.match(css, pos)]: the end of the match and its groups *)
Definition match_ (r : regex) (css : str) (pos : nat) : option (nat * groups) :=
  rmatch r css (fun pos' g => Some (pos', g)) pos [].

End Re.
Import Re.

Definition DIGITS : str := lit "0123456789".
Definition HEXDIGITS : str := lit "0123456789ABCDEFabcdef".

(** [re.compile(r'[-+]?([0-9]*\.)?[0-9]+([eE][+-]?[0-9]+)?')] *)
Definition _NUMBER_RE : regex :=
  Cat (Opt (Set_ (lit "-+")))
 (Cat (Opt (Group 1 (Cat (Star DIGITS) (Set_ (lit ".")))))
 (Cat (Plus DIGITS)
      (Opt (Group 2 (Cat (Set_ (lit "eE"))
                    (Cat (Opt (Set_ (lit "+-"))) (Plus DIGITS))))))).

(** [re.compile(r'([0-9A-Fa-f]{1,6})[ \n\t]?')] *)
Definition _HEX_ESCAPE_RE : regex :=
  Cat (Group 1 (Repeat 1 (Some 6) HEXDIGITS)) (Opt (Set_ WS)).

(** ** Tokens ([tinycss2.ast])

    Each constructor keeps the arguments the tokenizer passes, in the
    order it passes them.  A number's [value] is [float(repr_)]: it is
    kept as that call on the literal text. *)

Inductive pyfloat := float_ (repr_ : str).

(** the [(kind, message)] pair of a parse error *)
Definition error := (str * str)%type.

(** tokens without content *)
Inductive leaf :=
| WhitespaceToken (line column : Z) (value : str)
| IdentToken (line column : Z) (value : str)
| AtKeywordToken (line column : Z) (value : str)
| HashToken (line column : Z) (value : str) (is_identifier : bool)
| StringToken (line column : Z) (value : str) (repr : str)
| URLToken (line column : Z) (value : str) (repr : str)
| NumberToken (line column : Z) (value : pyfloat) (int_value : option Z)
    (repr_ : str)
| PercentageToken (line column : Z) (value : pyfloat) (int_value : option Z)
    (repr_ : str)
| DimensionToken (line column : Z) (value : pyfloat) (int_value : option Z)
    (repr_ : str) (unit_ : str)
| UnicodeRangeToken (line column : Z) (start end_ : Z)
| Comment (line column : Z) (value : str)
| LiteralToken (line column : Z) (value : str)
| ParseError (line column : Z) (kind message : str).

(** blocks, without their content list *)
Inductive block :=
| FunctionBlock (line column : Z) (name : str)
| CurlyBracketsBlock (line column : Z)
| SquareBracketsBlock (line column : Z)
| ParenthesesBlock (line column : Z).

(** a component value as returned: a block holds its content *)
#[local] Set Warnings "-register-all".
Inductive token :=
| Leaf (t : leaf)
| Block (b : block) (content : list token).

(** ** The consumers *)

(** a [while] loop that only steps over characters of [chars]:
    [while pos < max_pos and css[pos] in chars: pos += 1], on the
    characters [rest] from [pos] to [max_pos] *)
Fixpoint skip_in (chars rest : str) (pos : nat) : nat :=
  match rest with
  | c :: rest' => if mem c chars then skip_in chars rest' (pos + 1) else pos
  | [] => pos
  end.

(** [while css.startswith((' ', '\n', '\t'), pos): pos += 1] *)
Definition skip_ws (css : str) (pos : nat) : nat :=
  skip_in WS (drop pos css) pos.

Definition _is_name_start (css : str) (pos : nat) : res bool :=
  let* c := idx css pos in
  Ok (mem c (lit "abcdefghijklmnopqrstuvwxyzABCDEFGHIJKLMNOPQRSTUVWXYZ_")
      || (0x7F <? c)%Z).

Definition _is_ident_start (css : str) (pos : nat) : res bool :=
  let* b := _is_name_start css pos in
  if b then Ok true
  else
    let* c := idx css pos in
    if (c =? ch "-")%Z then
      let pos := pos + 1 in
      let* b1 :=
        (if pos <? length css then
           let* n := _is_name_start css pos in
           if n then Ok true
           else let* c1 := idx css pos in Ok (c1 =? ch "-")%Z
         else Ok false) in
      Ok (b1 || (startswith [BACKSLASH] css pos
                 && negb (startswith [BACKSLASH; LF] css pos)))
    else
      let* c := idx css pos in
      if (c =? BACKSLASH)%Z then Ok (negb (startswith [BACKSLASH; LF] css pos))
      else Ok false.

Definition _consume_escape (css : str) (pos : nat) : res (Z * nat) :=
  match match_ _HEX_ESCAPE_RE css pos with
  | Some (end_, g) =>
      let* text :=
        match group g 1 with
        | Some (a, b) => Ok (slice css a b)
        | None => Raise TypeError
        end in
      let* codepoint := int16 text in
      Ok (if (0 <? codepoint)%Z && (codepoint <=? maxunicode)%Z
          then codepoint else REPLACEMENT,
          end_)
  | None =>
      if pos <? length css then
        let* c := idx css pos in Ok (c, pos + 1)
      else Ok (REPLACEMENT, pos)
  end.

Fixpoint _consume_ident_loop (fuel : nat) (css : str) (chunks : list str)
    (start_pos pos : nat) : res (str * nat) :=
  if pos <? length css then
    match fuel with
    | O => OutOfFuel
    | S fuel =>
        let* c := idx css pos in
        if mem c (lit "abcdefghijklmnopqrstuvwxyz-_0123456789ABCDEFGHIJKLMNOPQRSTUVWXYZ")
           || (0x7F <? c)%Z then
          _consume_ident_loop fuel css chunks start_pos (pos + 1)
        else if (c =? BACKSLASH)%Z && negb (startswith [BACKSLASH; LF] css pos) then
          let chunks := chunks ++ [slice css start_pos pos] in
          let* '(c, pos) := _consume_escape css (pos + 1) in
          let chunks := chunks ++ [[c]] in
          _consume_ident_loop fuel css chunks pos pos
        else
          Ok (concat (chunks ++ [slice css start_pos pos]), pos)
    end
  else Ok (concat (chunks ++ [slice css start_pos pos]), pos).

Definition _consume_ident (css : str) (pos : nat) : res (str * nat) :=
  _consume_ident_loop (length css) css [] pos pos.

Definition bad_string : error := (lit "bad-string", lit "Bad string token").
Definition eof_in_string : error := (lit "eof-in-string", lit "EOF in string").
Definition eof_in_url : error := (lit "eof-in-url", lit "EOF in URL").
Definition bad_url : error := (lit "bad-url", lit "bad URL token").

Fixpoint _consume_quoted_string_loop (fuel : nat) (css : str) (quote : Z)
    (chunks : list str) (start_pos pos : nat)
    : res (option str * nat * option error) :=
  if pos <? length css then
    match fuel with
    | O => OutOfFuel
    | S fuel =>
        let* c := idx css pos in
        if (c =? quote)%Z then
          let chunks := chunks ++ [slice css start_pos pos] in
          let pos := pos + 1 in
          Ok (Some (concat chunks), pos, None)
        else if (c =? BACKSLASH)%Z then
          let chunks := chunks ++ [slice css start_pos pos] in
          let pos := pos + 1 in
          if pos <? length css then
            let* c1 := idx css pos in
            if (c1 =? LF)%Z then
              let pos := pos + 1 in
              _consume_quoted_string_loop fuel css quote chunks pos pos
            else
              let* '(c, pos) := _consume_escape css pos in
              let chunks := chunks ++ [[c]] in
              _consume_quoted_string_loop fuel css quote chunks pos pos
          else _consume_quoted_string_loop fuel css quote chunks pos pos
        else if (c =? LF)%Z then Ok (None, pos, Some bad_string)
        else _consume_quoted_string_loop fuel css quote chunks start_pos (pos + 1)
    end
  else
    (* the loop's [else] clause *)
    let chunks := chunks ++ [slice css start_pos pos] in
    Ok (Some (concat chunks), pos, Some eof_in_string).

Definition _consume_quoted_string (css : str) (pos : nat)
    : res (option str * nat * option error) :=
  let* quote := idx css pos in
  let* _ := assert (mem quote [DQUOTE; SQUOTE]) in
  let pos := pos + 1 in
  _consume_quoted_string_loop (length css) css quote [] pos pos.

(** the characters that end an unquoted URL with a parse error *)
Definition URL_ERROR_CHARS : str :=
  [DQUOTE; SQUOTE; ch "("; 0x00; 0x01; 0x02; 0x03; 0x04; 0x05; 0x06; 0x07;
   0x08; 0x0b; 0x0e; 0x0f; 0x10; 0x11; 0x12; 0x13; 0x14; 0x15; 0x16; 0x17;
   0x18; 0x19; 0x1a; 0x1b; 0x1c; 0x1d; 0x1e; 0x1f; 0x7f]%Z.

(** how the [while 1] loop of [_consume_url] is left *)
Inductive url_exit :=
| UrlReturn (r : option str * nat * option error)
| UrlBreak (value : option str) (pos : nat).

Fixpoint _consume_url_loop (fuel : nat) (css : str) (chunks : list str)
    (start_pos pos : nat) (error_ : option error) : res url_exit :=
  match fuel with
  | O => OutOfFuel
  | S fuel =>
      if length css <=? pos then
        Ok (UrlReturn (Some (concat (chunks ++ [slice css start_pos pos])),
                       pos, Some eof_in_url))
      else
        let* c := idx css pos in
        if (c =? ch ")")%Z then
          let chunks := chunks ++ [slice css start_pos pos] in
          let pos := pos + 1 in
          Ok (UrlReturn (Some (concat chunks), pos, error_))
        else if mem c WS then
          let chunks := chunks ++ [slice css start_pos pos] in
          let value := concat chunks in
          let pos := pos + 1 in
          Ok (UrlBreak (Some value) pos)
        else if (c =? BACKSLASH)%Z && negb (startswith [BACKSLASH; LF] css pos) then
          let chunks := chunks ++ [slice css start_pos pos] in
          let* '(c, pos) := _consume_escape css (pos + 1) in
          let chunks := chunks ++ [[c]] in
          _consume_url_loop fuel css chunks pos pos error_
        else if mem c URL_ERROR_CHARS then
          let pos := pos + 1 in
          Ok (UrlBreak None pos)
        else _consume_url_loop fuel css chunks start_pos (pos + 1) error_
  end.

(** consume the remnants of a bad URL *)
Fixpoint _consume_url_remnants (fuel : nat) (css : str) (pos : nat) : res nat :=
  if pos <? length css then
    match fuel with
    | O => OutOfFuel
    | S fuel =>
        if startswith [BACKSLASH; ch ")"] css pos then
          _consume_url_remnants fuel css (pos + 2)
        else
          let* c := idx css pos in
          if (c =? ch ")")%Z then Ok (pos + 1)
          else _consume_url_remnants fuel css (pos + 1)
    end
  else Ok pos.

(** [_consume_url] from [if value is not None:] to its end *)
Definition _consume_url_end (css : str) (value : option str) (pos : nat)
    (error_ : option error) : res (option str * nat * option error) :=
  let* r :=
    match value with
    | Some v =>
        let pos := skip_ws css pos in
        if pos <? length css then
          let* c := idx css pos in
          if (c =? ch ")")%Z then Ok (inl (Some v, pos + 1, error_))
          else Ok (inr pos)
        else
          let error_ :=
            match error_ with None => Some eof_in_url | Some e => Some e end in
          Ok (inl (Some v, pos, error_))
    | None => Ok (inr pos)
    end in
  match r with
  | inl ret => Ok ret
  | inr pos =>
      let* pos := _consume_url_remnants (length css) css pos in
      Ok (None, pos, Some bad_url)
  end.

Definition _consume_url (css : str) (pos : nat)
    : res (option str * nat * option error) :=
  let error_ : option error := None in
  let pos := skip_ws css pos in
  if length css <=? pos then Ok (Some [], pos, Some eof_in_url)
  else
    let* c := idx css pos in
    if mem c [DQUOTE; SQUOTE] then
      let* '(value, pos, error_) := _consume_quoted_string css pos in
      _consume_url_end css value pos error_
    else if (c =? ch ")")%Z then Ok (Some [], pos + 1, error_)
    else
      let* e := _consume_url_loop (S (length css)) css [] pos pos error_ in
      match e with
      | UrlReturn ret => Ok ret
      | UrlBreak value pos => _consume_url_end css value pos error_
      end.

Definition _consume_unicode_range (css : str) (pos : nat) : res (Z * Z * nat) :=
  let hex := lit "0123456789abcdefABCDEF" in
  let start_pos := pos in
  let max_pos := Nat.min (pos + 6) (length css) in
  let pos := skip_in hex (slice css pos max_pos) pos in
  let start := slice css start_pos pos in
  let start_pos := pos in
  let pos := skip_in [ch "?"] (slice css pos max_pos) pos in
  let question_marks := pos - start_pos in
  if negb (question_marks =? 0) then
    let end_ := start ++ replicate question_marks (ch "F") in
    let start := start ++ replicate question_marks (ch "0") in
    let* s := int16 start in
    let* e := int16 end_ in
    Ok (s, e, pos)
  else
    let* dash :=
      (if pos + 1 <? length css then
         let* c := idx css pos in
         if (c =? ch "-")%Z then
           let* d := idx css (pos + 1) in Ok (mem d hex)
         else Ok false
       else Ok false) in
    if dash then
      let pos := pos + 1 in
      let start_pos := pos in
      let max_pos := Nat.min (pos + 6) (length css) in
      let pos := skip_in hex (slice css pos max_pos) pos in
      let end_ := slice css start_pos pos in
      let* s := int16 start in
      let* e := int16 end_ in
      Ok (s, e, pos)
    else
      let end_ := start in
      let* s := int16 start in
      let* e := int16 end_ in
      Ok (s, e, pos).

(** ** The main loop *)

(** The store of the list objects of one call.  [root] is the first one;
    each block opened allocates the next.  A cell of a list is a token
    without content or a block with the location of its content list. *)
Abbreviation loc := nat.

Inductive cell :=
| Tok (t : leaf)
| Blk (b : block) (content : loc).

Abbreviation heap := (list (list cell)).

Definition root : loc := 0.

(** [tokens.append(c)] for each [c] of [cs], on the list at [l] *)
Definition append (cs : list cell) (l : loc) (h : heap) : heap :=
  alter (fun x => x ++ cs) l h.

(** The value of the list at [l]: every block cell with the value of the
    list it refers to.  [depth] bounds the nesting that is followed. *)
Fixpoint readback (depth : nat) (h : heap) (l : loc) : list token :=
  match depth with
  | O => []
  | S depth =>
      map (fun c =>
             match c with
             | Tok t => Leaf t
             | Blk b content => Block b (readback depth h content)
             end)
          (default [] (h !! l))
  end.

Record state := mk_state {
  pos : nat;
  token_start_pos : nat;
  line : Z;
  last_newline : Z;
  objects : heap;
  tokens : loc;
  end_char : option Z;
  stack : list (loc * option Z)
}.

(** The variables when the loop is left.  After the [break] of an
    unclosed comment [pos] is -1, what [css.find] returned. *)
Record final_state := mk_final {
  final_pos : Z;
  final_objects : heap;
  final_tokens : loc;
  final_end_char : option Z;
  final_stack : list (loc * option Z)
}.

(** the loop is left because [pos < length] fails *)
Definition leave (s : state) : final_state :=
  mk_final (Z.of_nat s.(pos)) s.(objects) s.(tokens) s.(end_char) s.(stack).

(** What one iteration does to the token lists, and the new [pos]. *)
Inductive action :=
| Append (ts : list leaf) (pos : nat)
    (* [tokens.append(t)] for each [t] of [ts] *)
| OpenBlock (b : block) (closing : Z) (pos : nat)
    (* [content = []; tokens.append(block); stack.append((tokens, end_char));
       end_char = closing; tokens = content] *)
| CloseBlock (pos : nat)
    (* [tokens, end_char = stack.pop()] *)
| Break (ts : list leaf).
    (* [pos = -1], [tokens.append(t)] for each [t] of [ts], then [break] *)

Definition perform (a : action) (s : state) : res (state + final_state) :=
  match a with
  | Append ts pos' =>
      Ok (inl (mk_state pos' s.(token_start_pos) s.(line) s.(last_newline)
                 (append (map Tok ts) s.(tokens) s.(objects))
                 s.(tokens) s.(end_char) s.(stack)))
  | OpenBlock b closing pos' =>
      let content := length s.(objects) in
      let h := s.(objects) ++ [[]] in
      Ok (inl (mk_state pos' s.(token_start_pos) s.(line) s.(last_newline)
                 (append [Blk b content] s.(tokens) h)
                 content (Some closing)
                 ((s.(tokens), s.(end_char)) :: s.(stack))))
  | CloseBlock pos' =>
      match s.(stack) with
      | (tokens', end_char') :: stack' =>
          Ok (inl (mk_state pos' s.(token_start_pos) s.(line) s.(last_newline)
                     s.(objects) tokens' end_char' stack'))
      | [] => Raise IndexError
      end
  | Break ts =>
      Ok (inr (mk_final (-1)
                 (append (map Tok ts) s.(tokens) s.(objects))
                 s.(tokens) s.(end_char) s.(stack)))
  end.

Fixpoint eqb_str (a b : str) : bool :=
  match a, b with
  | [], [] => true
  | x :: a', y :: b' => (x =? y)%Z && eqb_str a' b'
  | _, _ => false
  end.

(** [match.groups()]: the text of each group, [None] for a group that
    took no part *)
Definition groups_ (css : str) (g : groups) : list (option str) :=
  map (fun n => match group g n with
                | Some (a, b) => Some (slice css a b)
                | None => None
                end) [1; 2].

(** [any(xs)] on a tuple of strings and [None]s *)
Definition any (xs : list (option str)) : bool :=
  existsb (fun x => match x with Some (_ :: _) => true | _ => false end) xs.

Section Tokenizer.

(** [tinycss2.serializer]: only the signatures are used here. *)
Variable serialize_string_value : str -> str.
Variable serialize_url : str -> str.

(** the tokens of a [url(] whose argument is not quoted (lines 78 to 90) *)
Definition url_tokens (line column : Z) (value : option str)
    (error_ : option error) : res (list leaf) :=
  let* ts :=
    match value with
    | Some value =>
        let repr := lit "url(" ++ serialize_url value ++ lit ")" in
        let* repr :=
          match error_ with
          | Some (error_key, _) =>
              if eqb_str error_key (lit "eof-in-string") then
                Ok (drop_last 2 repr)
              else
                let* _ := assert (eqb_str error_key (lit "eof-in-url")) in
                Ok (drop_last 1 repr)
          | None => Ok repr
          end in
        Ok [URLToken line column value repr]
    | None => Ok []
    end in
  match error_ with
  | Some (kind, message) => Ok (ts ++ [ParseError line column kind message])
  | None => Ok ts
  end.

(** the tokens of a quoted string (lines 166 to 173) *)
Definition string_tokens (line column : Z) (value : option str)
    (error_ : option error) : list leaf :=
  let ts :=
    match value with
    | Some value =>
        let repr := [DQUOTE] ++ serialize_string_value value ++ [DQUOTE] in
        let repr := match error_ with Some _ => drop_last 1 repr | None => repr end in
        [StringToken line column value repr]
    | None => []
    end in
  match error_ with
  | Some (kind, message) => ts ++ [ParseError line column kind message]
  | None => ts
  end.

(** the second [if] chain of the loop body, from the number match on *)
Definition dispatch_rest (css : str) (skip_comments : bool)
    (end_char : option Z) (line column : Z) (pos : nat) (c : Z) : res action :=
  let token_start_pos := pos in
  match match_ _NUMBER_RE css pos with
  | Some (pos, g) =>
      let repr_ := slice css token_start_pos pos in
      let value := float_ repr_ in
      let* int_value :=
        (if negb (any (groups_ css g)) then
           let* n := int10 repr_ in Ok (Some n)
         else Ok None) in
      let* unit_follows :=
        (if pos <? length css then _is_ident_start css pos else Ok false) in
      if unit_follows then
        let* '(unit_, pos) := _consume_ident css pos in
        Ok (Append [DimensionToken line column value int_value repr_ unit_] pos)
      else if startswith (lit "%") css pos then
        let pos := pos + 1 in
        Ok (Append [PercentageToken line column value int_value repr_] pos)
      else Ok (Append [NumberToken line column value int_value repr_] pos)
  | None =>
      if (c =? ch "@")%Z then
        let pos := pos + 1 in
        let* name_follows :=
          (if pos <? length css then _is_ident_start css pos else Ok false) in
        if name_follows then
          let* '(value, pos) := _consume_ident css pos in
          Ok (Append [AtKeywordToken line column value] pos)
        else Ok (Append [LiteralToken line column (lit "@")] pos)
      else if (c =? ch "#")%Z then
        let pos := pos + 1 in
        let* name_follows :=
          (if pos <? length css then
             let* c1 := idx css pos in
             Ok (mem c1 (lit "0123456789abcdefghijklmnopqrstuvwxyz-_ABCDEFGHIJKLMNOPQRSTUVWXYZ")
                 || (0x7F <? c1)%Z
                 || ((c1 =? BACKSLASH)%Z
                     && negb (startswith [BACKSLASH; LF] css pos)))
           else Ok false) in
        if name_follows then
          let* is_identifier := _is_ident_start css pos in
          let* '(value, pos) := _consume_ident css pos in
          Ok (Append [HashToken line column value is_identifier] pos)
        else Ok (Append [LiteralToken line column (lit "#")] pos)
      else if (c =? ch "{")%Z then
        Ok (OpenBlock (CurlyBracketsBlock line column) (ch "}") (pos + 1))
      else if (c =? ch "[")%Z then
        Ok (OpenBlock (SquareBracketsBlock line column) (ch "]") (pos + 1))
      else if (c =? ch "(")%Z then
        Ok (OpenBlock (ParenthesesBlock line column) (ch ")") (pos + 1))
      else if match end_char with Some e => (c =? e)%Z | None => false end then
        Ok (CloseBlock (pos + 1))
      else if mem c (lit "}])") then
        Ok (Append [ParseError line column [c] (lit "Unmatched " ++ [c])] (pos + 1))
      else if mem c [DQUOTE; SQUOTE] then
        let* '(value, pos, error_) := _consume_quoted_string css pos in
        Ok (Append (string_tokens line column value error_) pos)
      else if startswith (lit "/*") css pos then
        match find (lit "*/") css (pos + 2) with
        | None =>
            Ok (Break (if negb skip_comments
                       then [Comment line column (slice_from css (token_start_pos + 2))]
                       else []))
        | Some pos =>
            Ok (Append (if negb skip_comments
                        then [Comment line column (slice css (token_start_pos + 2) pos)]
                        else [])
                       (pos + 2))
        end
      else if startswith (lit "<!--") css pos then
        Ok (Append [LiteralToken line column (lit "<!--")] (pos + 4))
      else if startswith (lit "||") css pos then
        Ok (Append [LiteralToken line column (lit "||")] (pos + 2))
      else if mem c (lit "~|^$*") then
        let pos := pos + 1 in
        if startswith (lit "=") css pos then
          let pos := pos + 1 in
          Ok (Append [LiteralToken line column ([c] ++ lit "=")] pos)
        else Ok (Append [LiteralToken line column [c]] pos)
      else Ok (Append [LiteralToken line column [c]] (pos + 1))
  end.

(** the loop body after [c = css[pos]] *)
Definition dispatch (css : str) (skip_comments : bool) (end_char : option Z)
    (line column : Z) (pos : nat) (c : Z) : res action :=
  let token_start_pos := pos in
  if mem c WS then
    let pos := pos + 1 in
    let pos := skip_ws css pos in
    let value := slice css token_start_pos pos in
    Ok (Append [WhitespaceToken line column value] pos)
  else
    let* is_range :=
      (if mem c (lit "Uu") && (pos + 2 <? length css) then
         let* c1 := idx css (pos + 1) in
         if (c1 =? ch "+")%Z then
           let* c2 := idx css (pos + 2) in
           Ok (mem c2 (lit "0123456789abcdefABCDEF?"))
         else Ok false
       else Ok false) in
    if is_range then
      let* '(start, end_, pos) := _consume_unicode_range css (pos + 2) in
      Ok (Append [UnicodeRangeToken line column start end_] pos)
    else if startswith (lit "-->") css pos then
      Ok (Append [LiteralToken line column (lit "-->")] (pos + 3))
    else
      let* ident := _is_ident_start css pos in
      if ident then
        let* '(value, pos) := _consume_ident css pos in
        if negb (startswith (lit "(") css pos) then
          Ok (Append [IdentToken line column value] pos)
        else
          let pos := pos + 1 in
          let* lower := ascii_lower value in
          let* is_url :=
            (if eqb_str lower (lit "url") then
               let url_pos := skip_ws css pos in
               if length css <=? url_pos then Ok true
               else
                 let* q := idx css url_pos in
                 Ok (negb (mem q [DQUOTE; SQUOTE]))
             else Ok false) in
          if is_url then
            let* '(value, pos, error_) := _consume_url css pos in
            let* ts := url_tokens line column value error_ in
            Ok (Append ts pos)
          else
            Ok (OpenBlock (FunctionBlock line column value) (ch ")") pos)
      else dispatch_rest css skip_comments end_char line column pos c.

(** one iteration of [while pos < length] *)
Definition iteration (css : str) (skip_comments : bool) (s : state)
    : res (state + final_state) :=
  let newline := rfind LF css s.(token_start_pos) s.(pos) in
  let '(line, last_newline) :=
    match newline with
    | Some newline =>
        ((s.(line) + (1 + Z.of_nat (count LF css s.(token_start_pos) newline)))%Z,
         Z.of_nat newline)
    | None => (s.(line), s.(last_newline))
    end in
  let column := (Z.of_nat s.(pos) - last_newline)%Z in
  let token_start_pos := s.(pos) in
  let* c := idx css s.(pos) in
  let* a := dispatch css skip_comments s.(end_char) line column s.(pos) c in
  perform a (mk_state s.(pos) token_start_pos line last_newline
               s.(objects) s.(tokens) s.(end_char) s.(stack)).

Fixpoint loop (fuel : nat) (css : str) (skip_comments : bool) (s : state)
    : res final_state :=
  if s.(pos) <? length css then
    match fuel with
    | O => OutOfFuel
    | S fuel =>
        let* r := iteration css skip_comments s in
        match r with
        | inl s' => loop fuel css skip_comments s'
        | inr f => Ok f
        end
    end
  else Ok (leave s).

(** the replacements of lines 30 to 32 *)
Definition preprocess (css : str) : str :=
  replace1 FF LF (replace1 CR LF (replace_crlf (replace1 NUL REPLACEMENT css))).

Definition initial : state :=
  mk_state 0 0 1 (-1) [[]] root None [].

(** the variables when the loop is left *)
Definition run (css : str) (skip_comments : bool) : res final_state :=
  let css := preprocess css in
  loop (length css) css skip_comments initial.

Definition parse_component_value_list (css : str) (skip_comments : bool)
    : res (list token) :=
  let* f := run css skip_comments in
  Ok (readback (length f.(final_objects)) f.(final_objects) root).

End Tokenizer.

Definition ser_id (s : str) : str := s.

(** * Specifications

    The notions the properties are stated with. *)

Module ReSpec.

(** the number of leading characters of [rest] in [chars], at most [hi] *)
Fixpoint span (chars : str) (hi : option nat) (rest : str) : nat :=
  if hi_zero hi then 0
  else
    match rest with
    | c :: rest' => if mem c chars then S (span chars (hi_pred hi) rest') else 0
    | [] => 0
    end.

Definition total (k : cont) : Prop := forall pos g, k pos g <> None.

(** what follows the hex digits: one optional whitespace character *)
Definition after_hex (css : str) (p : nat) : nat :=
  if startswith_any WS css p then S p else p.

End ReSpec.

Module IdentSpec.

Definition NAME_START : str :=
  lit "abcdefghijklmnopqrstuvwxyzABCDEFGHIJKLMNOPQRSTUVWXYZ_".
Definition NAME : str :=
  lit "abcdefghijklmnopqrstuvwxyz-_0123456789ABCDEFGHIJKLMNOPQRSTUVWXYZ".

(** the first character of an identifier is consumed by the loop of
    [_consume_ident]: it is a name character or starts a valid escape *)
Definition ident_first (css : str) (pos : nat) (c : Z) : bool :=
  mem c NAME || (0x7F <? c)%Z
  || ((c =? BACKSLASH)%Z && negb (startswith [BACKSLASH; LF] css pos)).

(** the characters that no earlier branch of the loop body takes: not
    whitespace, not [U] or [u], not [-], not the start of a name, not a
    backslash, not the start of a number *)
Definition plain (c : Z) : bool :=
  negb (mem c WS) && negb (mem c (lit "Uu")) && negb (c =? ch "-")%Z
  && negb (mem c NAME_START || (0x7F <? c)%Z) && negb (c =? BACKSLASH)%Z
  && negb (mem c (lit "-+.0123456789")).

End IdentSpec.

Module NumberSpec.
Import ReSpec.

Definition final : cont := fun pos g => Some (pos, g).

(** the pattern without its sign, and its parts *)
Definition EXPONENT : regex :=
  Group 2 (Cat (Set_ (lit "eE")) (Cat (Opt (Set_ (lit "+-"))) (Plus DIGITS))).
Definition INTEGER : regex := Cat (Plus DIGITS) (Opt EXPONENT).
Definition FRACTION : regex := Group 1 (Cat (Star DIGITS) (Set_ (lit "."))).
Definition UNSIGNED : regex := Cat (Opt FRACTION) INTEGER.

Definition digits_from (css : str) (p : nat) : nat :=
  span DIGITS None (drop p css).

(** the end of [[eE][+-]?[0-9]+] at [t], when it matches there *)
Definition exponent (css : str) (t : nat) : option nat :=
  if startswith_any (lit "eE") css t then
    let q := if startswith_any (lit "+-") css (S t) then S (S t) else S t in
    let d := digits_from css q in
    if d <? 1 then None else Some (q + d)
  else None.

Definition with_exponent (css : str) (t : nat) (g : groups) : nat * groups :=
  match exponent css t with
  | Some e => (e, (2, (t, e)) :: g)
  | None => (t, g)
  end.

(** [([0-9]*\.)?[0-9]+([eE][+-]?[0-9]+)?] at [p] *)
Definition number_body (css : str) (p : nat) (g : groups)
    : option (nat * groups) :=
  let d := digits_from css p in
  let f := if startswith_any (lit ".") css (p + d)
           then digits_from css (S (p + d)) else 0 in
  if 1 <=? f then
    Some (with_exponent css (S (p + d) + f) ((1, (p, S (p + d))) :: g))
  else if 1 <=? d then Some (with_exponent css (p + d) g)
  else None.

(** the match of [_NUMBER_RE] as a scan without backtracking *)
Definition number_scan (css : str) (pos : nat) : option (nat * groups) :=
  if startswith_any (lit "-+") css pos then number_body css (S pos) []
  else number_body css pos [].

(** the position after the optional sign *)
Definition after_sign (css : str) (pos : nat) : nat :=
  if startswith_any (lit "-+") css pos then S pos else pos.

(** a digit on the left of the optional point, that is, a digit right
    after the optional sign *)
Definition digit_first (css : str) (pos : nat) : bool :=
  startswith_any DIGITS css (after_sign css pos).

(** after the optional sign, a digit, or a point and a digit *)
Definition number_start (css : str) (pos : nat) : bool :=
  let p := after_sign css pos in
  startswith_any DIGITS css p
  || (startswith_any (lit ".") css p && startswith_any DIGITS css (S p)).

End NumberSpec.

Module StringSpec.

(** The body of a string from [i] up to [j], read as the grammar of
    strings has it: ordinary characters, escaped newlines and escapes,
    with no closing quote and no newline of its own before [j]. *)
Inductive string_body (css : str) (quote : Z) : nat -> nat -> Prop :=
| body_end i : string_body css quote i i
| body_char i j c :
    css !! i = Some c -> c <> quote -> c <> BACKSLASH -> c <> LF ->
    string_body css quote (i + 1) j -> string_body css quote i j
| body_escaped_newline i j :
    css !! i = Some BACKSLASH -> css !! (i + 1) = Some LF ->
    string_body css quote (i + 1 + 1) j -> string_body css quote i j
| body_escape i j c x p :
    css !! i = Some BACKSLASH -> css !! (i + 1) = Some c -> c <> LF ->
    _consume_escape css (i + 1) = Ok (x, p) ->
    string_body css quote p j -> string_body css quote i j.

End StringSpec.

Module UrlSpec.

(** the results an unquoted URL can have: a value with no error, a value
    cut short by the end of the input, or no value and [bad-url] *)
Definition unquoted_result (r : option str * nat * option error) : Prop :=
  match r with
  | (Some _, _, None) => True
  | (Some _, _, Some e) => e = eof_in_url
  | (None, _, Some e) => e = bad_url
  | (None, _, None) => False
  end.

(** the first character after the whitespace that follows [url(] is not
    a quote: the condition under which the main loop calls [_consume_url] *)
Definition unquoted (css : str) (pos : nat) : Prop :=
  match css !! skip_ws css pos with
  | Some c => mem c [DQUOTE; SQUOTE] = false
  | None => True
  end.

End UrlSpec.

Module RangeSpec.
Import ReSpec.

Definition HEX : str := lit "0123456789abcdefABCDEF".

(** the hex digits read for [start]: the longest run, at most 6 *)
Definition hex_count (css : str) (pos : nat) : nat :=
  span HEX (Some 6) (drop pos css).

(** the question marks read after them: the longest run, at most what
    the hex digits left of the 6 *)
Definition question_count (css : str) (pos : nat) : nat :=
  span [ch "?"] (Some (6 - hex_count css pos)) (drop (pos + hex_count css pos) css).

End RangeSpec.

(** what an action must satisfy for the loop to go on: the position
    moves forward, and a block is closed only when one is open *)
Definition progress (end_char : option Z) (pos : nat) (a : action) : Prop :=
  match a with
  | Append _ p => pos < p
  | OpenBlock _ _ p => pos < p
  | CloseBlock p => pos < p /\ end_char <> None
  | Break _ => True
  end.

(** [end_char] is a character only while a block is open: the stack
    is empty only when [end_char] is [None], at every level *)
Fixpoint stack_ok (stack : list (loc * option Z)) (end_char : option Z) : Prop :=
  match stack with
  | [] => end_char = None
  | (_, e) :: rest => stack_ok rest e
  end.

Definition leaf_pos (t : leaf) : Z * Z :=
  match t with
  | WhitespaceToken l c _ | IdentToken l c _ | AtKeywordToken l c _
  | HashToken l c _ _ | StringToken l c _ _ | URLToken l c _ _
  | NumberToken l c _ _ _ | PercentageToken l c _ _ _
  | DimensionToken l c _ _ _ _ | UnicodeRangeToken l c _ _
  | Comment l c _ | LiteralToken l c _ | ParseError l c _ _ => (l, c)
  end.

Definition block_pos (b : block) : Z * Z :=
  match b with
  | FunctionBlock l c _ | CurlyBracketsBlock l c | SquareBracketsBlock l c
  | ParenthesesBlock l c => (l, c)
  end.

Definition is_number (t : leaf) : bool :=
  match t with
  | NumberToken _ _ _ _ _ | PercentageToken _ _ _ _ _
  | DimensionToken _ _ _ _ _ _ => true
  | _ => false
  end.

Definition is_comment (t : leaf) : bool :=
  match t with Comment _ _ _ => true | _ => false end.

(** the kinds of the errors of strings and URLs *)
Definition STRING_URL_ERRORS : list str :=
  [lit "bad-string"; lit "eof-in-string"; lit "bad-url"; lit "eof-in-url"].

(** a parse error is an error of a string or of a URL, or it is the
    unmatched closing character [c] *)
Definition error_spec (c : Z) (t : leaf) : Prop :=
  match t with
  | ParseError _ _ kind _ =>
      In kind STRING_URL_ERRORS \/ (kind = [c] /\ mem c (lit "}])") = true)
  | _ => True
  end.

(** what holds of every token appended by the iteration at [pos], on
    the character [c], for the position [(line, column)] *)
Definition leaf_spec (css : str) (skip_comments : bool) (line column : Z)
    (pos : nat) (c : Z) (t : leaf) : Prop :=
  leaf_pos t = (line, column)
  /\ (is_number t = true -> match_ _NUMBER_RE css pos <> None)
  /\ (is_comment t = true -> skip_comments = false)
  /\ error_spec c t.

Definition action_spec (css : str) (skip_comments : bool) (line column : Z)
    (pos : nat) (c : Z) (a : action) : Prop :=
  match a with
  | Append ts _ | Break ts => Forall (leaf_spec css skip_comments line column pos c) ts
  | OpenBlock b closing _ =>
      block_pos b = (line, column) /\ mem closing (lit "}])") = true
  | CloseBlock _ => True
  end.

(** the tokens an action appends *)
Definition appended (a : action) : list leaf :=
  match a with
  | Append ts _ | Break ts => ts
  | OpenBlock _ _ _ | CloseBlock _ => []
  end.

(** the line of the token that starts at [pos s] *)
Definition next_line (css : str) (s : state) : Z :=
  match rfind LF css s.(token_start_pos) s.(pos) with
  | Some newline =>
      (s.(line) + (1 + Z.of_nat (count LF css s.(token_start_pos) newline)))%Z
  | None => s.(line)
  end.

Definition next_last_newline (css : str) (s : state) : Z :=
  match rfind LF css s.(token_start_pos) s.(pos) with
  | Some newline => Z.of_nat newline
  | None => s.(last_newline)
  end.

(** the column of the token that starts at [pos s] *)
Definition next_column (css : str) (s : state) : Z :=
  (Z.of_nat s.(pos) - next_last_newline css s)%Z.

(** the state once the position of the token is known *)
Definition started (css : str) (s : state) : state :=
  mk_state s.(pos) s.(pos) (next_line css s) (next_last_newline css s)
    s.(objects) s.(tokens) s.(end_char) s.(stack).

(** [end_char] is [None] or one of the three closing characters, as in
    every state the loop reaches *)
Definition closing (end_char : option Z) : Prop :=
  match end_char with
  | Some e => mem e (lit "}])") = true
  | None => True
  end.

Module Positions.
Local Open Scope Z_scope.

(** [(line, column)] pairs in lexicographic order *)
Definition lex_le (a b : Z * Z) : Prop :=
  fst a < fst b \/ (fst a = fst b /\ snd a <= snd b).

(** every element is at most every later one *)
Fixpoint nondecreasing (l : list (Z * Z)) : Prop :=
  match l with
  | [] => True
  | a :: l' => Forall (lex_le a) l' /\ nondecreasing l'
  end.

Definition cell_pos (c : cell) : Z * Z :=
  match c with
  | Tok t => leaf_pos t
  | Blk b _ => block_pos b
  end.

Definition token_pos (t : token) : Z * Z :=
  match t with
  | Leaf t => leaf_pos t
  | Block b _ => block_pos b
  end.

(** in every list, at every depth, the positions do not decrease *)
Inductive sorted_tokens : list token -> Prop :=
| sorted_intro ts :
    nondecreasing (map token_pos ts) ->
    (forall b content, In (Block b content) ts -> sorted_tokens content) ->
    sorted_tokens ts.

(** a list of the store: sorted, and nothing after the position [x] *)
Definition list_ok (x : Z * Z) (l : list cell) : Prop :=
  nondecreasing (map cell_pos l) /\ Forall (fun c => lex_le (cell_pos c) x) l.

(** the position of the token that the next iteration starts *)
Definition next_pos (css : str) (s : state) : Z * Z :=
  (next_line css s, next_column css s).

Definition sorted_state (css : str) (s : state) : Prop :=
  Forall (list_ok (next_pos css s)) s.(objects).

(** every list of the store is sorted *)
Definition sorted_heap (h : heap) : Prop :=
  Forall (fun l => nondecreasing (map cell_pos l)) h.

End Positions.

Module Comments.

(** the tokens of a list without its [Comment]s, at every depth *)
Fixpoint strip_token (t : token) : list token :=
  match t with
  | Leaf (Comment _ _ _) => []
  | Leaf _ => [t]
  | Block b content => [Block b (flat_map strip_token content)]
  end.

Definition strip_tokens (ts : list token) : list token :=
  flat_map strip_token ts.

Definition keep_leaf (t : leaf) : bool := negb (is_comment t).

Definition keep_cell (c : cell) : bool :=
  match c with
  | Tok t => keep_leaf t
  | Blk _ _ => true
  end.

Definition strip_heap (h : heap) : heap := map (List.filter keep_cell) h.

Definition strip_state (s : state) : state :=
  mk_state s.(pos) s.(token_start_pos) s.(line) s.(last_newline)
    (strip_heap s.(objects)) s.(tokens) s.(end_char) s.(stack).

Definition strip_action (a : action) : action :=
  match a with
  | Append ts p => Append (List.filter keep_leaf ts) p
  | Break ts => Break (List.filter keep_leaf ts)
  | OpenBlock _ _ _ | CloseBlock _ => a
  end.

Definition res_map {A B} (f : A -> B) (m : res A) : res B :=
  match m with
  | Ok a => Ok (f a)
  | Raise e => Raise e
  | OutOfFuel => OutOfFuel
  end.

Definition strip_final (f : final_state) : final_state :=
  mk_final f.(final_pos) (strip_heap f.(final_objects)) f.(final_tokens)
    f.(final_end_char) f.(final_stack).

Definition strip_result (r : state + final_state)
    : state + final_state :=
  match r with
  | inl s => inl (strip_state s)
  | inr f => inr (strip_final f)
  end.

End Comments.

Module OpenBlocks.

(** a block cell refers to a list allocated after the list it is in *)
Definition wf (h : heap) : Prop :=
  forall l cells b l',
    h !! l = Some cells -> In (Blk b l') cells -> l < l' < length h.

(** the lists of the stack, from the innermost out: each ends with the
    block whose content is the list above it, and the last one is [root] *)
Fixpoint spine (h : heap) (tokens : loc) (stack : list (loc * option Z)) : Prop :=
  match stack with
  | [] => tokens = root
  | (t, _) :: rest =>
      (exists cells b, h !! t = Some (cells ++ [Blk b tokens])) /\ spine h t rest
  end.

Definition open_state (s : state) : Prop :=
  wf s.(objects) /\ spine s.(objects) s.(tokens) s.(stack)
  /\ s.(tokens) < length s.(objects).

(** the same when the loop is left *)
Definition open_final (f : final_state) : Prop :=
  wf f.(final_objects)
  /\ spine f.(final_objects) f.(final_tokens) f.(final_stack)
  /\ f.(final_tokens) < length f.(final_objects).

(** the content of the innermost of [depth] blocks, each the last token
    of the list it is in *)
Fixpoint open_blocks (depth : nat) (ts : list token) : option (list token) :=
  match depth with
  | O => Some ts
  | S d =>
      match open_blocks d ts with
      | Some inner =>
          match last inner with
          | Some (Block _ content) => Some content
          | _ => None
          end
      | None => None
      end
  end.

(** parse errors: only those of strings and URLs *)
Definition string_or_url_error (t : leaf) : Prop :=
  match t with
  | ParseError _ _ kind _ => In kind STRING_URL_ERRORS
  | _ => True
  end.

(** a property of every token without content, at every depth *)
Inductive every_leaf (P : leaf -> Prop) : list token -> Prop :=
| every_intro ts :
    (forall t, In (Leaf t) ts -> P t) ->
    (forall b content, In (Block b content) ts -> every_leaf P content) ->
    every_leaf P ts.

Definition cell_ok (P : leaf -> Prop) (c : cell) : Prop :=
  match c with
  | Tok t => P t
  | Blk _ _ => True
  end.

(** the input has none of the three closing characters *)
Definition closer_free (css : str) : Prop :=
  forall c, In c css -> mem c (lit "}])") = false.

Definition errors_ok (s : state) : Prop :=
  Forall (Forall (cell_ok string_or_url_error)) s.(objects).

End OpenBlocks.

Module Value.


End Value.

(** ** The two exceptions of the main loop *)

(** an integer literal at [pos] with more digits than [int] converts *)
Definition long_integer (css : str) (pos : nat) : Prop :=
  exists q g,
    match_ _NUMBER_RE css pos = Some (q, g)
    /\ any (groups_ css g) = false
    /\ int_max_str_digits < q - NumberSpec.after_sign css pos.

(** an identifier at [pos], followed by [(], whose value has a
    surrogate *)
Definition surrogate_function (css : str) (pos : nat) : Prop :=
  exists v p,
    _is_ident_start css pos = Ok true
    /\ _consume_ident css pos = Ok (v, p)
    /\ startswith (lit "(") css p = true
    /\ existsb surrogate v = true.

(** what the iteration at [pos] raises, and why *)
Definition raise_cause (css : str) (pos : nat) (e : exn) : Prop :=
  (e = UnicodeEncodeError /\ surrogate_function css pos)
  \/ (e = ValueError /\ long_integer css pos).

(** The outcome [r] of a call on [css]: it returns a value of which
    [P] holds; or the iteration at some position of the text raises,
    for one of the two causes.  (The loops do not run out of fuel.) *)
Definition returns {A} (css : str) (P : A -> Prop) (r : res A) : Prop :=
  match r with
  | Ok a => P a
  | Raise e =>
      exists pos, pos < length (preprocess css)
                  /\ raise_cause (preprocess css) pos e
  | OutOfFuel => False
  end.

(** ** Further notions *)

(** the states in which an iteration of the loop starts *)
Inductive reachable (serialize_string_value serialize_url : str -> str)
    (css : str) (skip_comments : bool) : state -> Prop :=
| reach_initial :
    reachable serialize_string_value serialize_url css skip_comments initial
| reach_step s s' :
    reachable serialize_string_value serialize_url css skip_comments s ->
    s.(pos) < length css ->
    iteration serialize_string_value serialize_url css skip_comments s
    = Ok (inl s') ->
    reachable serialize_string_value serialize_url css skip_comments s'.

(** the kinds of all parse errors *)
Definition ERROR_KINDS : list str :=
  STRING_URL_ERRORS ++ [lit "}"; lit "]"; lit ")"].

Definition known_error (t : leaf) : Prop :=
  match t with
  | ParseError _ _ kind _ => In kind ERROR_KINDS
  | _ => True
  end.

(** [end_char] and the stack of open blocks: with no block open,
    [end_char] is [None]; with one open, it is one of the three closing
    characters, and what the stack holds is the same one level out *)
Fixpoint frames (stack : list (loc * option Z)) (end_char : option Z) : Prop :=
  match stack with
  | [] => end_char = None
  | (_, e) :: rest =>
      (exists c, end_char = Some c /\ mem c (lit "}])") = true) /\ frames rest e
  end.

(** the line of the character at [pos], counted from 1: one more than
    the newlines before it *)
Definition line_of (css : str) (pos : nat) : Z :=
  (1 + Z.of_nat (count LF css 0 pos))%Z.

(** the column of the character at [pos], counted from 1: its distance
    from the last newline before it, or from the start of the text *)
Definition column_of (css : str) (pos : nat) : Z :=
  match rfind LF css 0 pos with
  | Some newline => (Z.of_nat pos - Z.of_nat newline)%Z
  | None => (Z.of_nat pos + 1)%Z
  end.

(** [line] and [last_newline] are those of [token_start_pos] *)
Definition tracked (css : str) (s : state) : Prop :=
  s.(token_start_pos) <= s.(pos)
  /\ s.(line) = line_of css s.(token_start_pos)
  /\ s.(last_newline) = match rfind LF css 0 s.(token_start_pos) with
                        | Some newline => Z.of_nat newline
                        | None => (-1)%Z
                        end.

(** text that the loops of the consumers take as it is *)
Module PlainText.
Import IdentSpec.

(** in a string: not the closing quote, not a backslash, not a newline *)
Definition string_char (quote c : Z) : bool :=
  negb (c =? quote)%Z && negb (c =? BACKSLASH)%Z && negb (c =? LF)%Z.

(** in a URL without quotes: not [)], not whitespace, not a backslash,
    none of the characters that make the URL bad *)
Definition url_char (c : Z) : bool :=
  negb (c =? ch ")")%Z && negb (mem c WS) && negb (c =? BACKSLASH)%Z
  && negb (mem c URL_ERROR_CHARS).

(** in a name: a name character *)
Definition name_char (c : Z) : bool := mem c NAME || (0x7F <? c)%Z.

End PlainText.

(** the fields [representation] and [int_value] of the numeric tokens *)
Definition number_repr (t : leaf) : str :=
  match t with
  | NumberToken _ _ _ _ r | PercentageToken _ _ _ _ r
  | DimensionToken _ _ _ _ r _ => r
  | _ => []
  end.

Definition number_int_value (t : leaf) : option Z :=
  match t with
  | NumberToken _ _ _ i _ | PercentageToken _ _ _ i _
  | DimensionToken _ _ _ i _ _ => i
  | _ => None
  end.

(** the text has a decimal point or the letter of an exponent *)
Definition has_point_or_exponent (repr : str) : Prop :=
  In (ch ".") repr \/ In (ch "e") repr \/ In (ch "E") repr.

(** the position an action leaves is within the input *)
Definition within (css : str) (a : action) : Prop :=
  match a with
  | Append _ p | OpenBlock _ _ p | CloseBlock p => p <= length css
  | Break _ => True
  end.

(** the three characters that open a block, what closes each, and the
    block each opens *)
Definition OPENING : str := lit "{[(".

Definition closer (c : Z) : Z :=
  if (c =? ch "{")%Z then ch "}"
  else if (c =? ch "[")%Z then ch "]"
  else ch ")".

Definition bracket_block (c : Z) (line column : Z) : block :=
  if (c =? ch "{")%Z then CurlyBracketsBlock line column
  else if (c =? ch "[")%Z then SquareBracketsBlock line column
  else ParenthesesBlock line column.

(** a token without content is in the list, at some depth *)
Inductive occurs (t : leaf) : list token -> Prop :=
| occurs_here ts : In (Leaf t) ts -> occurs t ts
| occurs_inside b content ts :
    In (Block b content) ts -> occurs t content -> occurs t ts.

(** every list of the store but [root] is the content of a block of an
    earlier list *)
Definition linked (h : heap) : Prop :=
  forall l, 0 < l < length h ->
    exists l' cells b, l' < l /\ h !! l' = Some cells /\ In (Blk b l) cells.

(** the lists of [h] are lists of [h'], with what was appended since *)
Definition grows (h h' : heap) : Prop :=
  forall l cells, h !! l = Some cells ->
    exists more, h' !! l = Some (cells ++ more).


(** the character [c] at [pos] is the cause of a parse error of this
    kind and message when [end_char] is the closing character awaited:
    a closing character that is not the one awaited, with its own
    error; the quote that opens a string for which
    [_consume_quoted_string] reports this error; or the start of a name
    [url] before a [(], after which [_consume_url] reports this error *)
Definition error_cause (css : str) (end_char : option Z) (pos : nat) (c : Z)
    (kind message : str) : Prop :=
  (mem c (lit "}])") = true /\ end_char <> Some c
   /\ kind = [c] /\ message = lit "Unmatched " ++ [c])
  \/ (mem c [DQUOTE; SQUOTE] = true
      /\ exists value p,
           _consume_quoted_string css pos = Ok (value, p, Some (kind, message)))
  \/ (exists name p value p',
        _is_ident_start css pos = Ok true
        /\ _consume_ident css pos = Ok (name, p)
        /\ startswith (lit "(") css p = true
        /\ ascii_lower name = Ok (lit "url")
        /\ _consume_url css (p + 1) = Ok (value, p', Some (kind, message))).

Definition caused (css : str) (end_char : option Z) (pos : nat) (c : Z)
    (t : leaf) : Prop :=
  match t with
  | ParseError _ _ kind message => error_cause css end_char pos c kind message
  | _ => True
  end.

Section Scanned.

Variable serialize_string_value : str -> str.
Variable serialize_url : str -> str.
Variable css : str.
Variable skip_comments : bool.

(** a token that an iteration of the loop appends *)
Definition scanned (t : leaf) : Prop :=
  exists s c a,
    reachable serialize_string_value serialize_url css skip_comments s
    /\ css !! s.(pos) = Some c
    /\ dispatch serialize_string_value serialize_url css skip_comments
         s.(end_char) (next_line css s) (next_column css s) s.(pos) c = Ok a
    /\ In t (appended a).

(** a parse error has the line and the column of a character of the
    text at which an iteration starts, and this character is its
    cause *)
Definition located (t : leaf) : Prop :=
  match t with
  | ParseError line column kind message =>
      exists s c,
        reachable serialize_string_value serialize_url css skip_comments s
        /\ css !! s.(pos) = Some c
        /\ line = line_of css s.(pos) /\ column = column_of css s.(pos)
        /\ error_cause css s.(end_char) s.(pos) c kind message
  | _ => True
  end.

End Scanned.

(** * Properties *)

Import ReSpec NumberSpec IdentSpec StringSpec UrlSpec RangeSpec.

(** ** Examples *)

Example number_re_1 : match_ _NUMBER_RE (lit "-1.5e+3px") 0 = Some (7, [(2, (4, 7)); (1, (1, 3))]).
Proof. vm_compute. reflexivity. Qed.
Example number_re_2 : match_ _NUMBER_RE (lit "1.x") 0 = Some (1, []).
Proof. vm_compute. reflexivity. Qed.
Example number_re_3 : match_ _NUMBER_RE (lit "+.") 0 = None.
Proof. vm_compute. reflexivity. Qed.
Example number_re_4 : match_ _NUMBER_RE (lit "1e") 0 = Some (1, []).
Proof. vm_compute. reflexivity. Qed.

Example escape_1 : _consume_escape (lit "41 b") 0 = Ok (65%Z, 3).
Proof. vm_compute. reflexivity. Qed.
Example ident_1 : _consume_ident (lit "a\62 c(") 0 = Ok (lit "abc", 6).
Proof. vm_compute. reflexivity. Qed.
Example urange_1 : _consume_unicode_range (lit "U+1F??") 2 = Ok (0x1F00%Z, 0x1FFF%Z, 6).
Proof. vm_compute. reflexivity. Qed.
Example url_1 : _consume_url (lit "url(foo.png)") 4 = Ok (Some (lit "foo.png"), 12, None).
Proof. vm_compute. reflexivity. Qed.

Example parse_1 :
  parse_component_value_list ser_id ser_id (lit "a b") false
  = Ok [Leaf (IdentToken 1 1 (lit "a")); Leaf (WhitespaceToken 1 2 (lit " "));
        Leaf (IdentToken 1 3 (lit "b"))].
Proof. vm_compute. reflexivity. Qed.
Example parse_2 :
  parse_component_value_list ser_id ser_id (lit "{a") false
  = Ok [Block (CurlyBracketsBlock 1 1) [Leaf (IdentToken 1 2 (lit "a"))]].
Proof. vm_compute. reflexivity. Qed.

(** ** Strings and indices *)

Lemma drop_cases (css : str) (pos : nat) :
  (css !! pos = None /\ length css <= pos /\ drop pos css = [])
  \/ (exists c, css !! pos = Some c /\ pos < length css
                /\ drop pos css = c :: drop (S pos) css).
Proof.
  destruct (css !! pos) as [c|] eqn:E.
  - right. exists c. split; [reflexivity|]. split.
    + eapply lookup_lt_Some; eauto.
    + apply drop_S. assumption.
  - left. split; [reflexivity|].
    apply lookup_ge_None in E. split; [assumption|].
    apply drop_ge. assumption.
Qed.

Lemma idx_lt (css : str) (pos : nat) :
  pos < length css -> exists c, css !! pos = Some c /\ idx css pos = Ok c.
Proof.
  intros H. destruct (lookup_lt_is_Some_2 css pos H) as [c Hc].
  exists c. unfold idx. rewrite Hc. auto.
Qed.

Lemma ltb_lt_length (css : str) (pos : nat) c :
  css !! pos = Some c -> (pos <? length css) = true.
Proof. intros H. apply Nat.ltb_lt. eapply lookup_lt_Some; eauto. Qed.

Lemma skip_in_ge chars rest pos : pos <= skip_in chars rest pos.
Proof.
  revert pos. induction rest as [|c rest IH]; intros pos; simpl; [lia|].
  destruct (mem c chars); [|lia]. specialize (IH (pos + 1)). lia.
Qed.

Lemma skip_in_le chars rest pos : skip_in chars rest pos <= pos + length rest.
Proof.
  revert pos. induction rest as [|c rest IH]; intros pos; simpl; [lia|].
  destruct (mem c chars); [|lia]. specialize (IH (pos + 1)). lia.
Qed.

(** the characters stepped over are those of [chars] *)
Lemma skip_in_take chars rest pos :
  Forall (fun c => mem c chars = true) (take (skip_in chars rest pos - pos) rest).
Proof.
  revert pos. induction rest as [|c rest IH]; intros pos; simpl.
  - rewrite take_nil. constructor.
  - destruct (mem c chars) eqn:E.
    + pose proof (skip_in_ge chars rest (pos + 1)).
      replace (skip_in chars rest (pos + 1) - pos)
        with (S (skip_in chars rest (pos + 1) - (pos + 1))) by lia.
      simpl. constructor; [assumption|apply IH].
    + replace (pos - pos) with 0 by lia. simpl. constructor.
Qed.

Lemma skip_in_first chars c rest pos :
  mem c chars = true -> pos < skip_in chars (c :: rest) pos.
Proof.
  intros H. simpl. rewrite H. pose proof (skip_in_ge chars rest (pos + 1)). lia.
Qed.

Lemma skip_ws_ge css pos : pos <= skip_ws css pos.
Proof. apply skip_in_ge. Qed.

Lemma slice_length css a b : b <= length css -> length (slice css a b) = b - a.
Proof.
  intros H. unfold slice. rewrite length_take, length_drop. lia.
Qed.

(** ** The regex matcher *)

Module ReFacts.

(** with a continuation that never fails, a repetition takes all it can *)
Lemma repeat_greedy_total chars k :
  total k ->
  forall rest lo hi pos g,
    repeat_greedy chars lo hi k rest pos g
    = if span chars hi rest <? lo then None
      else k (pos + span chars hi rest) g.
Proof.
  intros Hk. induction rest as [|c rest IH]; intros lo hi pos g; simpl.
  - destruct (hi_zero hi); destruct lo; simpl; try reflexivity;
      rewrite Nat.add_0_r; reflexivity.
  - destruct (hi_zero hi) eqn:Hz.
    { destruct lo; simpl; [rewrite Nat.add_0_r|]; reflexivity. }
    destruct (mem c chars) eqn:Hc.
    + rewrite IH. destruct lo as [|lo]; simpl.
      * replace (pos + S (span chars (hi_pred hi) rest))
          with (S pos + span chars (hi_pred hi) rest) by lia.
        destruct (k _ g) eqn:E; [reflexivity|]. exfalso. eapply Hk; eauto.
      * destruct (span chars (hi_pred hi) rest <? lo) eqn:E1.
        -- apply Nat.ltb_lt in E1.
           destruct (S (span chars (hi_pred hi) rest) <? S lo) eqn:E2;
             [reflexivity|]. apply Nat.ltb_ge in E2. lia.
        -- apply Nat.ltb_ge in E1.
           destruct (S (span chars (hi_pred hi) rest) <? S lo) eqn:E2.
           { apply Nat.ltb_lt in E2. lia. }
           replace (pos + S (span chars (hi_pred hi) rest))
             with (S pos + span chars (hi_pred hi) rest) by lia.
           destruct (k _ g) eqn:E; [reflexivity|]. exfalso. eapply Hk; eauto.
    + destruct lo; simpl; [rewrite Nat.add_0_r|]; reflexivity.
Qed.

(** a continuation that fails wherever another character of [chars]
    follows is only ever entered after the longest run *)
Lemma repeat_greedy_star chars css k :
  (forall pos g c, css !! pos = Some c -> mem c chars = true -> k pos g = None) ->
  forall pos g,
    repeat_greedy chars 0 None k (drop pos css) pos g
    = k (pos + span chars None (drop pos css)) g.
Proof.
  intros Hk pos g.
  remember (drop pos css) as rest eqn:Hrest.
  revert pos Hrest. induction rest as [|c rest IH]; intros pos Hrest; simpl.
  - rewrite Nat.add_0_r. reflexivity.
  - destruct (drop_cases css pos) as [(_ & _ & Hd)|(c' & Hc' & _ & Hd)];
      rewrite Hd in Hrest; [discriminate|].
    injection Hrest as -> ->.
    destruct (mem c' chars) eqn:Hm.
    + rewrite (IH (S pos) eq_refl).
      replace (pos + S (span chars None (drop (S pos) css)))
        with (S pos + span chars None (drop (S pos) css)) by lia.
      destruct (k (S pos + _) g) eqn:E; [reflexivity|].
      apply (Hk pos g c' Hc' Hm).
    + rewrite Nat.add_0_r. reflexivity.
Qed.

End ReFacts.

Module SpanFacts.
Import ReFacts.

Lemma span_le_hi chars h rest : span chars (Some h) rest <= h.
Proof.
  revert h. induction rest as [|c rest IH]; intros h; simpl.
  - destruct h; simpl; lia.
  - destruct h as [|h]; simpl; [lia|].
    destruct (mem c chars); [|lia]. specialize (IH h). lia.
Qed.

Lemma span_le_length chars hi rest : span chars hi rest <= length rest.
Proof.
  revert hi. induction rest as [|c rest IH]; intros hi; simpl.
  - destruct (hi_zero hi); lia.
  - destruct (hi_zero hi); [lia|].
    destruct (mem c chars); [|lia]. specialize (IH (hi_pred hi)). lia.
Qed.

Lemma span_all chars hi rest :
  Forall (fun c => mem c chars = true) (take (span chars hi rest) rest).
Proof.
  revert hi. induction rest as [|c rest IH]; intros hi; simpl.
  - destruct (hi_zero hi); constructor.
  - destruct (hi_zero hi); [constructor|].
    destruct (mem c chars) eqn:E; simpl; constructor; auto.
Qed.

(** the run ends at the bound, at the end of the input, or before a
    character outside [chars] *)
Lemma span_stop chars hi rest :
  hi = Some (span chars hi rest)
  \/ match rest !! span chars hi rest with
     | Some c => mem c chars = false
     | None => True
     end.
Proof.
  revert hi. induction rest as [|c rest IH]; intros hi; simpl.
  - destruct hi as [[|h]|]; simpl; auto.
  - destruct hi as [[|h]|]; simpl; auto.
    + destruct (mem c chars) eqn:E; simpl; auto.
      destruct (IH (Some h)) as [H|H]; simpl in *; auto.
      left. congruence.
    + destruct (mem c chars) eqn:E; simpl; auto.
      destruct (IH None) as [H|H]; simpl in *; auto. discriminate.
Qed.

Lemma span_zero chars hi c rest :
  mem c chars = false -> span chars hi (c :: rest) = 0.
Proof. intros H. simpl. rewrite H. destruct (hi_zero hi); reflexivity. Qed.

Lemma span_nil chars hi : span chars hi [] = 0.
Proof. simpl. destruct (hi_zero hi); reflexivity. Qed.

Lemma span_first chars hi c rest :
  mem c chars = true -> hi_zero hi = false -> 1 <= span chars hi (c :: rest).
Proof. intros H Hz. simpl. rewrite Hz, H. lia. Qed.

End SpanFacts.

(** ** Character classes *)

(** [mem_cases H]: from [H : mem c chars = true] for a literal [chars],
    one goal per character of [chars], with [c] replaced by it *)
Ltac mem_cases H :=
  unfold mem in H;
  let t := type of H in
  match t with
  | existsb _ ?l = true =>
      let l' := eval vm_compute in l in
      change l with l' in H; simpl in H;
      repeat match type of H with
             | (_ || _)%bool = true => apply orb_prop in H as [H|H]
             end;
      try discriminate H; apply Z.eqb_eq in H;
      try match type of H with ?x = _ => is_var x; subst x end
  end.

Lemma hex_digit_mem c :
  mem c HEXDIGITS = true -> exists d, hex_digit c = Some d /\ (0 <= d < 16)%Z.
Proof.
  intros H. mem_cases H; eexists; (split; [vm_compute; reflexivity|]); lia.
Qed.

Lemma int16_acc_hex s :
  Forall (fun c => mem c HEXDIGITS = true) s ->
  forall acc, (0 <= acc)%Z -> exists v, int16_acc acc s = Ok v /\ (0 <= v)%Z.
Proof.
  induction 1 as [|c s Hc Hs IH]; intros acc Hacc; simpl.
  - eauto.
  - destruct (hex_digit_mem c Hc) as (d & -> & Hd). apply IH. lia.
Qed.

Lemma int16_hex s :
  s <> [] -> Forall (fun c => mem c HEXDIGITS = true) s ->
  exists v, int16 s = Ok v /\ (0 <= v)%Z.
Proof.
  intros Hne Hs. unfold int16. destruct s as [|c s]; [congruence|].
  apply int16_acc_hex; [assumption|lia].
Qed.

(** ** [_consume_escape] *)

Module EscapeFacts.
Import ReFacts SpanFacts.

(** the match of [_HEX_ESCAPE_RE] in closed form *)
Lemma hex_escape_match css pos :
  match_ _HEX_ESCAPE_RE css pos =
  let n := span HEXDIGITS (Some 6) (drop pos css) in
  if n <? 1 then None
  else Some (after_hex css (pos + n), [(1, (pos, pos + n))]).
Proof.
  unfold match_, _HEX_ESCAPE_RE. cbn [rmatch].
  rewrite repeat_greedy_total.
  - cbv zeta. destruct (span HEXDIGITS (Some 6) (drop pos css) <? 1); [reflexivity|].
    unfold after_hex, startswith_any.
    destruct (css !! (pos + span HEXDIGITS (Some 6) (drop pos css))) as [c|];
      [destruct (mem c WS)|]; reflexivity.
  - intros p g. destruct (css !! p) as [c|]; [destruct (mem c WS)|]; discriminate.
Qed.

End EscapeFacts.

Module EscapeProps.
Import ReFacts SpanFacts EscapeFacts.

Lemma slice_add css pos n : slice css pos (pos + n) = take n (drop pos css).
Proof. unfold slice. f_equal. lia. Qed.

Lemma startswith_any_drop chars css pos n :
  startswith_any chars css (pos + n)
  = match drop pos css !! n with Some c => mem c chars | None => false end.
Proof. unfold startswith_any. rewrite lookup_drop. reflexivity. Qed.

(** [_consume_escape] in full: the result and the new position *)
Lemma _consume_escape_spec (css : str) (pos : nat) :
  exists c pos', _consume_escape css pos = Ok (c, pos') /\
    match css !! pos with
    | None => c = REPLACEMENT /\ pos' = pos
    | Some x =>
        if mem x HEXDIGITS then
          exists n codepoint,
            1 <= n <= 6 /\ pos + n <= length css /\
            Forall (fun d => mem d HEXDIGITS = true) (slice css pos (pos + n)) /\
            (n < 6 -> startswith_any HEXDIGITS css (pos + n) = false) /\
            int16 (slice css pos (pos + n)) = Ok codepoint /\
            pos' = (if startswith_any WS css (pos + n)
                    then pos + n + 1 else pos + n) /\
            c = (if (0 <? codepoint)%Z && (codepoint <=? maxunicode)%Z
                 then codepoint else REPLACEMENT)
        else c = x /\ pos' = pos + 1
    end.
Proof.
  unfold _consume_escape. rewrite hex_escape_match. cbv zeta.
  destruct (drop_cases css pos) as [(Hn & Hlen & Hd)|(x & Hx & Hlen & Hd)].
  - rewrite Hn, Hd, span_nil. simpl.
    apply Nat.ltb_ge in Hlen. rewrite Hlen. eauto.
  - rewrite Hx. destruct (mem x HEXDIGITS) eqn:Hm.
    + set (n := span HEXDIGITS (Some 6) (drop pos css)).
      assert (H1 : 1 <= n) by (subst n; rewrite Hd; apply span_first; auto).
      assert (H6 : n <= 6) by apply span_le_hi.
      assert (Hl : n <= length (drop pos css)) by apply span_le_length.
      rewrite length_drop in Hl.
      assert (Hall : Forall (fun d => mem d HEXDIGITS = true)
                       (slice css pos (pos + n)))
        by (rewrite slice_add; apply span_all).
      destruct (int16_hex (slice css pos (pos + n))) as (cp & Hcp & _);
        [|assumption|].
      { intros He. apply (f_equal length) in He.
        rewrite slice_length in He by lia. simpl in He. lia. }
      destruct (n <? 1) eqn:E; [apply Nat.ltb_lt in E; lia|].
      cbn [group Nat.eqb bind]. rewrite Hcp. cbn [bind].
      eexists _, _. split; [reflexivity|].
      exists n, cp. repeat split; try assumption; try lia.
      * intros Hlt. rewrite startswith_any_drop.
        destruct (span_stop HEXDIGITS (Some 6) (drop pos css)) as [H|H];
          fold n in H.
        -- injection H as H. lia.
        -- destruct (drop pos css !! n); auto.
      * unfold after_hex. destruct (startswith_any WS css (pos + n)); lia.
    + rewrite Hd, span_zero by assumption. simpl.
      apply Nat.ltb_lt in Hlen. rewrite Hlen. unfold idx. rewrite Hx. simpl.
      eauto.
Qed.

(** [_consume_escape] returns and moves forward *)
Lemma _consume_escape_ok css pos :
  exists c pos', _consume_escape css pos = Ok (c, pos')
                 /\ pos <= pos' /\ (pos < length css -> pos < pos').
Proof.
  destruct (_consume_escape_spec css pos) as (c & pos' & H & Hs).
  exists c, pos'. split; [assumption|].
  destruct (css !! pos) as [x|] eqn:Hx.
  - destruct (mem x HEXDIGITS).
    + destruct Hs as (n & cp & Hn & _ & _ & _ & _ & -> & _).
      destruct (startswith_any WS css (pos + n)); lia.
    + destruct Hs as [_ ->]. lia.
  - destruct Hs as [_ ->]. apply lookup_ge_None in Hx. lia.
Qed.

End EscapeProps.

(** ** [_is_ident_start] and [_consume_ident] *)

Module IdentFacts.
Import EscapeProps.

Lemma idx_eq css pos c : css !! pos = Some c -> idx css pos = Ok c.
Proof. intros H. unfold idx. rewrite H. reflexivity. Qed.

Lemma name_start_name c : mem c NAME_START = true -> mem c NAME = true.
Proof. intros H. mem_cases H; vm_compute; reflexivity. Qed.

Lemma _is_name_start_ok css pos c :
  css !! pos = Some c ->
  _is_name_start css pos = Ok (mem c NAME_START || (0x7F <? c)%Z).
Proof. intros H. unfold _is_name_start. rewrite (idx_eq _ _ _ H). reflexivity. Qed.

Lemma _is_ident_start_ok css pos c :
  css !! pos = Some c ->
  exists b, _is_ident_start css pos = Ok b
            /\ (b = true -> ident_first css pos c = true).
Proof.
  intros H. unfold _is_ident_start, ident_first.
  rewrite (_is_name_start_ok _ _ _ H). cbn [bind].
  destruct (mem c NAME_START) eqn:Hs.
  { cbn [bind orb]. eexists. split; [reflexivity|]. intros _.
    rewrite (name_start_name _ Hs). reflexivity. }
  destruct (0x7F <? c)%Z eqn:Hn.
  { cbn [bind orb]. eexists. split; [reflexivity|]. intros _.
    rewrite orb_true_r. reflexivity. }
  cbn [orb]. rewrite (idx_eq _ _ _ H). cbn [bind].
  destruct (c =? ch "-")%Z eqn:Hd.
  - apply Z.eqb_eq in Hd. subst c.
    assert (Hok : exists b1,
      (if pos + 1 <? length css
       then let* n := _is_name_start css (pos + 1) in
            if n then Ok true
            else let* c1 := idx css (pos + 1) in Ok (c1 =? ch "-")%Z
       else Ok false) = Ok b1).
    { destruct (pos + 1 <? length css) eqn:E; [|eauto].
      apply Nat.ltb_lt in E. destruct (idx_lt css (pos + 1) E) as (c1 & Hc1 & Hi).
      rewrite (_is_name_start_ok _ _ _ Hc1). cbn [bind].
      destruct (_ || _); [eauto|]. rewrite Hi. cbn [bind]. eauto. }
    destruct Hok as (b1 & ->). cbn [bind]. eexists. split; [reflexivity|].
    intros _. reflexivity.
  - destruct (c =? BACKSLASH)%Z eqn:Hb; eexists; (split; [reflexivity|]).
    + intros ->. rewrite orb_true_r. reflexivity.
    + discriminate.
Qed.

Lemma _consume_ident_loop_ok fuel : forall css chunks start_pos pos,
  length css <= fuel + pos ->
  exists v pos', _consume_ident_loop fuel css chunks start_pos pos = Ok (v, pos')
                 /\ pos <= pos'.
Proof.
  induction fuel as [|fuel IH]; intros css chunks start_pos pos Hf.
  - simpl. destruct (pos <? length css) eqn:E.
    + apply Nat.ltb_lt in E. lia.
    + eauto.
  - simpl. destruct (pos <? length css) eqn:E; [|eauto].
    apply Nat.ltb_lt in E. destruct (idx_lt css pos E) as (c & Hc & ->).
    cbn [bind]. destruct (_ || _).
    + destruct (IH css chunks start_pos (pos + 1)) as (v & p & -> & Hp); [lia|].
      exists v, p. split; [reflexivity|lia].
    + destruct (_ && _).
      * destruct (_consume_escape_ok css (pos + 1)) as (x & p1 & -> & Hp1 & _).
        cbn [bind].
        destruct (IH css ((chunks ++ [slice css start_pos pos]) ++ [[x]]) p1 p1)
          as (v & p & -> & Hp); [lia|].
        exists v, p. split; [reflexivity|lia].
      * eauto.
Qed.

Lemma _consume_ident_ok css pos :
  exists v pos', _consume_ident css pos = Ok (v, pos') /\ pos <= pos'.
Proof. apply _consume_ident_loop_ok. lia. Qed.

(** at the start of an identifier, [_consume_ident] moves forward *)
Lemma _consume_ident_progress css pos c :
  css !! pos = Some c -> ident_first css pos c = true ->
  exists v pos', _consume_ident css pos = Ok (v, pos') /\ pos < pos'.
Proof.
  intros Hc Hfirst. unfold _consume_ident.
  pose proof (lookup_lt_Some _ _ _ Hc) as Hlt.
  destruct (length css) as [|fuel] eqn:Hlen; [lia|].
  cbn [_consume_ident_loop]. rewrite Hlen.
  destruct (pos <? S fuel) eqn:E; [|apply Nat.ltb_ge in E; lia].
  rewrite (idx_eq _ _ _ Hc). cbn [bind].
  unfold ident_first in Hfirst. fold NAME.
  destruct (mem c NAME || (0x7F <? c)%Z).
  - destruct (_consume_ident_loop_ok fuel css [] pos (pos + 1))
      as (v & p & -> & Hp); [lia|].
    exists v, p. split; [reflexivity|lia].
  - cbn [orb] in Hfirst. rewrite Hfirst.
    destruct (_consume_escape_ok css (pos + 1)) as (x & p1 & -> & Hp1 & _).
    cbn [bind].
    destruct (_consume_ident_loop_ok fuel css (([] ++ [slice css pos pos]) ++ [[x]]) p1 p1)
      as (v & p & -> & Hp); [lia|].
    exists v, p. split; [reflexivity|lia].
Qed.

End IdentFacts.

(** ** [_NUMBER_RE] *)

Module NumberFacts.
Import ReFacts SpanFacts.

Lemma rmatch_Set chars css k pos g :
  rmatch (Set_ chars) css k pos g
  = match css !! pos with
    | Some c => if mem c chars then k (S pos) g else None
    | None => None
    end.
Proof. reflexivity. Qed.

Lemma rmatch_Cat r1 r2 css k pos g :
  rmatch (Cat r1 r2) css k pos g = rmatch r1 css (rmatch r2 css k) pos g.
Proof. reflexivity. Qed.

Lemma rmatch_Opt r css k pos g :
  rmatch (Opt r) css k pos g
  = match rmatch r css k pos g with Some m => Some m | None => k pos g end.
Proof. reflexivity. Qed.

Lemma rmatch_Repeat lo hi chars css k pos g :
  rmatch (Repeat lo hi chars) css k pos g
  = repeat_greedy chars lo hi k (drop pos css) pos g.
Proof. reflexivity. Qed.

Lemma rmatch_Group n r css k pos g :
  rmatch (Group n r) css k pos g
  = rmatch r css (fun pos' g' => k pos' ((n, (pos, pos')) :: g')) pos g.
Proof. reflexivity. Qed.

Lemma _NUMBER_RE_parts : _NUMBER_RE = Cat (Opt (Set_ (lit "-+"))) UNSIGNED.
Proof. reflexivity. Qed.

Lemma digits_from_not_digit css p c :
  css !! p = Some c -> mem c DIGITS = false -> digits_from css p = 0.
Proof.
  intros Hc Hm. unfold digits_from.
  destruct (drop_cases css p) as [(E & _)|(c' & Hc' & _ & ->)]; [congruence|].
  apply span_zero. congruence.
Qed.

Lemma digits_from_end css p : css !! p = None -> digits_from css p = 0.
Proof.
  intros Hc. unfold digits_from.
  destruct (drop_cases css p) as [(_ & _ & ->)|(c' & Hc' & _)]; [|congruence].
  apply span_nil.
Qed.

Lemma leb1 n : (1 <=? n) = negb (n <? 1).
Proof. destruct n; reflexivity. Qed.

Lemma plus_digits css k p g :
  total k ->
  rmatch (Plus DIGITS) css k p g
  = if digits_from css p <? 1 then None else k (p + digits_from css p) g.
Proof.
  intros Hk. unfold Plus. rewrite rmatch_Repeat.
  apply repeat_greedy_total. assumption.
Qed.

Lemma exponent_match css t g :
  rmatch (Opt EXPONENT) css final t g = Some (with_exponent css t g).
Proof.
  rewrite rmatch_Opt. unfold EXPONENT. rewrite rmatch_Group, rmatch_Cat, rmatch_Set.
  unfold with_exponent, exponent, startswith_any.
  destruct (css !! t) as [c|]; [|reflexivity].
  destruct (mem c (lit "eE")); [|reflexivity].
  rewrite rmatch_Cat, rmatch_Opt, rmatch_Set.
  assert (Hk : total (fun pos' g' => final pos' ((2, (t, pos')) :: g')))
    by (intros ? ?; discriminate).
  destruct (css !! S t) as [s|] eqn:Hs.
  - destruct (mem s (lit "+-")) eqn:Hm.
    + rewrite plus_digits by assumption. cbv zeta.
      destruct (digits_from css (S (S t)) <? 1) eqn:E; [|reflexivity].
      rewrite plus_digits by assumption.
      rewrite (digits_from_not_digit css (S t) s); [reflexivity|assumption|].
      mem_cases Hm; reflexivity.
    + rewrite plus_digits by assumption. cbv zeta.
      destruct (digits_from css (S t) <? 1); reflexivity.
  - rewrite plus_digits by assumption. cbv zeta.
    destruct (digits_from css (S t) <? 1); reflexivity.
Qed.

Lemma exponent_total css : total (rmatch (Opt EXPONENT) css final).
Proof. intros t g. rewrite exponent_match. discriminate. Qed.

Lemma integer_match css p g :
  rmatch INTEGER css final p g
  = if digits_from css p <? 1 then None
    else Some (with_exponent css (p + digits_from css p) g).
Proof.
  unfold INTEGER. rewrite rmatch_Cat, plus_digits by apply exponent_total.
  destruct (digits_from css p <? 1); [reflexivity|]. apply exponent_match.
Qed.

Lemma unsigned_match css p g :
  rmatch UNSIGNED css final p g = number_body css p g.
Proof.
  unfold UNSIGNED. rewrite rmatch_Cat, rmatch_Opt.
  unfold FRACTION. rewrite rmatch_Group, rmatch_Cat. unfold Star.
  rewrite rmatch_Repeat, (repeat_greedy_star DIGITS css).
  - fold (digits_from css p). rewrite rmatch_Set.
    unfold number_body, startswith_any. cbv zeta.
    rewrite !integer_match, !leb1.
    destruct (css !! (p + digits_from css p)) as [c|].
    + destruct (mem c (lit ".")).
      * destruct (digits_from css (S (p + digits_from css p)) <? 1);
          destruct (digits_from css p <? 1); reflexivity.
      * change (0 <? 1) with true.
        destruct (digits_from css p <? 1); reflexivity.
    + change (0 <? 1) with true.
      destruct (digits_from css p <? 1); reflexivity.
  - intros q g' c Hc Hm. rewrite rmatch_Set, Hc.
    replace (mem c (lit ".")) with false; [reflexivity|].
    mem_cases Hm; reflexivity.
Qed.

(** the backtracking match and the scan agree *)
Lemma _NUMBER_RE_scan css pos : match_ _NUMBER_RE css pos = number_scan css pos.
Proof.
  unfold match_. fold final. rewrite _NUMBER_RE_parts, rmatch_Cat, rmatch_Opt, rmatch_Set.
  unfold number_scan, startswith_any.
  destruct (css !! pos) as [c|] eqn:Hc; [|apply unsigned_match].
  destruct (mem c (lit "-+")) eqn:Hm; [|apply unsigned_match].
  rewrite !unsigned_match.
  destruct (number_body css (S pos) []) eqn:E; [reflexivity|].
  unfold number_body.
  rewrite (digits_from_not_digit css pos c) by (auto; mem_cases Hm; reflexivity).
  rewrite Nat.add_0_r. unfold startswith_any. rewrite Hc.
  replace (mem c (lit ".")) with false by (mem_cases Hm; reflexivity).
  reflexivity.
Qed.

End NumberFacts.

Module NumberScan.
Import ReFacts SpanFacts NumberFacts IdentFacts.

Lemma slice_nonempty css a b c :
  css !! a = Some c -> a < b -> slice css a b = c :: slice css (S a) b.
Proof.
  intros Hc Hab. unfold slice. rewrite (drop_S _ _ _ Hc).
  replace (b - a) with (S (b - S a)) by lia. reflexivity.
Qed.

Lemma exponent_bounds css t e :
  exponent css t = Some e -> t < e /\ exists c, css !! t = Some c.
Proof.
  unfold exponent, startswith_any. destruct (css !! t) as [c|]; [|discriminate].
  destruct (mem c (lit "eE")); [|discriminate]. cbv zeta.
  destruct (_ <? 1) eqn:E; [discriminate|]. intros [= <-]. split; [|eauto].
  apply Nat.ltb_ge in E.
  match goal with |- context [if ?b then _ else _] => destruct b end; lia.
Qed.

Lemma with_exponent_ge css t g : t <= fst (with_exponent css t g).
Proof.
  unfold with_exponent. destruct (exponent css t) as [e|] eqn:E; simpl; [|lia].
  apply exponent_bounds in E. lia.
Qed.

Lemma any_group2 css g a b c r :
  group g 2 = Some (a, b) -> slice css a b = c :: r ->
  any (groups_ css g) = true.
Proof.
  intros Hg Hs. unfold any, groups_. cbn [map existsb]. rewrite Hg, Hs.
  rewrite orb_true_l. apply orb_true_r.
Qed.

Lemma any_group1 css g a b c r :
  group g 1 = Some (a, b) -> slice css a b = c :: r ->
  any (groups_ css g) = true.
Proof.
  intros Hg Hs. unfold any, groups_. cbn [map existsb]. rewrite Hg, Hs.
  reflexivity.
Qed.

Lemma any_exponent css t g :
  any (groups_ css (snd (with_exponent css t g))) = false ->
  with_exponent css t g = (t, g).
Proof.
  unfold with_exponent. destruct (exponent css t) as [e|] eqn:E; [|reflexivity].
  apply exponent_bounds in E as (Hlt & c & Hc). cbn [snd].
  rewrite (any_group2 css _ t e c (slice css (S t) e)); [discriminate|reflexivity|].
  apply slice_nonempty; assumption.
Qed.

Lemma any_fraction css p q g :
  q < length css -> p <= q ->
  any (groups_ css (snd (with_exponent css (S q) ((1, (p, S q)) :: g)))) = true.
Proof.
  intros Hq Hp.
  destruct (any (groups_ css (snd (with_exponent css (S q) ((1, (p, S q)) :: g)))))
    eqn:E; [reflexivity|].
  rewrite (any_exponent _ _ _ E) in E.
  destruct (lookup_lt_is_Some_2 css p) as [c Hc]; [lia|].
  cbn [snd] in E.
  rewrite (any_group1 css _ p (S q) c (slice css (S p) (S q))) in E;
    [discriminate|reflexivity|].
  apply slice_nonempty; [assumption|lia].
Qed.

Lemma digit_mem c :
  mem c DIGITS = true -> exists d, dec_digit c = Some d /\ (0 <= d < 10)%Z.
Proof.
  intros H. mem_cases H; eexists; (split; [vm_compute; reflexivity|]); lia.
Qed.

Lemma int10_acc_digits s :
  Forall (fun c => mem c DIGITS = true) s ->
  forall acc, exists v, int10_acc acc s = Ok v.
Proof.
  induction 1 as [|c s Hc Hs IH]; intros acc; simpl; [eauto|].
  destruct (digit_mem c Hc) as (d & -> & _). apply IH.
Qed.

Lemma int10_digits_ok s :
  s <> [] -> Forall (fun c => mem c DIGITS = true) s ->
  if int_max_str_digits <? length s then int10_digits s = Raise ValueError
  else exists v, int10_digits s = Ok v.
Proof.
  intros Hne Hs. destruct s as [|c s]; [congruence|]. unfold int10_digits.
  destruct (int_max_str_digits <? length (c :: s)); [reflexivity|].
  apply int10_acc_digits. assumption.
Qed.

(** the digits from [p] on, as text *)
Lemma digits_text css p :
  1 <= digits_from css p ->
  slice css p (p + digits_from css p) <> []
  /\ Forall (fun c => mem c DIGITS = true) (slice css p (p + digits_from css p)).
Proof.
  intros Hd. rewrite EscapeProps.slice_add. split; [|apply span_all].
  intros He. apply (f_equal length) in He. rewrite length_take in He.
  pose proof (span_le_length DIGITS None (drop p css)).
  unfold digits_from in *. cbn [length] in He. lia.
Qed.

Lemma number_body_gt css p g q g' :
  number_body css p g = Some (q, g') -> p < q.
Proof.
  unfold number_body. cbv zeta. rewrite !leb1.
  destruct (negb _) eqn:E1.
  - intros [= H].
    match type of H with
    | with_exponent ?c ?t ?g0 = _ =>
        pose proof (with_exponent_ge c t g0) as Hge; rewrite H in Hge
    end.
    cbn [fst] in Hge. lia.
  - destruct (negb (digits_from css p <? 1)) eqn:E2; [|discriminate].
    intros [= H].
    match type of H with
    | with_exponent ?c ?t ?g0 = _ =>
        pose proof (with_exponent_ge c t g0) as Hge; rewrite H in Hge
    end.
    cbn [fst] in Hge.
    apply negb_true_iff, Nat.ltb_ge in E2. lia.
Qed.

(** a match is never empty *)
Lemma number_scan_gt css pos q g :
  number_scan css pos = Some (q, g) -> pos < q.
Proof.
  unfold number_scan. destruct (startswith_any _ css pos); intros H;
    apply number_body_gt in H; lia.
Qed.

(** without groups the text is a run of digits *)
Lemma number_body_int css p q g' :
  number_body css p [] = Some (q, g') -> any (groups_ css g') = false ->
  q = p + digits_from css p /\ 1 <= digits_from css p.
Proof.
  unfold number_body. cbv zeta. rewrite !leb1.
  destruct (negb _) eqn:E1.
  - intros [= H] Hany. exfalso.
    unfold startswith_any in *.
    destruct (css !! (p + digits_from css p)) as [c|] eqn:Hc; [|discriminate].
    destruct (mem c (lit ".")); [|discriminate].
    pose proof (any_fraction css p (p + digits_from css p) []
                  (lookup_lt_Some _ _ _ Hc) ltac:(lia)) as Ht.
    apply negb_true_iff, Nat.ltb_ge in E1.
    match type of H with
    | with_exponent ?c ?t ?g0 = _ =>
        assert (Hany' : any (groups_ css (snd (with_exponent c t g0))) = false)
          by (rewrite H; assumption)
    end.
    apply any_exponent in Hany'. rewrite Hany' in H. injection H as _ <-.
    destruct (lookup_lt_is_Some_2 css p) as [x Hx];
      [apply lookup_lt_Some in Hc; lia|].
    rewrite (any_group1 css _ p (S (p + digits_from css p)) x
               (slice css (S p) (S (p + digits_from css p)))) in Hany;
      [discriminate|reflexivity|].
    apply slice_nonempty; [assumption|lia].
  - destruct (negb (digits_from css p <? 1)) eqn:E2; [|discriminate].
    intros [= H] Hany.
    apply negb_true_iff, Nat.ltb_ge in E2. split; [|assumption].
    match type of H with
    | with_exponent ?c ?t ?g0 = _ =>
        assert (Hany' : any (groups_ css (snd (with_exponent c t g0))) = false)
          by (rewrite H; assumption)
    end.
    apply any_exponent in Hany'. rewrite Hany' in H. congruence.
Qed.

(** the digits of a match without groups *)
Lemma number_scan_digits css pos q g :
  number_scan css pos = Some (q, g) -> any (groups_ css g) = false ->
  exists c, css !! pos = Some c
    /\ q = after_sign css pos + digits_from css (after_sign css pos)
    /\ 1 <= digits_from css (after_sign css pos).
Proof.
  unfold number_scan, after_sign, startswith_any. intros H Hany.
  destruct (css !! pos) as [c|] eqn:Hc.
  - exists c. split; [reflexivity|].
    destruct (mem c (lit "-+")); exact (number_body_int _ _ _ _ H Hany).
  - destruct (number_body_int _ _ _ _ H Hany) as [-> Hd].
    rewrite digits_from_end in Hd by assumption. lia.
Qed.

Lemma int10_signed css pos q :
  let p := after_sign css pos in
  q = p + digits_from css p -> 1 <= digits_from css p ->
  forall c, css !! pos = Some c ->
  int10 (slice css pos q)
  = if startswith_any (lit "-+") css pos
    then if (c =? 45)%Z
         then let* n := int10_digits (slice css p q) in Ok (- n)%Z
         else int10_digits (slice css p q)
    else int10_digits (slice css p q).
Proof.
  cbv zeta. unfold after_sign, startswith_any. intros Hq Hd c Hc.
  rewrite Hc in Hq, Hd |- *.
  destruct (mem c (lit "-+")) eqn:Hm; subst q.
  - rewrite (slice_nonempty css pos _ c) by (auto; lia).
    mem_cases Hm; reflexivity.
  - destruct (digits_text css pos Hd) as [Hne Hall].
    rewrite (slice_nonempty css pos _ c) in * by (auto; lia).
    inversion Hall as [|? ? Hcd _]; subst.
    unfold int10.
    replace (c =? 45)%Z with false by (mem_cases Hcd; reflexivity).
    replace (c =? 43)%Z with false by (mem_cases Hcd; reflexivity).
    reflexivity.
Qed.

(** [int] of a match without groups returns, unless the digits are more
    than it converts *)
Lemma number_scan_int css pos q g :
  number_scan css pos = Some (q, g) -> any (groups_ css g) = false ->
  if int_max_str_digits <? q - after_sign css pos
  then int10 (slice css pos q) = Raise ValueError
  else exists n, int10 (slice css pos q) = Ok n.
Proof.
  intros H Hany.
  destruct (number_scan_digits css pos q g H Hany) as (c & Hc & Hq & Hd).
  rewrite (int10_signed css pos q Hq Hd c Hc).
  destruct (digits_text css (after_sign css pos) Hd) as [Hne Hall].
  rewrite <- Hq in Hne, Hall.
  pose proof (int10_digits_ok _ Hne Hall) as Hi.
  assert (Hlen : length (slice css (after_sign css pos) q)
                 = q - after_sign css pos).
  { subst q. rewrite EscapeProps.slice_add, length_take.
    pose proof (span_le_length DIGITS None (drop (after_sign css pos) css)).
    unfold digits_from in *. lia. }
  rewrite Hlen in Hi.
  destruct (int_max_str_digits <? q - after_sign css pos).
  - rewrite Hi. destruct (startswith_any (lit "-+") css pos); [|reflexivity].
    destruct (c =? 45)%Z; reflexivity.
  - destruct Hi as (v & ->).
    destruct (startswith_any (lit "-+") css pos); [|eauto].
    destruct (c =? 45)%Z; cbn [bind]; eauto.
Qed.

(** no number starts at a character other than a sign, a digit or a point *)
Lemma number_scan_none css pos c :
  css !! pos = Some c -> mem c (lit "-+.0123456789") = false ->
  number_scan css pos = None.
Proof.
  intros Hc Hm. unfold number_scan, startswith_any. rewrite Hc.
  assert (Hs : mem c (lit "-+") = false).
  { destruct (mem c (lit "-+")) eqn:E; [|reflexivity].
    mem_cases E; discriminate Hm. }
  assert (Hd : mem c DIGITS = false).
  { destruct (mem c DIGITS) eqn:E; [|reflexivity].
    mem_cases E; discriminate Hm. }
  assert (Hp : mem c (lit ".") = false).
  { destruct (mem c (lit ".")) eqn:E; [|reflexivity].
    mem_cases E; discriminate Hm. }
  rewrite Hs. unfold number_body. cbv zeta.
  rewrite (digits_from_not_digit css pos c) by assumption.
  rewrite Nat.add_0_r. unfold startswith_any. rewrite Hc, Hp. reflexivity.
Qed.

End NumberScan.

(** ** [_consume_quoted_string] *)

Module StringFacts.
Import EscapeProps IdentFacts.

Lemma _consume_quoted_string_loop_ok fuel :
  forall css quote chunks start_pos pos,
    length css <= fuel + pos ->
    exists v pos' e,
      _consume_quoted_string_loop fuel css quote chunks start_pos pos
      = Ok (v, pos', e) /\ pos <= pos'.
Proof.
  induction fuel as [|fuel IH]; intros css quote chunks start_pos pos Hf.
  - simpl. destruct (pos <? length css) eqn:E.
    + apply Nat.ltb_lt in E. lia.
    + eauto 6.
  - simpl. destruct (pos <? length css) eqn:E; [|eauto 6].
    apply Nat.ltb_lt in E. destruct (idx_lt css pos E) as (c & Hc & ->).
    cbn [bind]. destruct (c =? quote)%Z.
    { eexists _, _, _. split; [reflexivity|lia]. }
    destruct (c =? BACKSLASH)%Z.
    { destruct (pos + 1 <? length css) eqn:E1.
      - apply Nat.ltb_lt in E1.
        destruct (idx_lt css (pos + 1) E1) as (c1 & Hc1 & ->). cbn [bind].
        destruct (c1 =? LF)%Z.
        + destruct (IH css quote (chunks ++ [slice css start_pos pos])
                      (pos + 1 + 1) (pos + 1 + 1)) as (v & p & e & -> & Hp);
            [lia|].
          eexists _, _, _. split; [reflexivity|lia].
        + destruct (_consume_escape_ok css (pos + 1)) as (x & p1 & -> & Hp1 & _).
          cbn [bind].
          destruct (IH css quote ((chunks ++ [slice css start_pos pos]) ++ [[x]])
                      p1 p1) as (v & p & e & -> & Hp); [lia|].
          eexists _, _, _. split; [reflexivity|lia].
      - destruct (IH css quote (chunks ++ [slice css start_pos pos])
                    (pos + 1) (pos + 1)) as (v & p & e & -> & Hp); [lia|].
        eexists _, _, _. split; [reflexivity|lia]. }
    destruct (c =? LF)%Z.
    { eexists _, _, _. split; [reflexivity|lia]. }
    destruct (IH css quote chunks start_pos (pos + 1)) as (v & p & e & -> & Hp);
      [lia|].
    eexists _, _, _. split; [reflexivity|lia].
Qed.

(** the errors of a quoted string *)
Lemma _consume_quoted_string_loop_errors fuel :
  forall css quote chunks start_pos pos v p e,
    _consume_quoted_string_loop fuel css quote chunks start_pos pos
    = Ok (v, p, Some e) ->
    e = bad_string \/ e = eof_in_string.
Proof.
  induction fuel as [|fuel IH]; intros css quote chunks start_pos pos v p e;
    cbn [_consume_quoted_string_loop].
  - destruct (pos <? length css); [discriminate|]. intros [= _ _ <-]. auto.
  - destruct (pos <? length css); [|intros [= _ _ <-]; auto].
    destruct (idx css pos) as [c| |]; cbn [bind]; try discriminate.
    destruct (c =? quote)%Z; [discriminate|].
    destruct (c =? BACKSLASH)%Z.
    { destruct (pos + 1 <? length css); [|apply IH].
      destruct (idx css (pos + 1)) as [c1| |]; cbn [bind]; try discriminate.
      destruct (c1 =? LF)%Z; [apply IH|].
      destruct (_consume_escape css (pos + 1)) as [[x p1]| |]; cbn [bind];
        try discriminate.
      apply IH. }
    destruct (c =? LF)%Z; [intros [= _ _ <-]; auto|]. apply IH.
Qed.

Lemma _consume_quoted_string_errors css pos v p e :
  _consume_quoted_string css pos = Ok (v, p, Some e) ->
  e = bad_string \/ e = eof_in_string.
Proof.
  unfold _consume_quoted_string.
  destruct (idx css pos) as [c| |]; cbn [bind]; try discriminate.
  destruct (assert _) as [[]| |]; cbn [bind]; try discriminate.
  apply _consume_quoted_string_loop_errors.
Qed.

(** at a quote, [_consume_quoted_string] returns and moves forward *)
Lemma _consume_quoted_string_ok css pos quote :
  css !! pos = Some quote -> mem quote [DQUOTE; SQUOTE] = true ->
  exists v pos' e, _consume_quoted_string css pos = Ok (v, pos', e) /\ pos < pos'.
Proof.
  intros Hq Hm. unfold _consume_quoted_string.
  rewrite (idx_eq _ _ _ Hq). cbn [bind]. rewrite Hm. cbn [assert bind].
  destruct (_consume_quoted_string_loop_ok (length css) css quote [] (pos + 1) (pos + 1))
    as (v & p & e & -> & Hp); [lia|].
  eexists _, _, _. split; [reflexivity|lia].
Qed.

Lemma string_body_le css quote i j : string_body css quote i j -> i <= j.
Proof.
  induction 1 as [| | |i j c x p Hi Hc Hn He Hb IH]; try lia.
  destruct (_consume_escape_ok css (i + 1)) as (x' & p' & He' & Hp & _).
  rewrite He in He'. injection He' as -> ->. lia.
Qed.

(** a newline of its own in the body ends the string without a value,
    at the newline *)
Lemma _consume_quoted_string_loop_newline css quote i j :
  string_body css quote i j -> css !! j = Some LF ->
  quote <> LF -> quote <> BACKSLASH ->
  forall fuel chunks start_pos,
    length css <= fuel + i ->
    _consume_quoted_string_loop fuel css quote chunks start_pos i
    = Ok (None, j, Some bad_string).
Proof.
  intros Hb Hj Hq1 Hq2.
  induction Hb as [i|i j c Hc H1 H2 H3 Hb IH|i j Hc Hn Hb IH
                   |i j c x p Hc Hc1 Hn He Hb IH];
    intros fuel chunks start_pos Hf.
  - pose proof (lookup_lt_Some _ _ _ Hj) as Hlt.
    destruct fuel as [|fuel]; [lia|]. simpl.
    rewrite (ltb_lt_length _ _ _ Hj), (idx_eq _ _ _ Hj). cbn [bind].
    replace (LF =? quote)%Z with false by (symmetry; apply Z.eqb_neq; congruence).
    reflexivity.
  - pose proof (lookup_lt_Some _ _ _ Hc) as Hlt.
    destruct fuel as [|fuel]; [lia|]. simpl.
    rewrite (ltb_lt_length _ _ _ Hc), (idx_eq _ _ _ Hc). cbn [bind].
    rewrite (proj2 (Z.eqb_neq c quote)), (proj2 (Z.eqb_neq c BACKSLASH)),
      (proj2 (Z.eqb_neq c LF)) by assumption.
    apply IH; [assumption|lia].
  - pose proof (lookup_lt_Some _ _ _ Hc) as Hlt.
    destruct fuel as [|fuel]; [lia|]. simpl.
    rewrite (ltb_lt_length _ _ _ Hc), (idx_eq _ _ _ Hc). cbn [bind].
    rewrite (proj2 (Z.eqb_neq BACKSLASH quote)) by congruence.
    rewrite Z.eqb_refl, (ltb_lt_length _ _ _ Hn), (idx_eq _ _ _ Hn). cbn [bind].
    rewrite Z.eqb_refl. apply IH; [assumption|lia].
  - pose proof (lookup_lt_Some _ _ _ Hc) as Hlt.
    destruct fuel as [|fuel]; [lia|]. simpl.
    rewrite (ltb_lt_length _ _ _ Hc), (idx_eq _ _ _ Hc). cbn [bind].
    rewrite (proj2 (Z.eqb_neq BACKSLASH quote)) by congruence.
    rewrite Z.eqb_refl, (ltb_lt_length _ _ _ Hc1), (idx_eq _ _ _ Hc1). cbn [bind].
    rewrite (proj2 (Z.eqb_neq c LF)) by assumption. rewrite He. cbn [bind].
    apply IH; [assumption|].
    destruct (_consume_escape_ok css (i + 1)) as (x' & p' & He' & Hp & _).
    rewrite He in He'. injection He' as -> ->. lia.
Qed.

Lemma _consume_quoted_string_newline css pos quote j :
  css !! pos = Some quote -> mem quote [DQUOTE; SQUOTE] = true ->
  string_body css quote (pos + 1) j -> css !! j = Some LF ->
  _consume_quoted_string css pos = Ok (None, j, Some bad_string).
Proof.
  intros Hq Hm Hb Hj. unfold _consume_quoted_string.
  rewrite (idx_eq _ _ _ Hq). cbn [bind]. rewrite Hm. cbn [assert bind].
  apply _consume_quoted_string_loop_newline; try assumption; try lia;
    mem_cases Hm; discriminate.
Qed.

End StringFacts.

(** ** [_consume_url] *)

Module UrlFacts.
Import EscapeProps IdentFacts StringFacts.

Lemma _consume_url_loop_ok fuel : forall css chunks start_pos pos,
  length css - pos < fuel ->
  exists e, _consume_url_loop fuel css chunks start_pos pos None = Ok e
    /\ match e with
       | UrlReturn (v, p, err) => pos <= p /\ unquoted_result (v, p, err) /\ v <> None
       | UrlBreak _ p => pos <= p
       end.
Proof.
  induction fuel as [|fuel IH]; intros css chunks start_pos pos Hf; [lia|].
  cbn [_consume_url_loop]. destruct (length css <=? pos) eqn:E.
  { eexists. split; [reflexivity|]. simpl. repeat split; [lia|discriminate]. }
  apply Nat.leb_gt in E. destruct (idx_lt css pos E) as (c & Hc & ->).
  cbn [bind]. destruct (c =? ch ")")%Z.
  { eexists. split; [reflexivity|]. simpl. repeat split; [lia|discriminate]. }
  destruct (mem c WS).
  { eexists. split; [reflexivity|]. simpl. lia. }
  destruct (_ && _).
  { destruct (_consume_escape_ok css (pos + 1)) as (x & p1 & -> & Hp1 & _).
    cbn [bind].
    destruct (IH css ((chunks ++ [slice css start_pos pos]) ++ [[x]]) p1 p1)
      as (e & -> & He); [lia|].
    exists e. split; [reflexivity|].
    destruct e as [[[v p] err]|v p]; [destruct He as (? & ? & ?)|];
      repeat split; auto; lia. }
  destruct (mem c URL_ERROR_CHARS).
  { eexists. split; [reflexivity|]. simpl. lia. }
  destruct (IH css chunks start_pos (pos + 1)) as (e & -> & He); [lia|].
  exists e. split; [reflexivity|].
  destruct e as [[[v p] err]|v p]; [destruct He as (? & ? & ?)|];
    repeat split; auto; lia.
Qed.

Lemma _consume_url_remnants_ok fuel : forall css pos,
  length css <= fuel + pos ->
  exists p, _consume_url_remnants fuel css pos = Ok p /\ pos <= p.
Proof.
  induction fuel as [|fuel IH]; intros css pos Hf; simpl.
  - destruct (pos <? length css) eqn:E; [apply Nat.ltb_lt in E; lia|eauto].
  - destruct (pos <? length css) eqn:E; [|eauto].
    apply Nat.ltb_lt in E. destruct (startswith _ css pos).
    + destruct (IH css (pos + 2)) as (p & -> & Hp); [lia|].
      exists p. split; [reflexivity|lia].
    + destruct (idx_lt css pos E) as (c & Hc & ->). cbn [bind].
      destruct (c =? ch ")")%Z.
      * eexists. split; [reflexivity|lia].
      * destruct (IH css (pos + 1)) as (p & -> & Hp); [lia|].
        exists p. split; [reflexivity|lia].
Qed.

Lemma _consume_url_end_ok css value pos :
  exists r, _consume_url_end css value pos None = Ok r
            /\ pos <= snd (fst r) /\ unquoted_result r.
Proof.
  unfold _consume_url_end.
  assert (Hbad : forall q, pos <= q ->
    exists r, (let* pos := _consume_url_remnants (length css) css q in
               Ok (None, pos, Some bad_url)) = Ok r
              /\ pos <= snd (fst r) /\ unquoted_result r).
  { intros q Hq. destruct (_consume_url_remnants_ok (length css) css q)
      as (p & -> & Hp); [lia|].
    cbn [bind]. eexists. split; [reflexivity|]. simpl. split; [lia|reflexivity]. }
  destruct value as [v|]; [|cbn [bind]; apply Hbad; lia].
  pose proof (skip_ws_ge css pos) as Hs.
  destruct (skip_ws css pos <? length css) eqn:E.
  - apply Nat.ltb_lt in E. destruct (idx_lt css _ E) as (c & Hc & ->).
    cbn [bind]. destruct (c =? ch ")")%Z; cbn [bind].
    + eexists. split; [reflexivity|]. simpl. split; [lia|exact I].
    + apply Hbad. assumption.
  - cbn [bind]. eexists. split; [reflexivity|]. simpl. split; [lia|reflexivity].
Qed.

Lemma _consume_url_unquoted css pos :
  unquoted css pos ->
  exists r, _consume_url css pos = Ok r
            /\ pos <= snd (fst r) /\ unquoted_result r.
Proof.
  unfold unquoted, _consume_url. intros Hu.
  pose proof (skip_ws_ge css pos) as Hs.
  destruct (length css <=? skip_ws css pos) eqn:E.
  { eexists. split; [reflexivity|]. simpl. split; [lia|reflexivity]. }
  apply Nat.leb_gt in E. destruct (idx_lt css _ E) as (c & Hc & ->).
  rewrite Hc in Hu. cbn [bind]. rewrite Hu.
  destruct (c =? ch ")")%Z.
  { eexists. split; [reflexivity|]. simpl. split; [lia|exact I]. }
  destruct (_consume_url_loop_ok (S (length css)) css [] (skip_ws css pos)
              (skip_ws css pos)) as (e & -> & He); [lia|].
  cbn [bind]. destruct e as [[[v p] err]|v p].
  - destruct He as (Hp & Hr & _). eexists. split; [reflexivity|].
    simpl. split; [lia|assumption].
  - destruct (_consume_url_end_ok css v p) as (r & -> & Hp & Hr).
    exists r. split; [reflexivity|]. split; [lia|assumption].
Qed.

End UrlFacts.

(** ** [_consume_unicode_range] *)

Module RangeFacts.
Import IdentFacts.

Lemma hex_HEXDIGITS c : mem c HEX = true -> mem c HEXDIGITS = true.
Proof. intros H. mem_cases H; reflexivity. Qed.

Lemma slice_skip_in chars css pos max_pos :
  let p := skip_in chars (slice css pos max_pos) pos in
  pos <= p /\ p <= Nat.max pos max_pos /\
  (pos <= length css -> p <= length css) /\
  Forall (fun c => mem c chars = true) (slice css pos p).
Proof.
  cbv zeta.
  pose proof (skip_in_ge chars (slice css pos max_pos) pos) as Hge.
  pose proof (skip_in_le chars (slice css pos max_pos) pos) as Hle.
  pose proof (skip_in_take chars (slice css pos max_pos) pos) as Hall.
  assert (Hlen : length (slice css pos max_pos) <= max_pos - pos)
    by (unfold slice; rewrite length_take; lia).
  assert (Hlen2 : length (slice css pos max_pos) <= length css - pos)
    by (unfold slice; rewrite length_take, length_drop; lia).
  split; [lia|]. split; [lia|]. split; [lia|].
  unfold slice in *. rewrite take_take in Hall.
  replace (Nat.min _ _) with (skip_in chars (take (max_pos - pos) (drop pos css)) pos - pos)
    in Hall by lia.
  assumption.
Qed.

Lemma Forall_replicate_hex n c s :
  mem c HEXDIGITS = true ->
  Forall (fun c => mem c HEXDIGITS = true) s ->
  Forall (fun c => mem c HEXDIGITS = true) (s ++ replicate n c).
Proof.
  intros Hc Hs. apply Forall_app. split; [assumption|].
  apply Forall_replicate. assumption.
Qed.

(** after [U+] and a hex digit or a question mark, the range is read
    without error *)
Lemma _consume_unicode_range_ok css pos c :
  css !! pos = Some c -> mem c (lit "0123456789abcdefABCDEF?") = true ->
  exists s e p, _consume_unicode_range css pos = Ok (s, e, p) /\ pos <= p.
Proof.
  intros Hc Hm. unfold _consume_unicode_range. fold HEX. cbv zeta.
  pose proof (lookup_lt_Some _ _ _ Hc) as Hlt.
  set (max_pos := Nat.min (pos + 6) (length css)).
  destruct (slice_skip_in HEX css pos max_pos) as (H1 & H2 & H3 & H4).
  specialize (H3 ltac:(lia)).
  set (p1 := skip_in HEX (slice css pos max_pos) pos) in *.
  destruct (slice_skip_in [ch "?"] css p1 max_pos) as (Q1 & Q2 & Q3 & Q4).
  specialize (Q3 H3).
  set (p2 := skip_in [ch "?"] (slice css p1 max_pos) p1) in *.
  assert (Hhex : Forall (fun c => mem c HEXDIGITS = true) (slice css pos p1)).
  { eapply Forall_impl; [exact H4|]. intros x. apply hex_HEXDIGITS. }
  assert (Hstart : p1 = pos -> pos < p2).
  { intros Heq. unfold p2. rewrite Heq.
    assert (Hnh : mem c HEX = false).
    { destruct (mem c HEX) eqn:Eh; [|reflexivity]. exfalso.
      assert (pos < p1); [|lia]. unfold p1.
      rewrite (NumberScan.slice_nonempty css pos max_pos c) by (auto; lia).
      apply skip_in_first. assumption. }
    assert (Hq : mem c [ch "?"] = true).
    { mem_cases Hm; try discriminate Hnh. reflexivity. }
    rewrite (NumberScan.slice_nonempty css pos max_pos c) by (auto; lia).
    apply skip_in_first. assumption. }
  destruct (p2 - p1 =? 0) eqn:E0; cbn [negb].
  - apply Nat.eqb_eq in E0.
    assert (Hp : pos < p1) by (destruct (Nat.eq_dec p1 pos); [specialize (Hstart e); lia|lia]).
    destruct (int16_hex (slice css pos p1)) as (s & Hs & _); [|assumption|].
    { intros He. apply (f_equal length) in He.
      rewrite slice_length in He by lia. cbn [length] in He. lia. }
    assert (Hdash : exists b,
      (if p2 + 1 <? length css
       then let* c0 := idx css p2 in
            if (c0 =? ch "-")%Z
            then let* d := idx css (p2 + 1) in Ok (mem d HEX)
            else Ok false
       else Ok false) = Ok b
      /\ (b = true -> p2 + 1 < length css
                      /\ exists d, css !! (p2 + 1) = Some d /\ mem d HEX = true)).
    { destruct (p2 + 1 <? length css) eqn:E1; [|eexists; split; [reflexivity|discriminate]].
      apply Nat.ltb_lt in E1.
      destruct (idx_lt css p2 ltac:(lia)) as (c0 & _ & ->). cbn [bind].
      destruct (c0 =? ch "-")%Z; [|eexists; split; [reflexivity|discriminate]].
      destruct (idx_lt css (p2 + 1) E1) as (d & Hd & ->). cbn [bind].
      eexists. split; [reflexivity|]. intros Hb. split; [assumption|eauto]. }
    destruct Hdash as (b & -> & Hb). cbn [bind]. destruct b.
    + destruct (Hb eq_refl) as (Hl & d & Hd & Hdm).
      set (max2 := Nat.min (p2 + 1 + 6) (length css)).
      destruct (slice_skip_in HEX css (p2 + 1) max2) as (R1 & R2 & R3 & R4).
      specialize (R3 ltac:(lia)).
      set (p3 := skip_in HEX (slice css (p2 + 1) max2) (p2 + 1)) in *.
      assert (Hp3 : p2 + 1 < p3).
      { unfold p3. rewrite (NumberScan.slice_nonempty css (p2 + 1) max2 d) by (auto; lia).
        apply skip_in_first. assumption. }
      destruct (int16_hex (slice css (p2 + 1) p3)) as (e & He & _).
      { intros Hx. apply (f_equal length) in Hx.
        rewrite slice_length in Hx by lia. cbn [length] in Hx. lia. }
      { eapply Forall_impl; [exact R4|]. intros x. apply hex_HEXDIGITS. }
      rewrite Hs. cbn [bind]. rewrite He. cbn [bind].
      eexists _, _, _. split; [reflexivity|lia].
    + rewrite Hs. cbn [bind]. eexists _, _, _. split; [reflexivity|lia].
  - apply Nat.eqb_neq in E0.
    destruct (int16_hex (slice css pos p1 ++ replicate (p2 - p1) (ch "0")))
      as (s & -> & _).
    { intros He. apply (f_equal length) in He.
      rewrite length_app, length_replicate in He. cbn [length] in He. lia. }
    { apply Forall_replicate_hex; [reflexivity|assumption]. }
    destruct (int16_hex (slice css pos p1 ++ replicate (p2 - p1) (ch "F")))
      as (e & -> & _).
    { intros He. apply (f_equal length) in He.
      rewrite length_app, length_replicate in He. cbn [length] in He. lia. }
    { apply Forall_replicate_hex; [reflexivity|assumption]. }
    cbn [bind]. eexists _, _, _. split; [reflexivity|lia].
Qed.

End RangeFacts.

(** ** One iteration of the main loop *)

Lemma find_in_ge needle rest i j : find_in needle rest i = Some j -> i <= j.
Proof.
  revert i. induction rest as [|c rest IH]; intros i; simpl; [discriminate|].
  destruct (is_prefix needle (c :: rest)).
  - intros [= <-]. lia.
  - intros H. apply IH in H. lia.
Qed.

Lemma find_ge needle css start j : find needle css start = Some j -> start <= j.
Proof. apply find_in_ge. Qed.

Section DispatchFacts.
Import IdentFacts StringFacts UrlFacts RangeFacts NumberFacts NumberScan.

Variable serialize_string_value : str -> str.
Variable serialize_url : str -> str.

Lemma url_tokens_ok line column value p error_ :
  unquoted_result (value, p, error_) ->
  exists ts, url_tokens serialize_url line column value error_ = Ok ts.
Proof.
  unfold unquoted_result, url_tokens. intros H.
  destruct value as [v|], error_ as [[k m]|]; cbn [bind]; eauto.
  injection H as -> ->.
  change (eqb_str (lit "eof-in-url") (lit "eof-in-string")) with false.
  change (eqb_str (lit "eof-in-url") (lit "eof-in-url")) with true.
  cbn [assert bind]. eauto.
Qed.

(** the test [pos < length and _is_ident_start(css, pos)] *)
Lemma ident_follows_ok css pos :
  exists b, (if pos <? length css then _is_ident_start css pos else Ok false) = Ok b.
Proof.
  destruct (pos <? length css) eqn:E; [|eauto].
  apply Nat.ltb_lt in E. destruct (idx_lt css pos E) as (c & Hc & _).
  destruct (_is_ident_start_ok css pos c Hc) as (b & -> & _). eauto.
Qed.

Lemma dispatch_rest_ok css skip_comments end_char line column pos c :
  css !! pos = Some c ->
  (exists a,
     dispatch_rest serialize_string_value css skip_comments end_char line column pos c
     = Ok a /\ progress end_char pos a)
  \/ (dispatch_rest serialize_string_value css skip_comments end_char line column pos c
      = Raise ValueError /\ long_integer css pos).
Proof.
  intros Hc. pose proof (lookup_lt_Some _ _ _ Hc) as Hlt.
  unfold dispatch_rest. rewrite _NUMBER_RE_scan. cbv zeta.
  destruct (number_scan css pos) as [[q g]|] eqn:Hn.
  { pose proof (number_scan_gt _ _ _ _ Hn) as Hq.
    assert (Hint :
      (exists iv,
         (if negb (any (groups_ css g))
          then let* n := int10 (slice css pos q) in Ok (Some n)
          else Ok None) = Ok iv)
      \/ ((if negb (any (groups_ css g))
           then let* n := int10 (slice css pos q) in Ok (Some n)
           else Ok None) = Raise ValueError
          /\ long_integer css pos)).
    { destruct (any (groups_ css g)) eqn:Ha; cbn [negb]; [eauto|].
      pose proof (number_scan_int _ _ _ _ Hn Ha) as Hi.
      destruct (int_max_str_digits <? q - after_sign css pos) eqn:El.
      - right. rewrite Hi. split; [reflexivity|]. exists q, g.
        rewrite _NUMBER_RE_scan. apply Nat.ltb_lt in El. auto.
      - destruct Hi as (n & ->). cbn [bind]. eauto. }
    destruct Hint as [(iv & ->)|[-> Hlong]]; cbn [bind]; [|right; auto].
    destruct (ident_follows_ok css q) as (b & ->). cbn [bind].
    destruct b.
    - destruct (_consume_ident_ok css q) as (u & p & -> & Hp). cbn [bind].
      left; eexists. split; [reflexivity|]. simpl. lia.
    - destruct (startswith (lit "%") css q);
        (left; eexists; split; [reflexivity|]; simpl; lia). }
  destruct (c =? ch "@")%Z.
  { destruct (ident_follows_ok css (pos + 1)) as (b & ->). cbn [bind].
    destruct b.
    - destruct (_consume_ident_ok css (pos + 1)) as (u & p & -> & Hp). cbn [bind].
      left; eexists. split; [reflexivity|]. simpl. lia.
    - left; eexists. split; [reflexivity|]. simpl. lia. }
  destruct (c =? ch "#")%Z.
  { destruct (pos + 1 <? length css) eqn:E.
    - apply Nat.ltb_lt in E. destruct (idx_lt css (pos + 1) E) as (c1 & Hc1 & ->).
      cbn [bind].
      destruct (_ || _ || _).
      + destruct (_is_ident_start_ok css (pos + 1) c1 Hc1) as (b & -> & _).
        cbn [bind].
        destruct (_consume_ident_ok css (pos + 1)) as (u & p & -> & Hp).
        cbn [bind]. left; eexists. split; [reflexivity|]. simpl. lia.
      + left; eexists. split; [reflexivity|]. simpl. lia.
    - cbn [bind]. left; eexists. split; [reflexivity|]. simpl. lia. }
  destruct (c =? ch "{")%Z; [left; eexists; split; [reflexivity|]; simpl; lia|].
  destruct (c =? ch "[")%Z; [left; eexists; split; [reflexivity|]; simpl; lia|].
  destruct (c =? ch "(")%Z; [left; eexists; split; [reflexivity|]; simpl; lia|].
  destruct (match end_char with Some e => (c =? e)%Z | None => false end) eqn:Ee.
  { left; eexists; split; [reflexivity|]; simpl. split; [lia|].
    destruct end_char; [discriminate|discriminate]. }
  destruct (mem c (lit "}])")); [left; eexists; split; [reflexivity|]; simpl; lia|].
  destruct (mem c [DQUOTE; SQUOTE]) eqn:Hq.
  { destruct (_consume_quoted_string_ok css pos c Hc Hq) as (v & p & e & -> & Hp).
    cbn [bind]. left; eexists; split; [reflexivity|]; simpl; lia. }
  destruct (startswith (lit "/*") css pos).
  { destruct (find (lit "*/") css (pos + 2)) as [p|] eqn:Hf.
    - apply find_ge in Hf. left; eexists; split; [reflexivity|]; simpl; lia.
    - left; eexists; split; [reflexivity|]; exact I. }
  destruct (startswith (lit "<!--") css pos);
    [left; eexists; split; [reflexivity|]; simpl; lia|].
  destruct (startswith (lit "||") css pos);
    [left; eexists; split; [reflexivity|]; simpl; lia|].
  destruct (mem c (lit "~|^$*")).
  { destruct (startswith (lit "=") css (pos + 1));
      left; eexists; split; try reflexivity; simpl; lia. }
  left; eexists; split; [reflexivity|]; simpl; lia.
Qed.

(** every iteration that starts inside the input computes an action,
    without raising, and moves forward *)
Lemma dispatch_ok css skip_comments end_char line column pos c :
  css !! pos = Some c ->
  (exists a,
     dispatch serialize_string_value serialize_url css skip_comments end_char
       line column pos c = Ok a
     /\ progress end_char pos a)
  \/ (exists e,
       dispatch serialize_string_value serialize_url css skip_comments end_char
         line column pos c = Raise e
       /\ raise_cause css pos e).
Proof.
  intros Hc. pose proof (lookup_lt_Some _ _ _ Hc) as Hlt.
  unfold dispatch. cbv zeta.
  destruct (mem c WS).
  { left. eexists. split; [reflexivity|]. simpl.
    pose proof (skip_ws_ge css (pos + 1)). lia. }
  assert (Hrange : exists b,
    (if mem c (lit "Uu") && (pos + 2 <? length css)
     then let* c1 := idx css (pos + 1) in
          if (c1 =? ch "+")%Z
          then let* c2 := idx css (pos + 2) in
               Ok (mem c2 (lit "0123456789abcdefABCDEF?"))
          else Ok false
     else Ok false) = Ok b
    /\ (b = true -> exists c2, css !! (pos + 2) = Some c2
                     /\ mem c2 (lit "0123456789abcdefABCDEF?") = true)).
  { destruct (mem c (lit "Uu")); cbn [andb];
      [|eexists; split; [reflexivity|discriminate]].
    destruct (pos + 2 <? length css) eqn:E;
      [|eexists; split; [reflexivity|discriminate]].
    apply Nat.ltb_lt in E.
    destruct (idx_lt css (pos + 1) ltac:(lia)) as (c1 & _ & ->). cbn [bind].
    destruct (c1 =? ch "+")%Z; [|eexists; split; [reflexivity|discriminate]].
    destruct (idx_lt css (pos + 2) E) as (c2 & Hc2 & ->). cbn [bind].
    eexists. split; [reflexivity|]. eauto. }
  destruct Hrange as (b & -> & Hb). cbn [bind]. destruct b.
  { destruct (Hb eq_refl) as (c2 & Hc2 & Hm).
    destruct (_consume_unicode_range_ok css (pos + 2) c2 Hc2 Hm)
      as (s & e & p & -> & Hp).
    cbn [bind]. left. eexists. split; [reflexivity|]. simpl. lia. }
  destruct (startswith (lit "-->") css pos).
  { left. eexists. split; [reflexivity|]. simpl. lia. }
  destruct (_is_ident_start_ok css pos c Hc) as (b & Hstart & Hfirst).
  rewrite Hstart. cbn [bind].
  destruct b.
  2:{ destruct (dispatch_rest_ok css skip_comments end_char line column pos c Hc)
        as [H|[Hr Hl]]; [left; exact H|].
      right. exists ValueError. split; [exact Hr|]. right. auto. }
  destruct (_consume_ident_progress css pos c Hc (Hfirst eq_refl))
    as (v & p & Hident & Hp).
  rewrite Hident. cbn [bind].
  destruct (startswith (lit "(") css p) eqn:Eparen; cbn [negb].
  2:{ left. eexists. split; [reflexivity|]. simpl. lia. }
  unfold ascii_lower. destruct (existsb surrogate v) eqn:Esur; cbn [bind].
  { right. exists UnicodeEncodeError. split; [reflexivity|]. left.
    split; [reflexivity|]. exists v, p. auto. }
  set (lower := map (fun c0 : Z => if (65 <=? c0)%Z && (c0 <=? 90)%Z
                                   then (c0 + 32)%Z else c0) v).
  assert (Hurl : exists b,
    (if eqb_str lower (lit "url")
     then if length css <=? skip_ws css (p + 1) then Ok true
          else let* q := idx css (skip_ws css (p + 1)) in
               Ok (negb (mem q [DQUOTE; SQUOTE]))
     else Ok false) = Ok b
    /\ (b = true -> unquoted css (p + 1))).
  { destruct (eqb_str _ _); [|eexists; split; [reflexivity|discriminate]].
    unfold unquoted.
    destruct (length css <=? skip_ws css (p + 1)) eqn:E.
    - eexists. split; [reflexivity|]. intros _.
      apply Nat.leb_le in E. apply lookup_ge_None in E. rewrite E. exact I.
    - apply Nat.leb_gt in E. destruct (idx_lt css _ E) as (q & Hq & ->).
      cbn [bind]. eexists. split; [reflexivity|]. rewrite Hq.
      intros H. apply negb_true_iff. assumption. }
  destruct Hurl as (b & -> & Hu). cbn [bind]. left. destruct b.
  - destruct (_consume_url_unquoted css (p + 1) (Hu eq_refl))
      as ([[value p'] err] & -> & Hp' & Hr).
    cbn [bind]. destruct (url_tokens_ok line column value p' err Hr) as (ts & ->).
    cbn [bind]. eexists. split; [reflexivity|]. simpl in *. lia.
  - eexists. split; [reflexivity|]. simpl. lia.
Qed.

Lemma dispatch_progress css skip_comments end_char line column pos c a :
  css !! pos = Some c ->
  dispatch serialize_string_value serialize_url css skip_comments end_char
    line column pos c = Ok a ->
  progress end_char pos a.
Proof.
  intros Hc Hd.
  destruct (dispatch_ok css skip_comments end_char line column pos c Hc)
    as [(a' & Ha' & Hprog)|(e & He & _)]; rewrite Hd in *; [|discriminate He].
  injection Ha' as <-. assumption.
Qed.

End DispatchFacts.

(** ** The loop *)

Section LoopFacts.

Variable serialize_string_value : str -> str.
Variable serialize_url : str -> str.
Variable css : str.
Variable skip_comments : bool.

#[local] Abbreviation iteration_ := (iteration serialize_string_value serialize_url css skip_comments).
#[local] Abbreviation loop_ := (fun fuel => loop serialize_string_value serialize_url fuel css skip_comments).

Lemma perform_ok a s :
  progress s.(end_char) s.(pos) a -> stack_ok s.(stack) s.(end_char) ->
  exists r, perform a s = Ok r
    /\ match r with
       | inl s' => s.(pos) < s'.(pos) /\ stack_ok s'.(stack) s'.(end_char)
       | inr _ => True
       end.
Proof.
  intros Hp Hs. destruct a as [ts p|b e p|p|ts]; simpl in *.
  - eexists. split; [reflexivity|]. simpl. auto.
  - eexists. split; [reflexivity|]. simpl. auto.
  - destruct Hp as [Hp He]. destruct (stack s) as [|[t e] rest].
    + simpl in Hs. contradiction.
    + eexists. split; [reflexivity|]. simpl. auto.
  - eexists. split; [reflexivity|]. exact I.
Qed.

Lemma iteration_ok s :
  s.(pos) < length css -> stack_ok s.(stack) s.(end_char) ->
  (exists r, iteration_ s = Ok r
     /\ match r with
        | inl s' => s.(pos) < s'.(pos) /\ stack_ok s'.(stack) s'.(end_char)
        | inr _ => True
        end)
  \/ (exists e, iteration_ s = Raise e /\ raise_cause css s.(pos) e).
Proof.
  intros Hlt Hs. unfold iteration.
  destruct (idx_lt css _ Hlt) as (c & Hc & Hi).
  destruct (rfind LF css (token_start_pos s) (pos s)) as [nl|];
    rewrite Hi; cbn [bind];
    match goal with
    | |- context [dispatch _ _ _ _ ?e ?l ?col ?p ?c] =>
        destruct (dispatch_ok serialize_string_value serialize_url css
                    skip_comments e l col p c Hc)
          as [(a & -> & Ha)|(x & -> & Hx)]
    end; cbn [bind]; try (right; exists x; split; [reflexivity|exact Hx]);
    left;
    match goal with
    | |- exists r, perform ?a ?st = Ok r /\ _ => exact (perform_ok a st Ha Hs)
    end.
Qed.

(** the loop ends: the input's length is fuel enough; it returns, or
    an iteration raises one of the two exceptions *)
Lemma loop_ok fuel : forall s,
  length css <= fuel + s.(pos) -> stack_ok s.(stack) s.(end_char) ->
  (exists f, loop_ fuel s = Ok f)
  \/ (exists e p, loop_ fuel s = Raise e /\ p < length css
                  /\ raise_cause css p e).
Proof.
  induction fuel as [|fuel IH]; intros s Hf Hs; simpl.
  - destruct (pos s <? length css) eqn:E; [apply Nat.ltb_lt in E; lia|eauto].
  - destruct (pos s <? length css) eqn:E; [|eauto].
    apply Nat.ltb_lt in E.
    destruct (iteration_ok s E Hs) as [(r & -> & Hr)|(e & -> & He)];
      cbn [bind]; [|right; eauto].
    destruct r as [s'|s']; [|eauto].
    destruct Hr as [Hp Hs']. apply IH; [lia|assumption].
Qed.

(** a property that every iteration keeps holds when the loop is left *)
Lemma loop_invariant (P : state -> Prop) (Q : final_state -> Prop) :
  (forall s, P s -> Q (leave s)) ->
  (forall s r, P s -> s.(pos) < length css -> iteration_ s = Ok r ->
               match r with inl s' => P s' | inr f => Q f end) ->
  forall fuel s f, P s -> loop_ fuel s = Ok f -> Q f.
Proof.
  intros Hleave Hstep. induction fuel as [|fuel IH]; intros s f HP; simpl.
  - destruct (pos s <? length css); [discriminate|]. intros [= <-]. auto.
  - destruct (pos s <? length css) eqn:E; [|intros [= <-]; auto].
    apply Nat.ltb_lt in E.
    destruct (iteration_ s) as [r| |] eqn:Hi; cbn [bind]; try discriminate.
    specialize (Hstep s r HP E Hi). destruct r as [s1|f1].
    + apply IH. assumption.
    + intros [= <-]. assumption.
Qed.

End LoopFacts.

Lemma run_ok serialize_string_value serialize_url css skip_comments :
  (exists f, run serialize_string_value serialize_url css skip_comments = Ok f)
  \/ (exists e p,
       run serialize_string_value serialize_url css skip_comments = Raise e
       /\ p < length (preprocess css)
       /\ raise_cause (preprocess css) p e).
Proof.
  unfold run. apply loop_ok; simpl; [lia|reflexivity].
Qed.

(** what holds of the list read back from the variables of every run
    that returns holds of the outcome of the call *)
Lemma parse_returns serialize_string_value serialize_url css skip_comments
    (P : list token -> Prop) :
  (forall f,
     run serialize_string_value serialize_url css skip_comments = Ok f ->
     P (readback (length f.(final_objects)) f.(final_objects) root)) ->
  returns css P
    (parse_component_value_list serialize_string_value serialize_url css
       skip_comments).
Proof.
  intros HP. unfold parse_component_value_list.
  destruct (run_ok serialize_string_value serialize_url css skip_comments)
    as [(f & Hf)|(e & p & He & Hp & Hc)].
  - rewrite Hf. cbn [bind returns]. apply HP. assumption.
  - rewrite He. cbn [bind returns]. eauto.
Qed.

(** ** Unicode ranges: the budget of six characters *)

Module RangeBudget.
Import ReFacts SpanFacts RangeFacts.

(** the loop over at most [n] characters is the longest run, at most [n] *)
Lemma skip_in_span chars rest : forall n pos,
  skip_in chars (take n rest) pos = pos + span chars (Some n) rest.
Proof.
  induction rest as [|c rest IH]; intros n pos.
  - rewrite take_nil. simpl. destruct n; simpl; lia.
  - destruct n as [|n]; simpl; [lia|].
    destruct (mem c chars); [|lia]. rewrite IH. lia.
Qed.

Lemma span_cap chars rest : forall n m,
  length rest <= m -> span chars (Some (Nat.min n m)) rest = span chars (Some n) rest.
Proof.
  induction rest as [|c rest IH]; intros n m Hm.
  - simpl. destruct n, m; reflexivity.
  - simpl in Hm. destruct m as [|m]; [lia|].
    destruct n as [|n]; simpl; [reflexivity|].
    destruct (mem c chars); [|reflexivity]. rewrite IH by lia. reflexivity.
Qed.

Lemma first_loop css pos :
  pos <= length css ->
  skip_in HEX (slice css pos (Nat.min (pos + 6) (length css))) pos
  = pos + hex_count css pos.
Proof.
  intros Hp. unfold slice, hex_count. rewrite skip_in_span.
  replace (Nat.min (pos + 6) (length css) - pos)
    with (Nat.min 6 (length css - pos)) by lia.
  rewrite span_cap; [reflexivity|]. rewrite length_drop. lia.
Qed.

Lemma second_loop css pos :
  pos <= length css ->
  skip_in [ch "?"]
    (slice css (pos + hex_count css pos) (Nat.min (pos + 6) (length css)))
    (pos + hex_count css pos)
  = pos + hex_count css pos + question_count css pos.
Proof.
  intros Hp. unfold slice, question_count. rewrite skip_in_span.
  pose proof (span_le_hi HEX 6 (drop pos css)) as H6.
  pose proof (span_le_length HEX (Some 6) (drop pos css)) as Hl.
  rewrite length_drop in Hl. fold (hex_count css pos) in H6, Hl.
  replace (Nat.min (pos + 6) (length css) - (pos + hex_count css pos))
    with (Nat.min (6 - hex_count css pos) (length css - (pos + hex_count css pos)))
    by lia.
  rewrite span_cap; [reflexivity|]. rewrite length_drop. lia.
Qed.

Lemma range_budget css pos : hex_count css pos + question_count css pos <= 6.
Proof.
  unfold question_count.
  pose proof (span_le_hi HEX 6 (drop pos css)) as H6.
  fold (hex_count css pos) in H6.
  pose proof (span_le_hi [ch "?"] (6 - hex_count css pos)
                (drop (pos + hex_count css pos) css)).
  lia.
Qed.

(** with question marks, the two bounds are the hex digits followed by
    as many [0]s, and by as many [F]s *)
Lemma range_wildcards css pos :
  pos <= length css -> 0 < question_count css pos ->
  _consume_unicode_range css pos =
  let text := slice css pos (pos + hex_count css pos) in
  let n := question_count css pos in
  let* s := int16 (text ++ replicate n (ch "0")) in
  let* e := int16 (text ++ replicate n (ch "F")) in
  Ok (s, e, pos + hex_count css pos + n).
Proof.
  intros Hp Hq. unfold _consume_unicode_range. fold HEX. cbv zeta.
  rewrite first_loop, second_loop by assumption.
  replace (pos + hex_count css pos + question_count css pos
           - (pos + hex_count css pos)) with (question_count css pos) by lia.
  destruct (question_count css pos =? 0) eqn:E;
    [apply Nat.eqb_eq in E; lia|].
  reflexivity.
Qed.

End RangeBudget.

(** ** What an iteration appends *)

(** one step backwards through code that returned [Ok] *)
Ltac inv_step H :=
  match type of H with
  | Ok ?x = Ok ?y =>
      first [ discriminate H | is_var y; injection H as <- | injection H as H ]
  | Raise _ = Ok _ => discriminate H
  | OutOfFuel = Ok _ => discriminate H
  | bind ?m _ = Ok _ =>
      let E := fresh "E" in
      destruct m eqn:E; cbn [bind] in H; [|discriminate H|discriminate H]
  | (if ?b then _ else _) = Ok _ => let E := fresh "E" in destruct b eqn:E
  | (let '(_, _) := ?x in _) = Ok _ => destruct x
  | (match ?x with _ => _ end) = Ok _ => let E := fresh "E" in destruct x eqn:E
  end.

Ltac inv_all :=
  repeat match goal with H : _ = Ok _ |- _ => inv_step H end.

Ltac in_list := first [left; reflexivity | right; in_list].

Ltac leaf_goal :=
  unfold leaf_spec;
  split;
  [reflexivity
  |split;
   [try (let Hx := fresh in intros Hx; vm_compute in Hx; discriminate Hx)
   |split;
    [try (let Hx := fresh in intros Hx; vm_compute in Hx; discriminate Hx);
     try reflexivity
    |first [exact I
           |cbn [error_spec]; left; unfold STRING_URL_ERRORS; cbn [In]; in_list
           |idtac]]]].

Ltac leaf_spec_trivial :=
  cbn [app];
  repeat first [apply List.Forall_nil | apply List.Forall_cons; [leaf_goal|]
               | split; reflexivity].

Section ActionFacts.

Variable serialize_string_value : str -> str.
Variable serialize_url : str -> str.

Lemma url_tokens_spec css skip_comments line column pos c value p error_ ts :
  UrlSpec.unquoted_result (value, p, error_) ->
  url_tokens serialize_url line column value error_ = Ok ts ->
  Forall (leaf_spec css skip_comments line column pos c) ts.
Proof.
  unfold url_tokens. intros Hr H.
  destruct value as [v|], error_ as [[k m]|]; simpl in Hr;
    try contradiction; try (injection Hr as -> ->);
    inv_all; leaf_spec_trivial.
Qed.

Lemma string_tokens_spec css skip_comments line column pos c value error_ :
  match error_ with
  | Some e => e = bad_string \/ e = eof_in_string
  | None => True
  end ->
  Forall (leaf_spec css skip_comments line column pos c)
    (string_tokens serialize_string_value line column value error_).
Proof.
  unfold string_tokens. intros He.
  destruct value as [v|], error_ as [[k m]|]; try destruct He as [[= -> ->]|[= -> ->]];
    leaf_spec_trivial.
Qed.

Lemma dispatch_rest_spec css skip_comments end_char line column pos c a :
  dispatch_rest serialize_string_value css skip_comments end_char line column
    pos c = Ok a ->
  action_spec css skip_comments line column pos c a.
Proof.
  unfold dispatch_rest. cbv zeta. intros H.
  destruct (match_ _NUMBER_RE css pos) as [[q g]|] eqn:Hn.
  { inv_all; cbn [action_spec]; leaf_spec_trivial; intros _; congruence. }
  destruct (c =? ch "@")%Z; [inv_all; cbn [action_spec]; leaf_spec_trivial|].
  destruct (c =? ch "#")%Z; [inv_all; cbn [action_spec]; leaf_spec_trivial|].
  destruct (c =? ch "{")%Z; [inv_all; cbn [action_spec]; leaf_spec_trivial|].
  destruct (c =? ch "[")%Z; [inv_all; cbn [action_spec]; leaf_spec_trivial|].
  destruct (c =? ch "(")%Z; [inv_all; cbn [action_spec]; leaf_spec_trivial|].
  destruct (match end_char with Some e => (c =? e)%Z | None => false end);
    [inv_all; exact I|].
  destruct (mem c (lit "}])")) eqn:Hm.
  { inv_all. cbn [action_spec]. leaf_spec_trivial.
    cbn [error_spec]. right. split; [reflexivity|exact Hm]. }
  destruct (mem c [DQUOTE; SQUOTE]).
  { destruct (_consume_quoted_string css pos) as [[[v p] e]| |] eqn:Hs;
      cbn [bind] in H; try discriminate H.
    injection H as <-. cbn [action_spec]. apply string_tokens_spec.
    destruct e as [e|]; [|exact I].
    eapply StringFacts._consume_quoted_string_errors. eassumption. }
  destruct skip_comments; inv_all; cbn [action_spec]; leaf_spec_trivial.
Qed.

Lemma is_url_unquoted css lower pos :
  (if eqb_str lower (lit "url")
   then if length css <=? skip_ws css pos then Ok true
        else let* q := idx css (skip_ws css pos) in
             Ok (negb (mem q [DQUOTE; SQUOTE]))
   else Ok false) = Ok true ->
  UrlSpec.unquoted css pos.
Proof.
  unfold UrlSpec.unquoted. destruct (eqb_str _ _); [|discriminate].
  destruct (length css <=? skip_ws css pos) eqn:E.
  - intros _. apply Nat.leb_le in E. apply lookup_ge_None in E. rewrite E. exact I.
  - unfold idx. destruct (css !! skip_ws css pos) as [q|]; [|discriminate].
    cbn [bind]. intros [= H]. apply negb_true_iff. assumption.
Qed.

Lemma dispatch_spec css skip_comments end_char line column pos c a :
  dispatch serialize_string_value serialize_url css skip_comments end_char
    line column pos c = Ok a ->
  action_spec css skip_comments line column pos c a.
Proof.
  unfold dispatch. cbv zeta. intros H.
  destruct (mem c WS); [inv_all; cbn [action_spec]; leaf_spec_trivial|].
  match type of H with bind ?m _ = _ => destruct m as [[|]| |] end;
    cbn [bind] in H; try discriminate H.
  { inv_all; cbn [action_spec]; leaf_spec_trivial. }
  destruct (startswith (lit "-->") css pos);
    [inv_all; cbn [action_spec]; leaf_spec_trivial|].
  destruct (_is_ident_start css pos) as [[|]| |]; cbn [bind] in H;
    try discriminate H; [|eapply dispatch_rest_spec; eassumption].
  destruct (_consume_ident css pos) as [[v p]| |]; cbn [bind] in H;
    try discriminate H.
  destruct (negb (startswith (lit "(") css p));
    [inv_all; cbn [action_spec]; leaf_spec_trivial|].
  destruct (ascii_lower v) as [lower| |]; cbn [bind] in H; try discriminate H.
  match type of H with bind ?m _ = _ => destruct m as [[|]| |] eqn:Hu end;
    cbn [bind] in H; try discriminate H;
    [|inv_all; cbn [action_spec]; leaf_spec_trivial].
  apply is_url_unquoted in Hu.
  destruct (UrlFacts._consume_url_unquoted css (p + 1) Hu)
    as ([[value p'] err] & Hr & _ & Hres).
  rewrite Hr in H. cbn [bind] in H.
  destruct (url_tokens serialize_url line column value err) as [ts| |] eqn:Ht;
    cbn [bind] in H; try discriminate H.
  injection H as <-. cbn [action_spec].
  eapply url_tokens_spec; eassumption.
Qed.

End ActionFacts.

(** ** Where a number starts *)

Module NumberStart.
Import ReFacts SpanFacts NumberFacts NumberScan.

Lemma digits_from_first css p :
  (1 <=? digits_from css p) = startswith_any DIGITS css p.
Proof.
  unfold digits_from, startswith_any.
  destruct (drop_cases css p) as [(-> & _ & ->)|(c & -> & _ & ->)].
  - rewrite span_nil. reflexivity.
  - destruct (mem c DIGITS) eqn:E.
    + pose proof (span_first DIGITS None c (drop (S p) css) E eq_refl) as H.
      apply Nat.leb_le. assumption.
    + rewrite span_zero by assumption. reflexivity.
Qed.

Lemma number_body_start css p g :
  (exists m, number_body css p g = Some m)
  <-> startswith_any DIGITS css p
      || (startswith_any (lit ".") css p && startswith_any DIGITS css (S p))
      = true.
Proof.
  unfold number_body. cbv zeta. rewrite <- !digits_from_first.
  destruct (1 <=? digits_from css p) eqn:Ed.
  - cbn [orb]. split; [reflexivity|]. intros _.
    match goal with |- context [if ?b then _ else _] => destruct b end; eauto.
  - apply Nat.leb_gt in Ed. assert (Hd : digits_from css p = 0) by lia.
    rewrite Hd, Nat.add_0_r. cbn [orb].
    destruct (startswith_any (lit ".") css p); cbn [andb].
    + destruct (1 <=? digits_from css (S p)).
      * split; eauto.
      * split; [intros (m & H); discriminate|discriminate].
    + change (1 <=? 0) with false. cbv iota.
      split; [intros (m & H); discriminate|discriminate].
Qed.

(** [_NUMBER_RE] matches exactly where a number starts *)
Lemma _NUMBER_RE_start css pos :
  match_ _NUMBER_RE css pos <> None <-> number_start css pos = true.
Proof.
  rewrite _NUMBER_RE_scan. unfold number_scan, number_start, after_sign.
  destruct (startswith_any (lit "-+") css pos);
    rewrite <- number_body_start with (g := []);
    (split; [intros H; destruct (number_body _ _ _); [eauto|congruence]
            |intros (m & ->); discriminate]).
Qed.

End NumberStart.

(** ** An iteration, step by step *)

Lemma iteration_unfold ssv su css skip_comments s :
  iteration ssv su css skip_comments s =
  let* c := idx css s.(pos) in
  let* a := dispatch ssv su css skip_comments s.(end_char)
              (next_line css s) (next_column css s) s.(pos) c in
  perform a (started css s).
Proof.
  unfold iteration, started, next_column, next_line, next_last_newline.
  destruct (rfind LF css (token_start_pos s) (pos s)); reflexivity.
Qed.

Lemma iteration_inv ssv su css skip_comments s r :
  iteration ssv su css skip_comments s = Ok r ->
  exists c a,
    css !! s.(pos) = Some c
    /\ dispatch ssv su css skip_comments s.(end_char)
         (next_line css s) (next_column css s) s.(pos) c = Ok a
    /\ perform a (started css s) = Ok r.
Proof.
  rewrite iteration_unfold. unfold idx.
  destruct (css !! pos s) as [c|]; cbn [bind]; [|discriminate].
  destruct (dispatch _ _ _ _ _ _ _ _ _) as [a| |] eqn:E; cbn [bind];
    try discriminate.
  intros H. eauto.
Qed.

Module Punctuation.
Import IdentFacts NumberFacts NumberScan.

Lemma startswith_first x prefix css pos c :
  css !! pos = Some c -> x <> c -> startswith (x :: prefix) css pos = false.
Proof.
  intros Hc Hx. unfold startswith. rewrite (drop_S _ _ _ Hc). simpl.
  rewrite (proj2 (Z.eqb_neq x c)) by assumption. reflexivity.
Qed.

Lemma _is_ident_start_plain css pos c :
  css !! pos = Some c -> plain c = true -> _is_ident_start css pos = Ok false.
Proof.
  intros Hc Hp. unfold plain in Hp.
  repeat (apply andb_prop in Hp as [Hp ?]).
  repeat match goal with H : negb _ = true |- _ => apply negb_true_iff in H end.
  unfold _is_ident_start. rewrite (_is_name_start_ok _ _ _ Hc). cbn [bind].
  match goal with H : _ || _ = false |- _ => rewrite H end.
  rewrite (idx_eq _ _ _ Hc). cbn [bind].
  repeat match goal with H : (_ =? _)%Z = false |- _ => rewrite H end.
  reflexivity.
Qed.

(** on a plain character the loop body is its second chain, past the
    number match *)
Lemma dispatch_plain ssv su css skip_comments end_char line column pos c :
  css !! pos = Some c -> plain c = true ->
  dispatch ssv su css skip_comments end_char line column pos c
  = dispatch_rest ssv css skip_comments end_char line column pos c
  /\ match_ _NUMBER_RE css pos = None.
Proof.
  intros Hc Hp. pose proof (_is_ident_start_plain css pos c Hc Hp) as Hi.
  unfold plain in Hp.
  repeat (apply andb_prop in Hp as [Hp ?]).
  repeat match goal with H : negb _ = true |- _ => apply negb_true_iff in H end.
  split.
  - unfold dispatch. cbv zeta.
    repeat match goal with H : mem _ _ = false |- _ => rewrite H end.
    cbn [andb bind].
    change (lit "-->") with (ch "-" :: lit "->").
    rewrite (startswith_first (ch "-") _ css pos c Hc).
    + rewrite Hi. reflexivity.
    + intros <-. discriminate.
  - rewrite _NUMBER_RE_scan. eapply number_scan_none; eassumption.
Qed.

End Punctuation.

(** ** What every iteration does to a state *)

Lemma iteration_cases ssv su css skip_comments s r :
  iteration ssv su css skip_comments s = Ok r ->
  exists c a,
    css !! s.(pos) = Some c
    /\ action_spec css skip_comments (next_line css s) (next_column css s)
         s.(pos) c a
    /\ progress s.(end_char) s.(pos) a
    /\ perform a (started css s) = Ok r.
Proof.
  intros H. apply iteration_inv in H as (c & a & Hc & Hd & Hp).
  exists c, a. split; [assumption|]. split; [|split; [|assumption]].
  - eapply dispatch_spec. eassumption.
  - eapply dispatch_progress; eassumption.
Qed.

(** ** Positions *)

Module PositionFacts.
Import Positions.

Local Open Scope Z_scope.

Lemma lex_le_refl a : lex_le a a.
Proof. right. split; [reflexivity|lia]. Qed.

Lemma lex_le_trans a b c : lex_le a b -> lex_le b c -> lex_le a c.
Proof. unfold lex_le. intros [?|[? ?]] [?|[? ?]]; [left|left|left|right]; lia. Qed.

Lemma nondecreasing_snoc l x :
  nondecreasing l -> Forall (fun a => lex_le a x) l -> nondecreasing (l ++ [x]).
Proof.
  induction l as [|a l IH]; simpl; intros Hs Hx.
  - split; [constructor|exact I].
  - destruct Hs as [Ha Hs]. apply Forall_cons in Hx as [Hax Hx]. split.
    + apply Forall_app. split; [assumption|]. constructor; [assumption|constructor].
    + apply IH; assumption.
Qed.

Lemma nondecreasing_lookup l : nondecreasing l ->
  forall (i j : nat) a b, (i <= j)%nat -> l !! i = Some a -> l !! j = Some b ->
                          lex_le a b.
Proof.
  induction l as [|x l IH]; intros Hs i j a b Hij Hi Hj; [discriminate|].
  destruct Hs as [Hx Hs]. destruct i as [|i], j as [|j]; simpl in *.
  - injection Hi as <-. injection Hj as <-. apply lex_le_refl.
  - injection Hi as <-. eapply Forall_lookup_1; eassumption.
  - lia.
  - eapply (IH Hs i j); [lia|assumption|assumption].
Qed.

Lemma list_ok_weaken x y l : lex_le x y -> list_ok x l -> list_ok y l.
Proof.
  intros Hxy [Hs Hb]. split; [assumption|].
  eapply Forall_impl; [exact Hb|]. intros c Hc.
  exact (lex_le_trans _ _ _ Hc Hxy).
Qed.

Lemma list_ok_append x l cs :
  list_ok x l -> Forall (fun c => cell_pos c = x) cs -> list_ok x (l ++ cs).
Proof.
  intros Hl Hcs. revert l Hl. induction Hcs as [|c cs Hc Hcs IH]; intros l Hl.
  - rewrite app_nil_r. assumption.
  - replace (l ++ c :: cs) with ((l ++ [c]) ++ cs)
      by (rewrite <- app_assoc; reflexivity).
    apply IH. destruct Hl as [Hs Hb]. split.
    + rewrite map_app. simpl. apply nondecreasing_snoc; [assumption|].
      apply Forall_fmap. eapply Forall_impl; [exact Hb|].
      intros a Ha. simpl. rewrite Hc. assumption.
    + apply Forall_app. split; [assumption|].
      constructor; [rewrite Hc; apply lex_le_refl|constructor].
Qed.

(** the position of the next token is not before the position of this one *)
Lemma next_pos_mono css s (p : nat) h t e st :
  (s.(pos) <= p)%nat ->
  lex_le (next_pos css s)
    (next_pos css (mk_state p s.(pos) (next_line css s)
                     (next_last_newline css s) h t e st)).
Proof.
  intros Hp.
  set (s' := mk_state p s.(pos) (next_line css s) (next_last_newline css s)
               h t e st).
  assert (HL : next_line css s'
               = match rfind LF css (pos s) p with
                 | Some nl => next_line css s
                              + (1 + Z.of_nat (count LF css (pos s) nl))
                 | None => next_line css s
                 end) by reflexivity.
  assert (HN : next_last_newline css s'
               = match rfind LF css (pos s) p with
                 | Some nl => Z.of_nat nl
                 | None => next_last_newline css s
                 end) by reflexivity.
  unfold next_pos, lex_le, next_column. cbn [fst snd]. rewrite HL, HN.
  change (pos s') with p.
  destruct (rfind LF css (pos s) p) as [nl|]; [left|right]; lia.
Qed.

Lemma sorted_state_step ssv su css skip_comments s r :
  sorted_state css s ->
  iteration ssv su css skip_comments s = Ok r ->
  match r with
  | inl s' => sorted_state css s'
  | inr f => sorted_heap f.(final_objects)
  end.
Proof.
  intros Hs Hi. apply iteration_cases in Hi as (c & a & Hc & Ha & Hp & Hr).
  unfold sorted_state in *.
  destruct a as [ts p|b cl p|p|ts];
    cbn [perform started objects tokens stack end_char pos token_start_pos
         line last_newline] in Hr.
  - injection Hr as <-. cbn [objects]. simpl in Hp, Ha.
    eapply Forall_impl.
    2:{ intros l Hl. eapply list_ok_weaken; [|exact Hl].
        apply next_pos_mono. lia. }
    unfold append. apply Forall_alter; [assumption|].
    intros l _ Hl. apply list_ok_append; [assumption|].
    apply Forall_fmap. eapply Forall_impl; [exact Ha|].
    intros t Ht. destruct Ht as [Ht _]. exact Ht.
  - injection Hr as <-. cbn [objects]. simpl in Hp. destruct Ha as [Hb _].
    eapply Forall_impl.
    2:{ intros l Hl. eapply list_ok_weaken; [|exact Hl].
        apply next_pos_mono. lia. }
    unfold append. apply Forall_alter.
    + apply Forall_app. split; [assumption|].
      constructor; [|constructor]. split; [exact I|constructor].
    + intros l _ Hl. apply list_ok_append; [assumption|].
      constructor; [exact Hb|constructor].
  - destruct (stack s) as [|[t e] rest]; [discriminate|].
    injection Hr as <-. cbn [objects]. destruct Hp as [Hp _].
    eapply Forall_impl; [exact Hs|].
    intros l Hl. eapply list_ok_weaken; [|exact Hl].
    apply next_pos_mono. lia.
  - injection Hr as <-. cbn [final_objects]. unfold sorted_heap.
    eapply Forall_impl.
    1:{ unfold append. apply Forall_alter; [exact Hs|].
        intros l _ Hl. apply list_ok_append; [assumption|].
        apply Forall_fmap. eapply Forall_impl; [exact Ha|].
        intros t Ht. destruct Ht as [Ht _]. exact Ht. }
    intros l Hl. exact (proj1 Hl).
Qed.

Lemma token_pos_readback d h :
  forall l, map token_pos (readback d h l)
            = match d with
              | O => []
              | S _ => map cell_pos (default [] (h !! l))
              end.
Proof.
  destruct d as [|d]; intros l; [reflexivity|].
  cbn [readback]. rewrite map_map. apply map_ext. intros [t|b l']; reflexivity.
Qed.

Lemma readback_sorted h :
  Forall (fun l => nondecreasing (map cell_pos l)) h ->
  forall d l, sorted_tokens (readback d h l).
Proof.
  intros Hh. induction d as [|d IH]; intros l.
  - constructor; [exact I|]. intros b content [].
  - constructor.
    + rewrite token_pos_readback.
      destruct (h !! l) as [cells|] eqn:E; [|exact I].
      exact (Forall_lookup_1 _ _ _ _ Hh E).
    + intros b content Hin. cbn [readback] in Hin.
      apply in_map_iff in Hin as ([t|b' l'] & Heq & _); [discriminate|].
      injection Heq as <- <-. apply IH.
Qed.

End PositionFacts.

(** ** Comments *)

Module CommentFacts.
Import Comments.

Lemma filter_map_Tok ts :
  List.filter keep_cell (map Tok ts) = map Tok (List.filter keep_leaf ts).
Proof.
  induction ts as [|t ts IH]; simpl; [reflexivity|].
  destruct (keep_leaf t); simpl; rewrite IH; reflexivity.
Qed.

Lemma strip_heap_append cs l h :
  strip_heap (append cs l h) = append (List.filter keep_cell cs) l (strip_heap h).
Proof.
  unfold strip_heap, append.
  apply (list_fmap_alter (List.filter keep_cell)).
  apply Forall_forall. intros x _. apply List.filter_app.
Qed.

Lemma strip_heap_alloc h : strip_heap (h ++ [[]]) = strip_heap h ++ [[]].
Proof. unfold strip_heap. rewrite map_app. reflexivity. Qed.

Lemma strip_heap_length h : length (strip_heap h) = length h.
Proof. unfold strip_heap. apply length_map. Qed.

Lemma perform_strip a s :
  perform (strip_action a) (strip_state s) = res_map strip_result (perform a s).
Proof.
  destruct a as [ts p|b e p|p|ts]; unfold strip_state;
    cbn [perform strip_action strip_state
    objects tokens end_char stack pos token_start_pos line last_newline res_map
    strip_result]; unfold strip_state, strip_final;
    cbn [objects tokens end_char stack pos token_start_pos line last_newline
         final_pos final_objects final_tokens final_end_char final_stack].
  - rewrite strip_heap_append, filter_map_Tok. reflexivity.
  - rewrite strip_heap_append, strip_heap_alloc, strip_heap_length. reflexivity.
  - destruct (stack s) as [|[t e] rest]; reflexivity.
  - rewrite strip_heap_append, filter_map_Tok. reflexivity.
Qed.

Lemma started_strip css s : started css (strip_state s) = strip_state (started css s).
Proof. reflexivity. Qed.

Section Dispatch.

Variable serialize_string_value : str -> str.
Variable serialize_url : str -> str.

Lemma url_tokens_keep line column value error_ ts :
  url_tokens serialize_url line column value error_ = Ok ts ->
  List.filter keep_leaf ts = ts.
Proof.
  unfold url_tokens. intros H.
  destruct value as [v|], error_ as [[k m]|]; inv_all; reflexivity.
Qed.

Lemma string_tokens_keep line column value error_ :
  List.filter keep_leaf (string_tokens serialize_string_value line column value error_)
  = string_tokens serialize_string_value line column value error_.
Proof.
  unfold string_tokens. destruct value as [v|], error_ as [[k m]|]; reflexivity.
Qed.

(** take apart the code common to the two runs *)
Ltac both_sides :=
  repeat first
    [ reflexivity
    | match goal with
      | |- context [bind ?m _] =>
          destruct m as [?| |]; cbn [bind res_map]
      | |- context [if ?b then _ else _] => destruct b
      | |- context [match ?x with (_, _) => _ end] => destruct x
      | |- context [match ?x with Some _ => _ | None => _ end] => destruct x
      end ].

Lemma dispatch_rest_strip css end_char line column pos c :
  dispatch_rest serialize_string_value css true end_char line column pos c
  = res_map strip_action
      (dispatch_rest serialize_string_value css false end_char line column pos c).
Proof.
  unfold dispatch_rest. cbv zeta. cbn [negb].
  destruct (match_ _NUMBER_RE css pos) as [[q g]|]; [both_sides|].
  destruct (c =? ch "@")%Z; [both_sides|].
  destruct (c =? ch "#")%Z; [both_sides|].
  destruct (c =? ch "{")%Z; [both_sides|].
  destruct (c =? ch "[")%Z; [both_sides|].
  destruct (c =? ch "(")%Z; [both_sides|].
  destruct (match end_char with Some e => (c =? e)%Z | None => false end);
    [reflexivity|].
  destruct (mem c (lit "}])")); [reflexivity|].
  destruct (mem c [DQUOTE; SQUOTE]).
  { destruct (_consume_quoted_string css pos) as [[[v p] e]| |];
      cbn [bind res_map strip_action]; try reflexivity.
    rewrite string_tokens_keep. reflexivity. }
  both_sides.
Qed.

Lemma dispatch_strip css end_char line column pos c :
  dispatch serialize_string_value serialize_url css true end_char line column pos c
  = res_map strip_action
      (dispatch serialize_string_value serialize_url css false end_char
         line column pos c).
Proof.
  unfold dispatch. cbv zeta.
  destruct (mem c WS); [reflexivity|].
  match goal with |- context [bind ?m _] => destruct m as [[|]| |] end;
    cbn [bind res_map]; try reflexivity.
  { both_sides. }
  destruct (startswith (lit "-->") css pos); [reflexivity|].
  destruct (_is_ident_start css pos) as [[|]| |]; cbn [bind res_map];
    try reflexivity; [|apply dispatch_rest_strip].
  destruct (_consume_ident css pos) as [[v p]| |]; cbn [bind res_map];
    try reflexivity.
  destruct (negb (startswith (lit "(") css p)); [reflexivity|].
  destruct (ascii_lower v) as [lower| |]; cbn [bind res_map]; try reflexivity.
  match goal with |- context [bind ?m _] => destruct m as [[|]| |] end;
    cbn [bind res_map]; try reflexivity.
  destruct (_consume_url css (p + 1)) as [[[value p'] err]| |];
    cbn [bind res_map]; try reflexivity.
  destruct (url_tokens serialize_url line column value err) as [ts| |] eqn:E;
    cbn [bind res_map strip_action]; try reflexivity.
  rewrite (url_tokens_keep _ _ _ _ _ E). reflexivity.
Qed.

Lemma iteration_strip css s :
  iteration serialize_string_value serialize_url css true (strip_state s)
  = res_map strip_result
      (iteration serialize_string_value serialize_url css false s).
Proof.
  rewrite !iteration_unfold. rewrite started_strip.
  change (pos (strip_state s)) with (pos s).
  change (end_char (strip_state s)) with (end_char s).
  change (next_line css (strip_state s)) with (next_line css s).
  change (next_column css (strip_state s)) with (next_column css s).
  destruct (idx css (pos s)) as [c| |]; cbn [bind res_map]; try reflexivity.
  rewrite dispatch_strip.
  destruct (dispatch _ _ css false _ _ _ _ _) as [a| |]; cbn [bind res_map];
    try reflexivity.
  apply perform_strip.
Qed.

Lemma loop_strip css fuel : forall s,
  loop serialize_string_value serialize_url fuel css true (strip_state s)
  = res_map strip_final
      (loop serialize_string_value serialize_url fuel css false s).
Proof.
  induction fuel as [|fuel IH]; intros s; cbn [loop];
    change (pos (strip_state s)) with (pos s);
    destruct (pos s <? length css); try reflexivity.
  rewrite iteration_strip.
  destruct (iteration _ _ css false s) as [[s'|s']| |]; cbn [bind res_map strip_result];
    try reflexivity.
  apply IH.
Qed.

End Dispatch.

Lemma strip_heap_lookup h l :
  strip_heap h !! l = option_map (List.filter keep_cell) (h !! l).
Proof.
  unfold strip_heap. revert l.
  induction h as [|x h IH]; intros [|l]; simpl; auto.
Qed.

Lemma readback_strip h : forall d l,
  readback d (strip_heap h) l = strip_tokens (readback d h l).
Proof.
  induction d as [|d IH]; intros l; [reflexivity|].
  cbn [readback]. rewrite strip_heap_lookup.
  destruct (h !! l) as [cells|]; [|reflexivity].
  cbn [option_map default from_option]. unfold id.
  induction cells as [|[t|b l'] cells IHc]; [reflexivity| |].
  - cbn [List.filter keep_cell map]. unfold strip_tokens in *.
    cbn [flat_map]. unfold keep_leaf.
    destruct t; cbn [is_comment negb strip_token app map]; rewrite IHc; reflexivity.
  - cbn [List.filter keep_cell map]. unfold strip_tokens in *.
    cbn [flat_map strip_token app]. rewrite IHc, IH. reflexivity.
Qed.

End CommentFacts.

(** ** Blocks left open *)

Module OpenBlockFacts.
Import OpenBlocks.

Lemma spine_lt h : wf h -> forall stk tokens,
  spine h tokens stk -> Forall (fun e => fst e < tokens) stk.
Proof.
  intros Hwf. induction stk as [|[t e] rest IH]; intros tokens Hs; [constructor|].
  destruct Hs as [(cells & b & Ht) Hs].
  assert (Hlt : t < tokens).
  { eapply (Hwf t _ b tokens Ht). apply in_or_app. right. left. reflexivity. }
  constructor; [exact Hlt|].
  eapply Forall_impl; [exact (IH t Hs)|]. simpl. intros x Hx. lia.
Qed.

Lemma spine_alter h f l : forall stk tokens,
  spine h tokens stk -> Forall (fun e => fst e <> l) stk ->
  spine (alter f l h) tokens stk.
Proof.
  induction stk as [|[t e] rest IH]; intros tokens Hs Hne; [exact Hs|].
  destruct Hs as [(cells & b & Ht) Hs].
  apply Forall_cons in Hne as [Hne1 Hne]. simpl in Hne1. split.
  - exists cells, b. rewrite list_lookup_alter_ne by congruence. assumption.
  - apply IH; assumption.
Qed.

Lemma spine_alloc h x : forall stk tokens,
  spine h tokens stk -> spine (h ++ [x]) tokens stk.
Proof.
  induction stk as [|[t e] rest IH]; intros tokens Hs; [exact Hs|].
  destruct Hs as [(cells & b & Ht) Hs]. split; [|apply IH; assumption].
  exists cells, b. rewrite lookup_app_l; [assumption|].
  eapply lookup_lt_Some. eassumption.
Qed.

Lemma wf_alloc h : wf h -> wf (h ++ [[]]).
Proof.
  intros Hwf l cells b l' Hl Hin. rewrite length_app. simpl.
  destruct (decide (l < length h)) as [Hlt|Hge].
  - rewrite lookup_app_l in Hl by assumption.
    specialize (Hwf l cells b l' Hl Hin). lia.
  - rewrite lookup_app_r in Hl by lia.
    destruct (l - length h) as [|n]; simpl in Hl; [|discriminate].
    injection Hl as <-. destruct Hin.
Qed.

Lemma wf_append h cs l :
  wf h -> (forall b l', In (Blk b l') cs -> l < l' < length h) ->
  wf (append cs l h).
Proof.
  intros Hwf Hcs l0 cells b l' Hl Hin. unfold append in *.
  rewrite length_alter. destruct (decide (l = l0)) as [<-|Hne].
  - rewrite list_lookup_alter_eq in Hl.
    destruct (h !! l) as [old|] eqn:E; [|discriminate].
    injection Hl as <-. apply in_app_or in Hin as [Hin|Hin].
    + exact (Hwf l old b l' E Hin).
    + exact (Hcs b l' Hin).
  - rewrite list_lookup_alter_ne in Hl by assumption.
    exact (Hwf l0 cells b l' Hl Hin).
Qed.

Lemma spine_ne h stk tokens :
  wf h -> spine h tokens stk -> Forall (fun e => fst e <> tokens) stk.
Proof.
  intros Hwf Hs. eapply Forall_impl; [exact (spine_lt h Hwf stk tokens Hs)|].
  simpl. intros x Hx. lia.
Qed.

Lemma open_state_step ssv su css skip_comments s r :
  open_state s ->
  iteration ssv su css skip_comments s = Ok r ->
  match r with
  | inl s' => open_state s'
  | inr f => open_final f
  end.
Proof.
  intros (Hwf & Hsp & Hlt) Hi.
  apply iteration_inv in Hi as (c & a & Hc & _ & Hr).
  assert (Happ : forall ts,
    wf (append (map Tok ts) (tokens s) (objects s))
    /\ spine (append (map Tok ts) (tokens s) (objects s)) (tokens s) (stack s)
    /\ tokens s < length (append (map Tok ts) (tokens s) (objects s))).
  { intros ts. split; [|split].
    - apply wf_append; [assumption|]. intros b l' Hin.
      apply in_map_iff in Hin as (t & Heq & _). discriminate.
    - apply spine_alter; [assumption|]. eapply spine_ne; eassumption.
    - unfold append. rewrite length_alter. assumption. }
  destruct a as [ts p|b cl p|p|ts];
    cbn [perform started objects tokens stack end_char pos token_start_pos
         line last_newline] in Hr.
  - injection Hr as <-. exact (Happ ts).
  - injection Hr as <-. unfold open_state.
    cbn [objects tokens stack]. split; [|split].
    + apply wf_append; [apply wf_alloc; assumption|].
      intros b' l' [Heq|[]]. injection Heq as <- <-.
      rewrite length_app. simpl. lia.
    + cbn [spine]. split.
      * unfold append. rewrite list_lookup_alter_eq, lookup_app_l by assumption.
        destruct (lookup_lt_is_Some_2 _ _ Hlt) as [old Hold].
        rewrite Hold. exists old, b. reflexivity.
      * apply spine_alter; [apply spine_alloc; assumption|].
        eapply spine_ne; eassumption.
    + unfold append. rewrite length_alter, length_app. simpl. lia.
  - destruct (stack s) as [|[t e] rest] eqn:Est; [discriminate|].
    injection Hr as <-. unfold open_state. cbn [objects tokens stack].
    destruct Hsp as [(cells & b & Ht) Hsp]. split; [assumption|].
    split; [assumption|]. eapply lookup_lt_Some. eassumption.
  - injection Hr as <-. exact (Happ ts).
Qed.

(** past the depth of the store the value of a list does not change *)
Lemma readback_stable h : wf h -> forall d d' l,
  length h - l <= d -> d <= d' -> readback d h l = readback d' h l.
Proof.
  intros Hwf. induction d as [|d IH]; intros d' l Hd Hd'.
  - assert (Hn : h !! l = None) by (apply lookup_ge_None; lia).
    destruct d'; cbn [readback]; [reflexivity|]. rewrite Hn. reflexivity.
  - destruct d' as [|d']; [lia|]. cbn [readback].
    destruct (h !! l) as [cells|] eqn:E; [|reflexivity].
    cbn [default from_option]. unfold id. apply map_ext_in.
    intros [t|b l'] Hin; [reflexivity|].
    destruct (Hwf l cells b l' E Hin) as [H1 H2].
    rewrite (IH d' l'); [reflexivity|lia|lia].
Qed.

Lemma last_map {A B} (f : A -> B) l x :
  last (map f (l ++ [x])) = Some (f x).
Proof. rewrite map_app. simpl. apply last_snoc. Qed.

(** the list returned holds the open blocks, one in the other, and the
    innermost holds the current list *)
Lemma open_blocks_spine h : wf h -> forall stk tokens,
  spine h tokens stk ->
  open_blocks (length stk) (readback (length h) h root)
  = Some (readback (length h) h tokens).
Proof.
  intros Hwf. induction stk as [|[t e] rest IH]; intros tokens Hs.
  - simpl in Hs. subst. reflexivity.
  - destruct Hs as [(cells & b & Ht) Hs]. cbn [length open_blocks].
    rewrite (IH t Hs).
    pose proof (lookup_lt_Some _ _ _ Ht) as Hlt.
    assert (Htok : t < tokens < length h).
    { eapply (Hwf t _ b tokens Ht). apply in_or_app. right. left. reflexivity. }
    destruct (length h) as [|n] eqn:En; [lia|].
    cbn [readback]. rewrite Ht. cbn [default from_option]. unfold id.
    rewrite last_map.
    rewrite (readback_stable h Hwf n (S n) tokens); [reflexivity|lia|lia].
Qed.

Lemma readback_every P h :
  Forall (Forall (cell_ok P)) h -> forall d l, every_leaf P (readback d h l).
Proof.
  intros Hh. induction d as [|d IH]; intros l.
  - constructor; intros ? ? []|| intros ? [].
  - constructor.
    + intros t Hin. cbn [readback] in Hin.
      apply in_map_iff in Hin as ([t'|b l'] & Heq & Hin); [|discriminate].
      injection Heq as <-.
      destruct (h !! l) as [cells|] eqn:E; [|destruct Hin].
      pose proof (Forall_lookup_1 _ _ _ _ Hh E) as Hcells.
      rewrite List.Forall_forall in Hcells. exact (Hcells _ Hin).
    + intros b content Hin. cbn [readback] in Hin.
      apply in_map_iff in Hin as ([t'|b' l'] & Heq & _); [discriminate|].
      injection Heq as <- <-. apply IH.
Qed.

Lemma replace1_in old new css c :
  In c (replace1 old new css) -> c = new \/ In c css.
Proof.
  unfold replace1. intros H. apply in_map_iff in H as (x & Hx & Hin).
  destruct (x =? old)%Z; subst; auto.
Qed.

Lemma replace_crlf_eq a b rest :
  replace_crlf (a :: b :: rest)
  = if (a =? CR)%Z && (b =? LF)%Z then LF :: replace_crlf rest
    else a :: replace_crlf (b :: rest).
Proof. reflexivity. Qed.

Lemma replace_crlf_in_n c : forall n css,
  length css <= n -> In c (replace_crlf css) -> c = LF \/ In c css.
Proof.
  induction n as [|n IH]; intros [|a [|b rest]] Hlen; simpl in Hlen; try lia.
  - intros [].
  - intros [].
  - intros [<-|[]]. right. left. reflexivity.
  - rewrite replace_crlf_eq. destruct ((a =? CR)%Z && (b =? LF)%Z).
    + intros [<-|H]; [auto|]. apply IH in H as [->|H]; [auto| |simpl; lia].
      right. right. right. assumption.
    + intros [<-|H]; [right; left; reflexivity|].
      apply IH in H as [->|H]; [auto| |simpl; lia].
      right. right. assumption.
Qed.

Lemma replace_crlf_in c css : In c (replace_crlf css) -> c = LF \/ In c css.
Proof. apply (replace_crlf_in_n c (length css)). lia. Qed.

Lemma closer_free_preprocess css :
  closer_free css -> closer_free (preprocess css).
Proof.
  intros Hcf c Hin. unfold preprocess in Hin.
  apply replace1_in in Hin as [->|Hin]; [reflexivity|].
  apply replace1_in in Hin as [->|Hin]; [reflexivity|].
  apply replace_crlf_in in Hin as [->|Hin]; [reflexivity|].
  apply replace1_in in Hin as [->|Hin]; [reflexivity|].
  apply Hcf. assumption.
Qed.

Lemma errors_ok_step ssv su css skip_comments s r :
  closer_free css -> errors_ok s ->
  iteration ssv su css skip_comments s = Ok r ->
  match r with
  | inl s' => errors_ok s'
  | inr f => Forall (Forall (cell_ok string_or_url_error)) f.(final_objects)
  end.
Proof.
  intros Hcf Hs Hi. apply iteration_cases in Hi as (c & a & Hc & Ha & _ & Hr).
  assert (Hnc : mem c (lit "}])") = false).
  { apply Hcf. eapply list_elem_of_In, list_elem_of_lookup_2. eassumption. }
  assert (Happ : forall ts,
    Forall (leaf_spec css skip_comments (next_line css s) (next_column css s)
              (pos s) c) ts ->
    Forall (Forall (cell_ok string_or_url_error))
      (append (map Tok ts) (tokens s) (objects s))).
  { intros ts Hts. unfold append. apply Forall_alter; [exact Hs|].
    intros l _ Hl. apply Forall_app. split; [assumption|].
    apply Forall_fmap. eapply Forall_impl; [exact Hts|].
    intros t (_ & _ & _ & He). destruct t; try exact I.
    simpl in *. destruct He as [He|[_ He]]; [assumption|congruence]. }
  unfold errors_ok in *.
  destruct a as [ts p|b cl p|p|ts];
    cbn [perform started objects tokens stack end_char pos token_start_pos
         line last_newline] in Hr.
  - injection Hr as <-. exact (Happ ts Ha).
  - injection Hr as <-. cbn [objects]. unfold append. apply Forall_alter.
    + apply Forall_app. split; [assumption|]. repeat constructor.
    + intros l _ Hl. apply Forall_app. split; [assumption|]. repeat constructor.
  - destruct (stack s) as [|[t e] rest]; [discriminate|].
    injection Hr as <-. assumption.
  - injection Hr as <-. exact (Happ ts Ha).
Qed.

End OpenBlockFacts.

(** ** The value of the store *)

Module ValueFacts.
Import OpenBlocks OpenBlockFacts Value.


End ValueFacts.

(** ** The input after the replacements *)

Module Preprocess.

Lemma replace1_not_in old new css :
  old <> new -> ~ In old (replace1 old new css).
Proof.
  intros Hne Hin. unfold replace1 in Hin.
  apply in_map_iff in Hin as (x & Hx & _).
  destruct (x =? old)%Z eqn:E; [congruence|].
  apply Z.eqb_neq in E. congruence.
Qed.

Lemma replace1_keeps_out old new css c :
  c <> new -> ~ In c css -> ~ In c (replace1 old new css).
Proof.
  intros Hne Hc Hin. apply OpenBlockFacts.replace1_in in Hin as [?|?]; auto.
Qed.

Lemma replace_crlf_keeps_out css c :
  c <> LF -> ~ In c css -> ~ In c (replace_crlf css).
Proof.
  intros Hne Hc Hin. apply OpenBlockFacts.replace_crlf_in in Hin as [?|?]; auto.
Qed.

Lemma replace1_id old new css : ~ In old css -> replace1 old new css = css.
Proof.
  unfold replace1. induction css as [|c css IH]; intros Hn; simpl; [reflexivity|].
  destruct (c =? old)%Z eqn:E.
  - apply Z.eqb_eq in E. subst. exfalso. apply Hn. left. reflexivity.
  - rewrite IH; [reflexivity|]. intros H. apply Hn. right. assumption.
Qed.

Lemma replace_crlf_id_n : forall n css,
  length css <= n -> ~ In CR css -> replace_crlf css = css.
Proof.
  induction n as [|n IH]; intros [|a [|b rest]] Hlen Hn; simpl in Hlen;
    try lia; try reflexivity.
  rewrite OpenBlockFacts.replace_crlf_eq.
  destruct (a =? CR)%Z eqn:E.
  - apply Z.eqb_eq in E. subst. exfalso. apply Hn. left. reflexivity.
  - cbn [andb]. rewrite IH; [reflexivity|simpl; lia|].
    intros H. apply Hn. right. assumption.
Qed.

Lemma preprocess_clean css :
  ~ In NUL (preprocess css) /\ ~ In CR (preprocess css)
  /\ ~ In FF (preprocess css).
Proof.
  unfold preprocess. split; [|split].
  - apply replace1_keeps_out; [discriminate|].
    apply replace1_keeps_out; [discriminate|].
    apply replace_crlf_keeps_out; [discriminate|].
    apply replace1_not_in. discriminate.
  - apply replace1_keeps_out; [discriminate|].
    apply replace1_not_in. discriminate.
  - apply replace1_not_in. discriminate.
Qed.

End Preprocess.

(** ** Properties of every token of the result *)

Module Leaves.
Import OpenBlocks.

(** what holds of every token an iteration appends holds of every
    token without content of the result *)
Lemma every_leaf_result ssv su css skip_comments (P : leaf -> Prop) :
  (forall line column pos c t,
     leaf_spec (preprocess css) skip_comments line column pos c t -> P t) ->
  returns css (every_leaf P)
    (parse_component_value_list ssv su css skip_comments).
Proof.
  intros HP. apply parse_returns. intros f Hrun.
  apply OpenBlockFacts.readback_every. unfold run in Hrun.
  eapply (loop_invariant ssv su (preprocess css) skip_comments
            (fun s => Forall (Forall (cell_ok P)) s.(objects))
            (fun f => Forall (Forall (cell_ok P)) f.(final_objects)));
    [| | |exact Hrun]; [auto| |repeat constructor].
  clear f Hrun. intros s r Hs _ Hi.
  apply iteration_cases in Hi as (c & a & Hc & Ha & _ & Hr).
  assert (Happ : forall ts,
    Forall (leaf_spec (preprocess css) skip_comments (next_line (preprocess css) s)
              (next_column (preprocess css) s) (pos s) c) ts ->
    Forall (Forall (cell_ok P)) (append (map Tok ts) (tokens s) (objects s))).
  { intros ts Hts. unfold append. apply Forall_alter; [exact Hs|].
    intros l _ Hl. apply Forall_app. split; [assumption|].
    apply Forall_fmap. eapply Forall_impl; [exact Hts|].
    intros t Ht. simpl. eapply HP. exact Ht. }
  destruct a as [ts p|b cl p|p|ts];
    cbn [perform started objects tokens stack end_char pos token_start_pos
         line last_newline] in Hr.
  - injection Hr as <-. exact (Happ ts Ha).
  - injection Hr as <-. cbn [objects]. unfold append. apply Forall_alter.
    + apply Forall_app. split; [assumption|]. repeat constructor.
    + intros l _ Hl. apply Forall_app. split; [assumption|]. repeat constructor.
  - destruct (stack s) as [|[t e] rest]; [discriminate|].
    injection Hr as <-. assumption.
  - injection Hr as <-. exact (Happ ts Ha).
Qed.

End Leaves.

(** ** The states the loop reaches *)

Module Reach.

Lemma reachable_invariant ssv su css skip_comments (P : state -> Prop) :
  P initial ->
  (forall s s', P s -> s.(pos) < length css ->
                iteration ssv su css skip_comments s = Ok (inl s') -> P s') ->
  forall s, reachable ssv su css skip_comments s -> P s.
Proof.
  intros H0 Hstep s Hr. induction Hr as [|s s' _ IH Hlt Hi]; [assumption|].
  exact (Hstep s s' IH Hlt Hi).
Qed.

Lemma frames_stack_ok stack : forall end_char,
  frames stack end_char -> stack_ok stack end_char.
Proof.
  induction stack as [|[t e] rest IH]; intros end_char H; simpl in *;
    [assumption|]. apply IH. apply H.
Qed.

Lemma frames_step ssv su css skip_comments s s' :
  frames s.(stack) s.(end_char) ->
  iteration ssv su css skip_comments s = Ok (inl s') ->
  frames s'.(stack) s'.(end_char).
Proof.
  intros Hs Hi. apply iteration_cases in Hi as (c & a & Hc & Ha & Hp & Hr).
  destruct a as [ts p|b cl p|p|ts];
    cbn [perform started objects tokens stack end_char pos token_start_pos
         line last_newline] in Hr.
  - injection Hr as <-. assumption.
  - injection Hr as <-. cbn [stack end_char frames].
    destruct Ha as [_ Hcl]. split; [eauto|assumption].
  - destruct (stack s) as [|[t e] rest]; [discriminate|].
    injection Hr as <-. cbn [stack end_char]. apply Hs.
  - discriminate.
Qed.

Lemma frames_reachable ssv su css skip_comments s :
  reachable ssv su css skip_comments s -> frames s.(stack) s.(end_char).
Proof.
  apply (reachable_invariant ssv su css skip_comments
           (fun s => frames s.(stack) s.(end_char))); [reflexivity|].
  intros s0 s' H0 _ Hi. eapply frames_step; eassumption.
Qed.

End Reach.

(** ** Lines and columns *)

Module Lines.
Local Open Scope Z_scope.

Lemma take_add (l : str) : forall n k,
  take (n + k) l = take n l ++ take k (drop n l).
Proof.
  induction l as [|x l IH]; intros [|n] k; simpl; try reflexivity.
  - destruct k; reflexivity.
  - f_equal. apply IH.
Qed.

Lemma take_slice (css : str) (a b : nat) :
  (a <= b)%nat -> take b css = take a css ++ slice css a b.
Proof.
  intros Hab. unfold slice.
  replace b with (a + (b - a))%nat at 1 by lia. apply take_add.
Qed.

Lemma slice_0 (css : str) (b : nat) : slice css 0 b = take b css.
Proof. unfold slice. rewrite Nat.sub_0_r. reflexivity. Qed.

Lemma slice_split (css : str) (a b c : nat) :
  (a <= b)%nat -> (b <= c)%nat -> slice css a c = slice css a b ++ slice css b c.
Proof.
  intros Hab Hbc. unfold slice.
  replace (c - a)%nat with ((b - a) + (c - b))%nat by lia.
  rewrite take_add, drop_drop.
  replace (a + (b - a))%nat with b by lia. reflexivity.
Qed.

Lemma count_split c (css : str) (a b d : nat) :
  (a <= b)%nat -> (b <= d)%nat ->
  count c css a d = (count c css a b + count c css b d)%nat.
Proof.
  intros Hab Hbd. unfold count.
  rewrite (slice_split css a b d Hab Hbd), filter_app, length_app. reflexivity.
Qed.

Lemma rfind_in_app c (l1 l2 : str) : forall base,
  rfind_in c (l1 ++ l2) base =
  match rfind_in c l2 (base + length l1) with
  | Some i => Some i
  | None => rfind_in c l1 base
  end.
Proof.
  induction l1 as [|x l1 IH]; intros base; simpl.
  - rewrite Nat.add_0_r. destruct (rfind_in c l2 base); reflexivity.
  - rewrite IH. replace (S base + length l1)%nat with (base + S (length l1))%nat by lia.
    destruct (rfind_in c l2 (base + S (length l1))); reflexivity.
Qed.

(** what [rfind] finds is the last one: the text up to it has one less *)
Lemma rfind_in_count c (l : str) : forall base,
  match rfind_in c l base with
  | Some i =>
      (base <= i < base + length l)%nat
      /\ length (filter (fun x => x = c) l)
         = S (length (filter (fun x => x = c) (take (i - base) l)))
  | None => filter (fun x => x = c) l = []
  end.
Proof.
  induction l as [|x l IH]; intros base; simpl; [reflexivity|].
  specialize (IH (S base)).
  destruct (rfind_in c l (S base)) as [i|].
  - destruct IH as [Hi Hn]. split; [lia|].
    replace (i - base)%nat with (S (i - S base)) by lia. simpl.
    rewrite !filter_cons. destruct (decide (x = c)); simpl; rewrite Hn; reflexivity.
  - destruct (x =? c) eqn:E.
    + apply Z.eqb_eq in E. subst x. split; [lia|].
      rewrite Nat.sub_diag. simpl. rewrite filter_cons.
      destruct (decide (c = c)); [|congruence]. simpl. rewrite IH. reflexivity.
    + apply Z.eqb_neq in E. rewrite filter_cons.
      destruct (decide (x = c)); [congruence|]. assumption.
Qed.

Lemma slice_slice (css : str) (a b d : nat) :
  (b <= d)%nat -> take (b - a) (slice css a d) = slice css a b.
Proof.
  intros Hbd. unfold slice. rewrite take_take. f_equal. lia.
Qed.

(** the update of [line] at the start of an iteration counts the
    newlines between the two token starts *)
Lemma rfind_count (css : str) (a b : nat) :
  match rfind LF css a b with
  | Some newline =>
      (a <= newline < b)%nat
      /\ count LF css a b = S (count LF css a newline)
  | None => count LF css a b = 0%nat
  end.
Proof.
  unfold rfind, count.
  pose proof (rfind_in_count LF (slice css a b) a) as H.
  destruct (rfind_in LF (slice css a b) a) as [i|].
  - destruct H as [Hi Hn].
    assert (Hlen : (length (slice css a b) <= b - a)%nat).
    { unfold slice. rewrite length_take. lia. }
    split; [lia|]. rewrite Hn, slice_slice by lia. reflexivity.
  - rewrite H. reflexivity.
Qed.

Lemma rfind_split (css : str) (a b : nat) :
  (a <= b)%nat ->
  rfind LF css 0 b =
  match rfind LF css a b with
  | Some i => Some i
  | None => rfind LF css 0 a
  end.
Proof.
  intros Hab. unfold rfind. rewrite !slice_0.
  rewrite (take_slice css a b Hab), rfind_in_app. simpl.
  destruct (Nat.le_gt_cases a (length css)) as [Hle|Hgt].
  - rewrite length_take, Nat.min_l by assumption. reflexivity.
  - assert (Hnil : slice css a b = []).
    { unfold slice. rewrite drop_ge by lia. destruct (b - a)%nat; reflexivity. }
    rewrite Hnil. reflexivity.
Qed.

Lemma next_tracked css s :
  tracked css s ->
  next_line css s = line_of css s.(pos)
  /\ next_column css s = column_of css s.(pos)
  /\ tracked css (started css s).
Proof.
  intros (Hle & Hline & Hlast).
  assert (Hl : next_line css s = line_of css (pos s)).
  { unfold next_line, line_of. rewrite Hline. unfold line_of.
    rewrite (count_split LF css 0 (token_start_pos s) (pos s)) by lia.
    pose proof (rfind_count css (token_start_pos s) (pos s)) as H.
    destruct (rfind LF css (token_start_pos s) (pos s)) as [nl|].
    - destruct H as [_ ->]. lia.
    - rewrite H. lia. }
  assert (Hn : next_last_newline css s
               = match rfind LF css 0 (pos s) with
                 | Some newline => Z.of_nat newline
                 | None => -1
                 end).
  { unfold next_last_newline.
    rewrite (rfind_split css (token_start_pos s) (pos s) Hle).
    destruct (rfind LF css (token_start_pos s) (pos s)); [reflexivity|].
    assumption. }
  split; [assumption|]. split.
  - unfold next_column, column_of. rewrite Hn.
    destruct (rfind LF css 0 (pos s)); lia.
  - unfold tracked, started. cbn [token_start_pos pos line last_newline].
    split; [lia|]. split; assumption.
Qed.

Lemma tracked_step ssv su css skip_comments s s' :
  tracked css s ->
  iteration ssv su css skip_comments s = Ok (inl s') -> tracked css s'.
Proof.
  intros Hs Hi. apply iteration_cases in Hi as (c & a & Hc & Ha & Hp & Hr).
  destruct (next_tracked css s Hs) as (_ & _ & (Hle & Hline & Hlast)).
  cbn [started token_start_pos pos line last_newline] in *.
  destruct a as [ts p|b cl p|p|ts];
    cbn [perform started objects tokens stack end_char pos token_start_pos
         line last_newline progress] in Hr, Hp.
  - injection Hr as <-. split; [cbn; lia|split; assumption].
  - injection Hr as <-. split; [cbn; lia|split; assumption].
  - destruct (stack s) as [|[t e] rest]; [discriminate|].
    injection Hr as <-. split; [cbn; lia|split; assumption].
  - discriminate.
Qed.

Lemma tracked_reachable ssv su css skip_comments s :
  reachable ssv su css skip_comments s -> tracked css s.
Proof.
  apply (Reach.reachable_invariant ssv su css skip_comments (tracked css)).
  - split; [reflexivity|]. split; reflexivity.
  - intros s0 s' H0 _ Hi. eapply tracked_step; eassumption.
Qed.

Lemma line_column_ge css pos : 1 <= line_of css pos /\ 1 <= column_of css pos.
Proof.
  unfold line_of, column_of. split; [lia|].
  pose proof (rfind_count css 0 pos) as H.
  destruct (rfind LF css 0 pos); lia.
Qed.

End Lines.

(** ** Text without escapes *)

Module PlainFacts.
Import PlainText IdentSpec.

Lemma slice_first (css : str) (p n : nat) (P : Z -> Prop) :
  p + S n <= length css -> Forall P (slice css p (p + S n)) ->
  exists c, css !! p = Some c /\ P c /\ Forall P (slice css (p + 1) (p + 1 + n)).
Proof.
  intros Hlen H. destruct (idx_lt css p) as (c & Hc & _); [lia|].
  rewrite (NumberScan.slice_nonempty css p (p + S n) c Hc) in H by lia.
  apply List.Forall_cons_iff in H as [Hc' Hrest]. exists c.
  split; [assumption|]. split; [assumption|].
  replace (p + 1) with (S p) by lia. replace (S p + n) with (p + S n) by lia.
  assumption.
Qed.

(** the loop of [_consume_quoted_string] over characters it takes as
    they are *)
Lemma string_loop_skip css quote chunks start : forall n fuel p,
  p + n <= length css ->
  Forall (fun c => string_char quote c = true) (slice css p (p + n)) ->
  _consume_quoted_string_loop (n + fuel) css quote chunks start p
  = _consume_quoted_string_loop fuel css quote chunks start (p + n).
Proof.
  induction n as [|n IH]; intros fuel p Hlen Hall.
  - rewrite Nat.add_0_r. reflexivity.
  - destruct (slice_first css p n _ Hlen Hall) as (c & Hc & Hp & Hrest).
    cbn [Nat.add _consume_quoted_string_loop].
    rewrite (ltb_lt_length css p c Hc), (IdentFacts.idx_eq css p c Hc).
    cbn [bind]. unfold string_char in Hp.
    apply andb_prop in Hp as [Hp H3]. apply andb_prop in Hp as [H1 H2].
    apply negb_true_iff in H1, H2, H3. rewrite H1, H2, H3.
    rewrite IH by (assumption || lia). f_equal. lia.
Qed.

Lemma url_loop_skip css chunks start e : forall n fuel p,
  p + n <= length css ->
  Forall (fun c => url_char c = true) (slice css p (p + n)) ->
  _consume_url_loop (n + fuel) css chunks start p e
  = _consume_url_loop fuel css chunks start (p + n) e.
Proof.
  induction n as [|n IH]; intros fuel p Hlen Hall.
  - rewrite Nat.add_0_r. reflexivity.
  - destruct (slice_first css p n _ Hlen Hall) as (c & Hc & Hp & Hrest).
    cbn [Nat.add _consume_url_loop].
    assert (Hlt : (length css <=? p) = false) by (apply Nat.leb_gt; lia).
    rewrite Hlt, (IdentFacts.idx_eq css p c Hc).
    cbn [bind]. unfold url_char in Hp.
    apply andb_prop in Hp as [Hp H4]. apply andb_prop in Hp as [Hp H3].
    apply andb_prop in Hp as [H1 H2].
    apply negb_true_iff in H1, H2, H3, H4. rewrite H1, H2, H3, H4.
    cbn [andb]. rewrite IH by (assumption || lia). f_equal. lia.
Qed.

Lemma ident_loop_skip css chunks start : forall n fuel p,
  p + n <= length css ->
  Forall (fun c => name_char c = true) (slice css p (p + n)) ->
  _consume_ident_loop (n + fuel) css chunks start p
  = _consume_ident_loop fuel css chunks start (p + n).
Proof.
  induction n as [|n IH]; intros fuel p Hlen Hall.
  - rewrite Nat.add_0_r. reflexivity.
  - destruct (slice_first css p n _ Hlen Hall) as (c & Hc & Hp & Hrest).
    cbn [Nat.add _consume_ident_loop].
    rewrite (ltb_lt_length css p c Hc), (IdentFacts.idx_eq css p c Hc).
    cbn [bind]. unfold name_char, NAME in Hp. rewrite Hp.
    rewrite IH by (assumption || lia). f_equal. lia.
Qed.

Lemma concat_one (s : str) : concat ([] ++ [s]) = s.
Proof. simpl. apply app_nil_r. Qed.

Lemma skip_ws_stop css p : startswith_any WS css (skip_ws css p) = false.
Proof.
  unfold skip_ws, startswith_any.
  assert (Hgen : forall rest q,
            match rest !! (skip_in WS rest q - q) with
            | Some c => mem c WS = false
            | None => True
            end).
  { induction rest as [|x rest IH]; intros q; cbn [skip_in]; [exact I|].
    destruct (mem x WS) eqn:E.
    - specialize (IH (q + 1)). pose proof (skip_in_ge WS rest (q + 1)).
      replace (skip_in WS rest (q + 1) - q) with (S (skip_in WS rest (q + 1) - (q + 1)))
        by lia.
      exact IH.
    - rewrite Nat.sub_diag. exact E. }
  specialize (Hgen (drop p css) p).
  rewrite lookup_drop in Hgen.
  pose proof (skip_in_ge WS (drop p css) p).
  replace (p + (skip_in WS (drop p css) p - p)) with (skip_in WS (drop p css) p)
    in Hgen by lia.
  destruct (css !! skip_in WS (drop p css) p); [assumption|reflexivity].
Qed.

Lemma skip_ws_fix css p : startswith_any WS css p = false -> skip_ws css p = p.
Proof.
  unfold skip_ws, startswith_any. intros H.
  destruct (drop_cases css p) as [(Hn & _ & ->)|(c & Hc & _ & ->)];
    [reflexivity|].
  rewrite Hc in H. cbn [skip_in]. rewrite H. reflexivity.
Qed.

Lemma skip_ws_step css p c :
  css !! p = Some c -> mem c WS = true -> skip_ws css p = skip_ws css (p + 1).
Proof.
  unfold skip_ws. intros Hc Hm.
  destruct (drop_cases css p) as [(Hn & _)|(c' & Hc' & _ & ->)]; [congruence|].
  assert (c' = c) by congruence. subst c'. cbn [skip_in]. rewrite Hm.
  replace (p + 1) with (S p) by lia. reflexivity.
Qed.

End PlainFacts.

Module StringPlain.
Import PlainText PlainFacts.

Lemma closed css pos quote j :
  css !! pos = Some quote -> mem quote [DQUOTE; SQUOTE] = true -> pos < j ->
  Forall (fun c => string_char quote c = true) (slice css (pos + 1) j) ->
  css !! j = Some quote ->
  _consume_quoted_string css pos = Ok (Some (slice css (pos + 1) j), j + 1, None).
Proof.
  intros Hq Hm Hlt Hall Hj. pose proof (lookup_lt_Some _ _ _ Hj) as Hjl.
  unfold _consume_quoted_string.
  rewrite (IdentFacts.idx_eq _ _ _ Hq). cbn [bind]. rewrite Hm.
  cbn [bind assert].
  replace (length css) with ((j - (pos + 1)) + (length css - (j - (pos + 1))))
    at 1 by lia.
  replace j with (pos + 1 + (j - (pos + 1))) in Hall by lia.
  rewrite string_loop_skip by (assumption || lia).
  replace (pos + 1 + (j - (pos + 1))) with j by lia.
  destruct (length css - (j - (pos + 1))) as [|fuel] eqn:E; [lia|].
  cbn [_consume_quoted_string_loop].
  rewrite (ltb_lt_length css j quote Hj), (IdentFacts.idx_eq _ _ _ Hj).
  cbn [bind]. rewrite Z.eqb_refl, concat_one. reflexivity.
Qed.

Lemma unterminated css pos quote :
  css !! pos = Some quote -> mem quote [DQUOTE; SQUOTE] = true ->
  Forall (fun c => string_char quote c = true) (slice_from css (pos + 1)) ->
  _consume_quoted_string css pos
  = Ok (Some (slice_from css (pos + 1)), length css, Some eof_in_string).
Proof.
  intros Hq Hm Hall. pose proof (lookup_lt_Some _ _ _ Hq) as Hlt.
  assert (Hs : slice css (pos + 1) (length css) = slice_from css (pos + 1)).
  { unfold slice, slice_from. apply take_ge. rewrite length_drop. lia. }
  unfold _consume_quoted_string.
  rewrite (IdentFacts.idx_eq _ _ _ Hq). cbn [bind]. rewrite Hm.
  cbn [bind assert].
  replace (length css) with ((length css - (pos + 1)) + (pos + 1)) at 1 by lia.
  rewrite <- Hs in Hall.
  replace (length css) with (pos + 1 + (length css - (pos + 1))) in Hall at 1
    by lia.
  rewrite string_loop_skip by (assumption || lia).
  replace (pos + 1 + (length css - (pos + 1))) with (length css) by lia.
  assert (Hend : forall fuel chunks start,
            _consume_quoted_string_loop fuel css quote chunks start (length css)
            = Ok (Some (concat (chunks ++ [slice css start (length css)])),
                  length css, Some eof_in_string)).
  { intros fuel chunks start. destruct fuel; cbn [_consume_quoted_string_loop];
      rewrite Nat.ltb_irrefl; reflexivity. }
  rewrite Hend, concat_one, Hs. reflexivity.
Qed.

(** the iteration at a quote, from the result of [_consume_quoted_string] *)
Lemma dispatch_quote ssv su css skip_comments end_char line column pos quote r :
  css !! pos = Some quote -> mem quote [DQUOTE; SQUOTE] = true ->
  closing end_char ->
  _consume_quoted_string css pos = Ok r ->
  dispatch ssv su css skip_comments end_char line column pos quote
  = Ok (Append (string_tokens ssv line column (fst (fst r)) (snd r))
          (snd (fst r))).
Proof.
  intros Hq Hm Hend Hs.
  destruct (Punctuation.dispatch_plain ssv su css skip_comments end_char
              line column pos quote Hq) as [-> Hn].
  { mem_cases Hm; reflexivity. }
  unfold dispatch_rest. rewrite Hn. cbv zeta.
  assert (Hend' : match end_char with
                  | Some e => (quote =? e)%Z | None => false end = false).
  { unfold closing in Hend. destruct end_char as [e|]; [|reflexivity].
    apply Z.eqb_neq. intros <-. mem_cases Hm; discriminate Hend. }
  rewrite Hend', Hm, Hs. destruct r as [[v p] e]. cbn [bind fst snd].
  mem_cases Hm; reflexivity.
Qed.

End StringPlain.

Module UrlPlain.
Import PlainText PlainFacts.

Lemma url_char_not_quote c : url_char c = true -> mem c [DQUOTE; SQUOTE] = false.
Proof.
  unfold url_char. intros H. apply andb_prop in H as [_ H].
  apply negb_true_iff in H.
  destruct (mem c [DQUOTE; SQUOTE]) eqn:E; [|reflexivity].
  mem_cases E; vm_compute in H; discriminate H.
Qed.

Lemma ws_not_paren c : mem c WS = true -> (c =? ch ")")%Z = false.
Proof. intros H. mem_cases H; reflexivity. Qed.

Lemma plain_url css pos j :
  let p := skip_ws css pos in
  p <= j -> Forall (fun c => url_char c = true) (slice css p j) ->
  css !! skip_ws css j = Some (ch ")") ->
  _consume_url css pos = Ok (Some (slice css p j), skip_ws css j + 1, None).
Proof.
  cbv zeta. intros Hpj Hall Hk.
  pose proof (lookup_lt_Some _ _ _ Hk) as Hkl.
  pose proof (skip_ws_ge css j) as Hjk.
  assert (Hlt : (length css <=? skip_ws css pos) = false)
    by (apply Nat.leb_gt; lia).
  destruct (idx_lt css (skip_ws css pos)) as (c & Hc & Hi); [lia|].
  unfold _consume_url. cbv zeta. rewrite Hlt, Hi. cbn [bind].
  destruct (Nat.eq_dec (skip_ws css pos) j) as [<-|Hne].
  - (* nothing before the [)] *)
    rewrite (skip_ws_fix css (skip_ws css pos) (skip_ws_stop css pos)) in *.
    assert (c = ch ")") by congruence. subst c.
    change (mem (ch ")") [DQUOTE; SQUOTE]) with false. cbv iota.
    rewrite Z.eqb_refl. unfold slice. rewrite Nat.sub_diag. reflexivity.
  - assert (Hcp : url_char c = true).
    { rewrite (NumberScan.slice_nonempty css _ j c Hc) in Hall by lia.
      apply List.Forall_cons_iff in Hall as [Hcp _]. exact Hcp. }
    rewrite (url_char_not_quote c Hcp).
    assert (Hnp : (c =? ch ")")%Z = false).
    { unfold url_char in Hcp. repeat (apply andb_prop in Hcp as [Hcp _]).
      apply negb_true_iff in Hcp. exact Hcp. }
    rewrite Hnp.
    set (p := skip_ws css pos) in *.
    replace (S (length css)) with ((j - p) + (S (length css) - (j - p))) by lia.
    replace j with (p + (j - p)) in Hall by lia.
    rewrite url_loop_skip by (assumption || lia).
    replace (p + (j - p)) with j by lia.
    destruct (S (length css) - (j - p)) as [|fuel] eqn:E; [lia|].
    cbn [_consume_url_loop].
    assert (Hjl : (length css <=? j) = false) by (apply Nat.leb_gt; lia).
    destruct (idx_lt css j) as (d & Hd & Hdi); [lia|].
    rewrite Hjl, Hdi. cbn [bind].
    destruct (mem d WS) eqn:Hw.
    + rewrite (ws_not_paren d Hw). cbn [bind]. rewrite concat_one.
      unfold _consume_url_end.
      rewrite <- (skip_ws_step css j d Hd Hw).
      rewrite (ltb_lt_length css _ _ Hk), (IdentFacts.idx_eq _ _ _ Hk).
      cbn [bind]. rewrite Z.eqb_refl. reflexivity.
    + assert (Hfix : skip_ws css j = j).
      { apply skip_ws_fix. unfold startswith_any. rewrite Hd. exact Hw. }
      rewrite Hfix in *. assert (d = ch ")") by congruence. subst d.
      rewrite Z.eqb_refl. cbn [bind]. rewrite concat_one. reflexivity.
Qed.

End UrlPlain.

Module IdentPlain.
Import PlainText PlainFacts IdentSpec.

Lemma plain_ident css pos j :
  pos <= j -> j <= length css ->
  Forall (fun c => name_char c = true) (slice css pos j) ->
  match css !! j with
  | Some c => ident_first css j c = false
  | None => True
  end ->
  _consume_ident css pos = Ok (slice css pos j, j).
Proof.
  intros Hpj Hjl Hall Hstop. unfold _consume_ident.
  replace (length css) with ((j - pos) + (length css - (j - pos))) at 1 by lia.
  replace j with (pos + (j - pos)) in Hall by lia.
  rewrite ident_loop_skip by (assumption || lia).
  replace (pos + (j - pos)) with j by lia.
  destruct (drop_cases css j) as [(Hn & Hge & _)|(c & Hc & Hlt & _)].
  - assert (Hf : (j <? length css) = false) by (apply Nat.ltb_ge; lia).
    destruct (length css - (j - pos)); cbn [_consume_ident_loop];
      rewrite Hf, concat_one; reflexivity.
  - rewrite Hc in Hstop. unfold ident_first in Hstop.
    apply orb_false_iff in Hstop as [Hname Hesc].
    destruct (length css - (j - pos)) as [|fuel] eqn:E; [lia|].
    cbn [_consume_ident_loop].
    rewrite (ltb_lt_length css j c Hc), (IdentFacts.idx_eq _ _ _ Hc).
    cbn [bind]. unfold NAME in Hname. rewrite Hname, Hesc, concat_one.
    reflexivity.
Qed.

End IdentPlain.

(** ** Comments *)

Module CommentEnd.

Lemma find_in_some needle rest : forall i j,
  find_in needle rest i = Some j ->
  i <= j
  /\ is_prefix needle (drop (j - i) rest) = true
  /\ forall k, i <= k < j -> is_prefix needle (drop (k - i) rest) = false.
Proof.
  induction rest as [|c rest IH]; intros i j; cbn [find_in]; [discriminate|].
  destruct (is_prefix needle (c :: rest)) eqn:E.
  - intros [= <-]. rewrite Nat.sub_diag. split; [lia|]. split; [exact E|].
    intros k Hk. lia.
  - intros H. apply IH in H as (Hle & Hj & Hk). split; [lia|]. split.
    + replace (j - i) with (S (j - S i)) by lia. exact Hj.
    + intros k Hik. destruct (Nat.eq_dec k i) as [->|Hne].
      * rewrite Nat.sub_diag. exact E.
      * replace (k - i) with (S (k - S i)) by lia. apply Hk. lia.
Qed.

Lemma find_in_none a needle rest : forall i,
  find_in (a :: needle) rest i = None ->
  forall k, is_prefix (a :: needle) (drop k rest) = false.
Proof.
  induction rest as [|c rest IH]; intros i; cbn [find_in].
  - intros _ k. rewrite drop_nil. reflexivity.
  - destruct (is_prefix (a :: needle) (c :: rest)) eqn:E; [discriminate|].
    intros H [|k]; [exact E|]. exact (IH _ H k).
Qed.

Lemma find_some needle css start j :
  find needle css start = Some j ->
  start <= j
  /\ startswith needle css j = true
  /\ forall k, start <= k < j -> startswith needle css k = false.
Proof.
  unfold find, startswith. intros H.
  apply find_in_some in H as (Hle & Hj & Hk).
  rewrite drop_drop in Hj. replace (start + (j - start)) with j in Hj by lia.
  split; [assumption|]. split; [assumption|].
  intros k Hsk. specialize (Hk k Hsk). rewrite drop_drop in Hk.
  replace (start + (k - start)) with k in Hk by lia. assumption.
Qed.

Lemma find_none a needle css start :
  find (a :: needle) css start = None ->
  forall k, start <= k -> startswith (a :: needle) css k = false.
Proof.
  unfold find, startswith. intros H k Hk.
  pose proof (find_in_none a needle _ _ H (k - start)) as Hn.
  rewrite drop_drop in Hn. replace (start + (k - start)) with k in Hn by lia.
  assumption.
Qed.

Lemma startswith_lookup c prefix css pos :
  startswith (c :: prefix) css pos = true -> css !! pos = Some c.
Proof.
  unfold startswith.
  destruct (drop_cases css pos) as [(_ & _ & ->)|(d & Hd & _ & ->)];
    cbn [is_prefix]; [discriminate|].
  intros H. apply andb_prop in H as [H _]. apply Z.eqb_eq in H. congruence.
Qed.

Lemma dispatch_comment ssv su css skip_comments end_char line column pos :
  startswith (lit "/*") css pos = true -> closing end_char ->
  dispatch ssv su css skip_comments end_char line column pos (ch "/")
  = match find (lit "*/") css (pos + 2) with
    | None =>
        Ok (Break (if negb skip_comments
                   then [Comment line column (slice_from css (pos + 2))]
                   else []))
    | Some i =>
        Ok (Append (if negb skip_comments
                    then [Comment line column (slice css (pos + 2) i)]
                    else [])
              (i + 2))
    end.
Proof.
  intros Hs Hend.
  pose proof (startswith_lookup _ _ _ _ Hs) as Hc.
  destruct (Punctuation.dispatch_plain ssv su css skip_comments end_char
              line column pos (ch "/") Hc) as [-> Hn]; [reflexivity|].
  unfold dispatch_rest. rewrite Hn. cbv zeta.
  assert (Hend' : match end_char with
                  | Some e => (ch "/" =? e)%Z | None => false end = false).
  { unfold closing in Hend. destruct end_char as [e|]; [|reflexivity].
    apply Z.eqb_neq. intros <-. discriminate Hend. }
  rewrite Hend'.
  change (ch "/" =? ch "@")%Z with false.
  change (ch "/" =? ch "#")%Z with false.
  change (ch "/" =? ch "{")%Z with false.
  change (ch "/" =? ch "[")%Z with false.
  change (ch "/" =? ch "(")%Z with false.
  change (mem (ch "/") (lit "}])")) with false.
  change (mem (ch "/") [DQUOTE; SQUOTE]) with false.
  cbv iota. rewrite Hs. reflexivity.
Qed.

End CommentEnd.

(** ** Numbers: the integer value *)

Module NumberInt.
Import NumberFacts NumberScan.

Lemma In_slice (css : str) (a b k : nat) c :
  css !! k = Some c -> a <= k < b -> In c (slice css a b).
Proof.
  intros Hc Hk. unfold slice. apply list_elem_of_In.
  apply (list_elem_of_lookup_2 _ (k - a)).
  rewrite lookup_take_lt by lia. rewrite lookup_drop.
  replace (a + (k - a)) with k by lia. assumption.
Qed.

Lemma number_body_shape css p q g :
  number_body css p [] = Some (q, g) ->
  if any (groups_ css g)
  then exists k c, p <= k < q /\ css !! k = Some c /\ mem c (lit ".eE") = true
  else q = p + digits_from css p /\ 1 <= digits_from css p.
Proof.
  intros H. destruct (any (groups_ css g)) eqn:Hany;
    [|exact (number_body_int css p q g H Hany)].
  revert H. unfold number_body. cbv zeta. rewrite !leb1.
  destruct (negb _) eqn:E1.
  - intros [= H].
    unfold startswith_any in E1.
    destruct (css !! (p + digits_from css p)) as [c|] eqn:Hc; [|discriminate].
    destruct (mem c (lit ".")) eqn:Hm; [|discriminate].
    match type of H with
    | with_exponent ?c ?t ?g0 = _ =>
        pose proof (with_exponent_ge c t g0) as Hge; rewrite H in Hge
    end.
    cbn [fst] in Hge. exists (p + digits_from css p), c.
    split; [lia|]. split; [assumption|]. mem_cases Hm. reflexivity.
  - destruct (negb (digits_from css p <? 1)) eqn:E2; [|discriminate].
    intros [= H]. unfold with_exponent in H.
    destruct (exponent css (p + digits_from css p)) as [e|] eqn:Ee.
    + injection H as <- <-. pose proof Ee as Hb.
      apply exponent_bounds in Hb as (Hlt & c & Hc).
      unfold exponent, startswith_any in Ee. rewrite Hc in Ee.
      destruct (mem c (lit "eE")) eqn:Hm; [|discriminate].
      exists (p + digits_from css p), c. split; [lia|]. split; [assumption|].
      mem_cases Hm; reflexivity.
    + injection H as <- <-. discriminate Hany.
Qed.

Lemma number_scan_shape css pos q g :
  number_scan css pos = Some (q, g) ->
  if any (groups_ css g)
  then has_point_or_exponent (slice css pos q)
  else Forall (fun c => mem c (lit "-+0123456789") = true) (slice css pos q).
Proof.
  intros H. pose proof (number_scan_gt css pos q g H) as Hgt. revert H.
  unfold number_scan, startswith_any.
  destruct (css !! pos) as [c|] eqn:Hc.
  - destruct (mem c (lit "-+")) eqn:Hm; intros H;
      apply number_body_shape in H; destruct (any (groups_ css g)).
    + destruct H as (k & x & Hk & Hx & Hmx).
      assert (Hin : In x (slice css pos q)) by (eapply In_slice; [eassumption|lia]).
      unfold has_point_or_exponent. mem_cases Hmx; auto.
    + destruct H as [-> Hd].
      rewrite (slice_nonempty css pos _ c Hc) by lia.
      constructor; [mem_cases Hm; reflexivity|].
      destruct (digits_text css (S pos) Hd) as [_ Hall].
      eapply Forall_impl; [exact Hall|]. intros x Hx. cbv beta in Hx.
      mem_cases Hx; reflexivity.
    + destruct H as (k & x & Hk & Hx & Hmx).
      assert (Hin : In x (slice css pos q)) by (eapply In_slice; [eassumption|lia]).
      unfold has_point_or_exponent. mem_cases Hmx; auto.
    + destruct H as [-> Hd].
      destruct (digits_text css pos Hd) as [_ Hall].
      eapply Forall_impl; [exact Hall|]. intros x Hx. cbv beta in Hx.
      mem_cases Hx; reflexivity.
  - intros H. apply number_body_gt in H as Hlt.
    apply number_body_shape in H. destruct (any (groups_ css g)).
    + destruct H as (k & x & Hk & Hx & _). apply lookup_lt_Some in Hx.
      apply lookup_ge_None in Hc. lia.
    + destruct H as [_ Hd]. rewrite digits_from_end in Hd by assumption. lia.
Qed.

Lemma sign_digits_plain repr :
  Forall (fun c => mem c (lit "-+0123456789") = true) repr ->
  ~ has_point_or_exponent repr.
Proof.
  intros Hall [H|[H|H]]; rewrite List.Forall_forall in Hall;
    apply Hall in H; discriminate H.
Qed.

End NumberInt.

Module NumberDispatch.
Import NumberSpec NumberFacts NumberScan IdentFacts.

(** a number starts with a sign, a point or a digit, and after [-]
    comes a point or a digit *)
Lemma number_first css pos :
  number_start css pos = true ->
  exists c, css !! pos = Some c /\ mem c (lit "-+.0123456789") = true
    /\ (c = ch "-" ->
        exists c1, css !! (S pos) = Some c1 /\ mem c1 (lit ".0123456789") = true).
Proof.
  unfold number_start, after_sign, startswith_any. cbv zeta.
  destruct (css !! pos) as [c|] eqn:Hc.
  - destruct (mem c (lit "-+")) eqn:Hs.
    + intros H. exists c. split; [reflexivity|]. split.
      { mem_cases Hs; reflexivity. }
      intros _. destruct (css !! S pos) as [c1|]; [|discriminate H].
      exists c1. split; [reflexivity|].
      destruct (mem c1 DIGITS) eqn:Hd.
      * mem_cases Hd; reflexivity.
      * cbn [orb] in H. destruct (mem c1 (lit ".")) eqn:Hp; [|discriminate H].
        mem_cases Hp. reflexivity.
    + rewrite Hc. intros H. exists c. split; [reflexivity|]. split.
      * destruct (mem c DIGITS) eqn:Hd.
        { mem_cases Hd; reflexivity. }
        cbn [orb] in H. destruct (mem c (lit ".")) eqn:Hp; [|discriminate H].
        mem_cases Hp. reflexivity.
      * intros ->. discriminate Hs.
  - cbn [orb andb]. rewrite Hc. discriminate.
Qed.

Lemma _is_name_start_false css pos c :
  css !! pos = Some c -> mem c (lit "-+.0123456789") = true ->
  _is_name_start css pos = Ok false.
Proof.
  intros Hc Hm. rewrite (_is_name_start_ok _ _ _ Hc).
  mem_cases Hm; reflexivity.
Qed.

(** where a number starts, no earlier branch of the loop body is taken *)
Lemma dispatch_number ssv su css skip_comments end_char line column pos c :
  css !! pos = Some c -> match_ _NUMBER_RE css pos <> None ->
  dispatch ssv su css skip_comments end_char line column pos c
  = dispatch_rest ssv css skip_comments end_char line column pos c.
Proof.
  intros Hc Hm. apply NumberStart._NUMBER_RE_start in Hm.
  destruct (number_first css pos Hm) as (c' & Hc' & Hmem & Hminus).
  assert (c' = c) by congruence. subst c'.
  assert (Hident : _is_ident_start css pos = Ok false).
  { unfold _is_ident_start.
    rewrite (_is_name_start_false css pos c Hc Hmem). cbn [bind].
    rewrite (idx_eq _ _ _ Hc). cbn [bind].
    destruct (c =? ch "-")%Z eqn:Ed.
    - apply Z.eqb_eq in Ed. destruct (Hminus Ed) as (c1 & Hc1 & Hm1).
      replace (pos + 1) with (S pos) by lia.
      rewrite (ltb_lt_length css (S pos) c1 Hc1).
      rewrite (_is_name_start_false css (S pos) c1 Hc1)
        by (mem_cases Hm1; reflexivity).
      cbn [bind]. rewrite (idx_eq _ _ _ Hc1). cbn [bind].
      rewrite (Punctuation.startswith_first BACKSLASH [] css (S pos) c1 Hc1)
        by (intros <-; discriminate Hm1).
      mem_cases Hm1; reflexivity.
    - mem_cases Hmem; try discriminate Ed; reflexivity. }
  assert (Harrow : startswith (lit "-->") css pos = false).
  { destruct (c =? ch "-")%Z eqn:Ed.
    - apply Z.eqb_eq in Ed. destruct (Hminus Ed) as (c1 & Hc1 & Hm1).
      unfold startswith. rewrite (drop_S _ _ _ Hc), (drop_S _ _ _ Hc1).
      change (lit "-->") with [ch "-"; ch "-"; ch ">"]. cbn [is_prefix].
      replace (ch "-" =? c1)%Z with false by (mem_cases Hm1; reflexivity).
      rewrite andb_false_r. reflexivity.
    - change (lit "-->") with (ch "-" :: lit "->").
      apply (Punctuation.startswith_first (ch "-") _ css pos c Hc).
      intros <-. discriminate Ed. }
  unfold dispatch. cbv zeta.
  replace (mem c WS) with false by (mem_cases Hmem; reflexivity).
  replace (mem c (lit "Uu")) with false by (mem_cases Hmem; reflexivity).
  cbn [andb bind]. rewrite Harrow, Hident. reflexivity.
Qed.

End NumberDispatch.

(** ** Unicode ranges: the numbers *)

Module RangeValue.
Import RangeSpec RangeFacts RangeBudget SpanFacts.
Local Open Scope Z_scope.

Lemma int16_acc_app s t : forall acc,
  int16_acc acc (s ++ t) = let* v := int16_acc acc s in int16_acc v t.
Proof.
  induction s as [|c s IH]; intros acc; cbn [app int16_acc bind]; [reflexivity|].
  destruct (hex_digit c); [apply IH|reflexivity].
Qed.

Lemma int16_acc_zeros n : forall v,
  int16_acc v (replicate n (ch "0")) = Ok (v * 16 ^ Z.of_nat n).
Proof.
  induction n as [|n IH]; intros v.
  - cbn [replicate int16_acc]. f_equal. change (16 ^ Z.of_nat 0) with 1. lia.
  - cbn [replicate int16_acc]. change (hex_digit (ch "0")) with (Some 0).
    cbv iota. rewrite IH. f_equal.
    rewrite Nat2Z.inj_succ, Z.pow_succ_r by lia. lia.
Qed.

Lemma int16_acc_Fs n : forall v,
  int16_acc v (replicate n (ch "F"))
  = Ok (v * 16 ^ Z.of_nat n + 16 ^ Z.of_nat n - 1).
Proof.
  induction n as [|n IH]; intros v.
  - cbn [replicate int16_acc]. f_equal. change (16 ^ Z.of_nat 0) with 1. lia.
  - cbn [replicate int16_acc]. change (hex_digit (ch "F")) with (Some 15).
    cbv iota. rewrite IH. f_equal.
    rewrite Nat2Z.inj_succ, Z.pow_succ_r by lia. lia.
Qed.

Lemma int16_acc_bound s :
  Forall (fun c => mem c HEXDIGITS = true) s ->
  forall acc, 0 <= acc ->
  exists v, int16_acc acc s = Ok v
            /\ acc * 16 ^ Z.of_nat (length s) <= v
               < (acc + 1) * 16 ^ Z.of_nat (length s).
Proof.
  induction 1 as [|c s Hc Hs IH]; intros acc Hacc.
  - exists acc. split; [reflexivity|]. cbn [length].
    change (16 ^ Z.of_nat 0) with 1. lia.
  - cbn [int16_acc length]. destruct (hex_digit_mem c Hc) as (d & -> & Hd).
    destruct (IH (16 * acc + d) ltac:(lia)) as (v & Hv & Hb).
    exists v. split; [assumption|].
    rewrite Nat2Z.inj_succ, Z.pow_succ_r by lia.
    pose proof (Z.pow_pos_nonneg 16 (Z.of_nat (length s)) ltac:(lia) ltac:(lia)).
    nia.
Qed.

Lemma int16_nonempty c s : int16 (c :: s) = int16_acc 0 (c :: s).
Proof. reflexivity. Qed.

Lemma int16_app_replicate text n c :
  (0 < n)%nat -> int16 (text ++ replicate n c) = int16_acc 0 (text ++ replicate n c).
Proof.
  intros Hn. destruct text as [|x text]; [|reflexivity].
  destruct n; [lia|reflexivity].
Qed.

(** the hex digits read for [start], as text *)
Lemma hex_text css pos :
  let text := slice css pos (pos + hex_count css pos) in
  Forall (fun c => mem c HEXDIGITS = true) text
  /\ length text = hex_count css pos.
Proof.
  cbv zeta. rewrite EscapeProps.slice_add. unfold hex_count. split.
  - eapply Forall_impl; [apply span_all|]. intros x. apply hex_HEXDIGITS.
  - rewrite length_take.
    pose proof (span_le_length HEX (Some 6%nat) (drop pos css)). lia.
Qed.

End RangeValue.

(** ** Positions stay within the input *)

Module Bounds.
Import NumberSpec NumberFacts NumberScan ReSpec SpanFacts.

Ltac case_if H :=
  match type of H with
  | (if ?b then _ else _) = _ => let E := fresh "E" in destruct b eqn:E
  end.

Ltac case_bind H :=
  match type of H with
  | bind ?m _ = _ =>
      let E := fresh "E" in
      destruct m eqn:E; cbn [bind] in H; [|discriminate H|discriminate H]
  end.

Ltac case_pair H :=
  repeat match type of H with
         | context [match ?x with (_, _) => _ end] => is_var x; destruct x
         end.

Lemma startswith_le a prefix : forall css pos,
  startswith (a :: prefix) css pos = true ->
  pos + length (a :: prefix) <= length css.
Proof.
  unfold startswith. intros css pos H.
  assert (Hp : forall p s, is_prefix p s = true -> length p <= length s).
  { induction p as [|b p IH]; intros [|d s]; cbn [is_prefix length];
      try lia; try discriminate.
    intros Hx. apply andb_prop in Hx as [_ Hx]. apply IH in Hx. lia. }
  apply Hp in H. rewrite length_drop in H. cbn [length] in *. lia.
Qed.

Lemma startswith_bound prefix css pos n :
  startswith prefix css pos = true -> length prefix = S n ->
  pos + S n <= length css.
Proof.
  intros H Hn. destruct prefix as [|a prefix]; [discriminate Hn|].
  apply startswith_le in H. lia.
Qed.

Lemma startswith_any_lt chars css pos :
  startswith_any chars css pos = true -> pos < length css.
Proof.
  unfold startswith_any. destruct (css !! pos) eqn:E; [|discriminate].
  intros _. eapply lookup_lt_Some. eassumption.
Qed.

Lemma skip_ws_le css pos : pos <= length css -> skip_ws css pos <= length css.
Proof.
  intros Hp. unfold skip_ws.
  pose proof (skip_in_le WS (drop pos css) pos) as H.
  rewrite length_drop in H. lia.
Qed.

Lemma _consume_escape_le css pos c p :
  pos <= length css -> _consume_escape css pos = Ok (c, p) -> p <= length css.
Proof.
  intros Hp H.
  destruct (EscapeProps._consume_escape_spec css pos) as (c' & p' & He & Hs).
  rewrite H in He. injection He as <- <-.
  destruct (css !! pos) as [x|] eqn:Hx.
  - pose proof (lookup_lt_Some _ _ _ Hx).
    destruct (mem x HEXDIGITS).
    + destruct Hs as (n & cp & Hn & Hle & _ & _ & _ & -> & _).
      destruct (startswith_any WS css (pos + n)) eqn:E; [|assumption].
      apply startswith_any_lt in E. lia.
    + destruct Hs as [_ ->]. lia.
  - destruct Hs as [_ ->]. assumption.
Qed.

Lemma _consume_ident_loop_le fuel : forall css chunks start pos v p,
  pos <= length css ->
  _consume_ident_loop fuel css chunks start pos = Ok (v, p) -> p <= length css.
Proof.
  induction fuel as [|fuel IH]; intros css chunks start pos v p Hp H;
    cbn [_consume_ident_loop] in H;
    destruct (pos <? length css) eqn:El;
    try discriminate H; try (injection H as _ <-; assumption).
  apply Nat.ltb_lt in El. case_bind H. case_if H.
  - eapply IH; [|exact H]. lia.
  - case_if H.
    + case_bind H. case_pair H.
      eapply IH; [|exact H].
      eapply _consume_escape_le; [|eassumption]. lia.
    + injection H as _ <-. assumption.
Qed.

Lemma _consume_ident_le css pos v p :
  pos <= length css -> _consume_ident css pos = Ok (v, p) -> p <= length css.
Proof. intros Hp. apply _consume_ident_loop_le. assumption. Qed.

Lemma _consume_quoted_string_loop_le fuel :
  forall css quote chunks start pos v p e,
    pos <= length css ->
    _consume_quoted_string_loop fuel css quote chunks start pos = Ok (v, p, e) ->
    p <= length css.
Proof.
  induction fuel as [|fuel IH]; intros css quote chunks start pos v p e Hp H;
    cbn [_consume_quoted_string_loop] in H;
    destruct (pos <? length css) eqn:El;
    try discriminate H; try (injection H as _ <- _; assumption).
  apply Nat.ltb_lt in El. case_bind H. case_if H.
  { injection H as _ <- _. lia. }
  case_if H.
  - destruct (pos + 1 <? length css) eqn:El1.
    + apply Nat.ltb_lt in El1. case_bind H. case_if H.
      * eapply IH; [|exact H]. lia.
      * case_bind H. case_pair H.
        eapply IH; [|exact H].
        eapply _consume_escape_le; [|eassumption]. lia.
    + eapply IH; [|exact H]. lia.
  - case_if H.
    + injection H as _ <- _. assumption.
    + eapply IH; [|exact H]. lia.
Qed.

Lemma _consume_quoted_string_le css pos v p e :
  _consume_quoted_string css pos = Ok (v, p, e) -> p <= length css.
Proof.
  unfold _consume_quoted_string. intros H. case_bind H.
  unfold idx in E. destruct (css !! pos) eqn:Hc; [|discriminate E].
  apply lookup_lt_Some in Hc. case_bind H.
  eapply _consume_quoted_string_loop_le; [|exact H]. lia.
Qed.

Lemma _consume_url_loop_le fuel : forall css chunks start pos err r,
  pos <= length css ->
  _consume_url_loop fuel css chunks start pos err = Ok r ->
  match r with
  | UrlReturn (_, p, _) => p <= length css
  | UrlBreak _ p => p <= length css
  end.
Proof.
  induction fuel as [|fuel IH]; intros css chunks start pos err r Hp H;
    cbn [_consume_url_loop] in H; [discriminate H|].
  destruct (length css <=? pos) eqn:El.
  { injection H as <-. assumption. }
  apply Nat.leb_gt in El. case_bind H. case_if H.
  { injection H as <-. lia. }
  case_if H.
  { injection H as <-. lia. }
  case_if H.
  - case_bind H. case_pair H.
    eapply IH; [|exact H]. eapply _consume_escape_le; [|eassumption]. lia.
  - case_if H.
    + injection H as <-. lia.
    + eapply IH; [|exact H]. lia.
Qed.

Lemma _consume_url_remnants_le fuel : forall css pos p,
  pos <= length css -> _consume_url_remnants fuel css pos = Ok p ->
  p <= length css.
Proof.
  induction fuel as [|fuel IH]; intros css pos p Hp H;
    cbn [_consume_url_remnants] in H;
    destruct (pos <? length css) eqn:El;
    try discriminate H; try (injection H as <-; assumption).
  apply Nat.ltb_lt in El. case_if H.
  - apply startswith_le in E. cbn [length] in E.
    eapply IH; [|exact H]. lia.
  - case_bind H. case_if H.
    + injection H as <-. lia.
    + eapply IH; [|exact H]. lia.
Qed.

Lemma _consume_url_end_le css value pos err v p e :
  pos <= length css ->
  _consume_url_end css value pos err = Ok (v, p, e) -> p <= length css.
Proof.
  intros Hp H. unfold _consume_url_end in H.
  pose proof (skip_ws_le css pos Hp) as Hws.
  assert (Hrem : forall q,
            q <= length css ->
            (let* pos0 := _consume_url_remnants (length css) css q in
             Ok (None, pos0, Some bad_url)) = Ok (v, p, e) ->
            p <= length css).
  { intros q Hq Hx. case_bind Hx. injection Hx as _ <- _.
    eapply _consume_url_remnants_le; eassumption. }
  destruct value as [val|]; cbn [bind] in H.
  - destruct (skip_ws css pos <? length css) eqn:El.
    + apply Nat.ltb_lt in El. case_bind H. case_bind E. case_if E.
      * injection E as <-. injection H as _ <- _. lia.
      * injection E as <-. eapply Hrem; [|exact H]. lia.
    + cbn [bind] in H. injection H as _ <- _. assumption.
  - eapply Hrem; [|exact H]. assumption.
Qed.

Lemma _consume_url_le css pos v p e :
  pos <= length css -> _consume_url css pos = Ok (v, p, e) -> p <= length css.
Proof.
  intros Hp H. unfold _consume_url in H. cbv zeta in H.
  pose proof (skip_ws_le css pos Hp) as Hws.
  destruct (length css <=? skip_ws css pos) eqn:El.
  { injection H as _ <- _. assumption. }
  apply Nat.leb_gt in El. case_bind H. case_if H.
  - case_bind H. case_pair H.
    eapply _consume_url_end_le; [|exact H].
    eapply _consume_quoted_string_le. eassumption.
  - case_if H.
    + injection H as _ <- _. lia.
    + case_bind H.
      pose proof (_consume_url_loop_le _ _ _ _ _ _ _ Hws E2) as Hb.
      destruct a0 as [[[v' p'] e']|val q].
      * injection H as _ <- _. assumption.
      * eapply _consume_url_end_le; [|exact H]. assumption.
Qed.

Lemma _consume_unicode_range_le css pos s e p :
  pos <= length css -> _consume_unicode_range css pos = Ok (s, e, p) ->
  p <= length css.
Proof.
  intros Hp. unfold _consume_unicode_range. fold RangeSpec.HEX. cbv zeta.
  set (max_pos := Nat.min (pos + 6) (length css)).
  destruct (RangeFacts.slice_skip_in RangeSpec.HEX css pos max_pos)
    as (_ & _ & H3 & _).
  specialize (H3 Hp).
  set (p1 := skip_in RangeSpec.HEX (slice css pos max_pos) pos) in *.
  destruct (RangeFacts.slice_skip_in [ch "?"] css p1 max_pos) as (_ & _ & Q3 & _).
  specialize (Q3 H3).
  set (p2 := skip_in [ch "?"] (slice css p1 max_pos) p1) in *.
  intros H. case_if H.
  - case_bind H. case_bind H. injection H as _ _ <-. assumption.
  - case_bind H. case_if H.
    + case_bind H. case_bind H. injection H as _ _ <-.
      destruct (p2 + 1 <? length css) eqn:El; [|discriminate E0].
      apply Nat.ltb_lt in El.
      destruct (RangeFacts.slice_skip_in RangeSpec.HEX css (p2 + 1)
                  (Nat.min (p2 + 1 + 6) (length css))) as (_ & _ & R3 & _).
      apply R3. lia.
    + case_bind H. injection H as _ _ <-. assumption.
Qed.

Lemma digits_from_le css p : p <= length css -> p + digits_from css p <= length css.
Proof.
  intros Hp. unfold digits_from.
  pose proof (span_le_length DIGITS None (drop p css)) as H.
  rewrite length_drop in H. lia.
Qed.

Lemma with_exponent_le css t g :
  t <= length css -> fst (with_exponent css t g) <= length css.
Proof.
  intros Ht. unfold with_exponent, exponent.
  destruct (startswith_any (lit "eE") css t) eqn:E1; [|assumption].
  apply startswith_any_lt in E1.
  destruct (startswith_any (lit "+-") css (S t)) eqn:E2.
  - apply startswith_any_lt in E2.
    pose proof (digits_from_le css (S (S t)) ltac:(lia)).
    destruct (digits_from css (S (S t)) <? 1); cbn [fst]; lia.
  - pose proof (digits_from_le css (S t) ltac:(lia)).
    destruct (digits_from css (S t) <? 1); cbn [fst]; lia.
Qed.

Lemma number_body_le css p g q g' :
  p <= length css -> number_body css p g = Some (q, g') -> q <= length css.
Proof.
  intros Hp. unfold number_body. cbv zeta.
  pose proof (digits_from_le css p Hp) as Hd.
  destruct (startswith_any (lit ".") css (p + digits_from css p)) eqn:E.
  - apply startswith_any_lt in E.
    pose proof (digits_from_le css (S (p + digits_from css p)) ltac:(lia)) as Hf.
    destruct (1 <=? digits_from css (S (p + digits_from css p))).
    + intros [= H].
      match type of H with
      | with_exponent ?c ?t ?g0 = _ =>
          pose proof (with_exponent_le c t g0 ltac:(lia)) as Hle;
          rewrite H in Hle
      end.
      exact Hle.
    + destruct (1 <=? digits_from css p); [|discriminate].
      intros [= H].
      pose proof (with_exponent_le css (p + digits_from css p) g Hd) as Hle.
      rewrite H in Hle. exact Hle.
  - change (1 <=? 0) with false. cbv iota.
    destruct (1 <=? digits_from css p); [|discriminate].
    intros [= H].
    pose proof (with_exponent_le css (p + digits_from css p) g Hd) as Hle.
    rewrite H in Hle. exact Hle.
Qed.

Lemma number_scan_le css pos q g :
  pos <= length css -> number_scan css pos = Some (q, g) -> q <= length css.
Proof.
  intros Hp. unfold number_scan.
  destruct (startswith_any (lit "-+") css pos) eqn:E.
  - apply startswith_any_lt in E. apply number_body_le. lia.
  - apply number_body_le. assumption.
Qed.

End Bounds.

Module DispatchBounds.
Import Bounds.

Ltac use_tests :=
  repeat match goal with
         | H : startswith _ _ _ = true |- _ =>
             eapply startswith_bound in H; [|vm_compute; reflexivity]
         | H : find _ _ _ = Some _ |- _ =>
             apply CommentEnd.find_some in H as (_ & H & _)
         | H : negb _ = false |- _ => apply negb_false_iff in H
         | H : (_ <? _) = true |- _ => apply Nat.ltb_lt in H
         end.

Ltac clear_bools :=
  repeat match goal with H : @eq bool _ _ |- _ => clear H end.

Ltac use_consumers :=
  repeat match goal with
         | H : _consume_ident _ _ = Ok _ |- _ =>
             apply _consume_ident_le in H; [|lia]
         | H : _consume_quoted_string _ _ = Ok _ |- _ =>
             apply _consume_quoted_string_le in H
         | H : _consume_url _ _ = Ok _ |- _ =>
             apply _consume_url_le in H; [|lia]
         | H : _consume_unicode_range _ _ = Ok _ |- _ =>
             apply _consume_unicode_range_le in H; [|lia]
         end.

Ltac bound := cbn [within]; use_tests; clear_bools; use_consumers; lia.

Lemma dispatch_rest_within ssv css skip_comments end_char line column pos c a :
  css !! pos = Some c ->
  dispatch_rest ssv css skip_comments end_char line column pos c = Ok a ->
  within css a.
Proof.
  intros Hc. pose proof (lookup_lt_Some _ _ _ Hc) as Hlt.
  unfold dispatch_rest. cbv zeta. intros H.
  destruct (match_ _NUMBER_RE css pos) as [[q g]|] eqn:Hn.
  { rewrite NumberFacts._NUMBER_RE_scan in Hn.
    apply number_scan_le in Hn; [|lia].
    inv_all; bound. }
  destruct (c =? ch "@")%Z; [inv_all; bound|].
  destruct (c =? ch "#")%Z; [inv_all; bound|].
  destruct (c =? ch "{")%Z; [inv_all; bound|].
  destruct (c =? ch "[")%Z; [inv_all; bound|].
  destruct (c =? ch "(")%Z; [inv_all; bound|].
  destruct (match end_char with Some e => (c =? e)%Z | None => false end);
    [inv_all; bound|].
  destruct (mem c (lit "}])")); [inv_all; bound|].
  destruct (mem c [DQUOTE; SQUOTE]); [inv_all; bound|].
  destruct skip_comments; inv_all; bound.
Qed.

Lemma dispatch_within ssv su css skip_comments end_char line column pos c a :
  css !! pos = Some c ->
  dispatch ssv su css skip_comments end_char line column pos c = Ok a ->
  within css a.
Proof.
  intros Hc. pose proof (lookup_lt_Some _ _ _ Hc) as Hlt.
  unfold dispatch. cbv zeta. intros H.
  destruct (mem c WS).
  { injection H as <-. cbn [within]. apply skip_ws_le. lia. }
  match type of H with bind ?m _ = _ => destruct m as [[|]| |] eqn:Hrange end;
    cbn [bind] in H; try discriminate H.
  { assert (Hp : pos + 2 < length css).
    { destruct (mem c (lit "Uu") && (pos + 2 <? length css)) eqn:E;
        [|discriminate Hrange].
      apply andb_prop in E as [_ E]. apply Nat.ltb_lt in E. exact E. }
    inv_all; bound. }
  clear Hrange.
  destruct (startswith (lit "-->") css pos) eqn:Earrow; [inv_all; bound|].
  destruct (_is_ident_start css pos) as [[|]| |]; cbn [bind] in H;
    try discriminate H; [|eapply dispatch_rest_within; eassumption].
  destruct (_consume_ident css pos) as [[v p]| |] eqn:Hident; cbn [bind] in H;
    try discriminate H.
  apply _consume_ident_le in Hident; [|lia].
  destruct (startswith (lit "(") css p) eqn:Eparen; cbn [negb] in H;
    [|inv_all; bound].
  eapply startswith_bound in Eparen; [|vm_compute; reflexivity].
  match type of H with bind ?m _ = _ => destruct m as [[|]| |] end;
    cbn [bind] in H; try discriminate H; inv_all; bound.
Qed.

Lemma iteration_within ssv su css skip_comments s s' :
  iteration ssv su css skip_comments s = Ok (inl s') ->
  s.(pos) < s'.(pos) <= length css /\ s'.(token_start_pos) = s.(pos).
Proof.
  intros Hi. apply iteration_inv in Hi as (c & a & Hc & Hd & Hr).
  pose proof (dispatch_within _ _ _ _ _ _ _ _ _ _ Hc Hd) as Hw.
  pose proof (dispatch_progress _ _ _ _ _ _ _ _ _ _ Hc Hd) as Hp.
  destruct a as [ts p|b cl p|p|ts];
    cbn [perform started objects tokens stack end_char pos token_start_pos
         line last_newline within progress] in Hr, Hw, Hp.
  - injection Hr as <-. cbn [pos token_start_pos]. lia.
  - injection Hr as <-. cbn [pos token_start_pos]. lia.
  - destruct (stack s) as [|[t e] rest]; [discriminate|].
    injection Hr as <-. cbn [pos token_start_pos]. lia.
  - discriminate.
Qed.

End DispatchBounds.

(** ** How the loop is left *)

Module LoopEnd.

Lemma dispatch_rest_break ssv css skip_comments end_char line column pos c ts :
  dispatch_rest ssv css skip_comments end_char line column pos c
  = Ok (Break ts) ->
  startswith (lit "/*") css pos = true
  /\ find (lit "*/") css (pos + 2) = None.
Proof.
  unfold dispatch_rest. cbv zeta. intros H.
  destruct (match_ _NUMBER_RE css pos) as [[q g]|]; [inv_all|].
  destruct (c =? ch "@")%Z; [inv_all|].
  destruct (c =? ch "#")%Z; [inv_all|].
  destruct (c =? ch "{")%Z; [inv_all|].
  destruct (c =? ch "[")%Z; [inv_all|].
  destruct (c =? ch "(")%Z; [inv_all|].
  destruct (match end_char with Some e => (c =? e)%Z | None => false end);
    [inv_all|].
  destruct (mem c (lit "}])")); [inv_all|].
  destruct (mem c [DQUOTE; SQUOTE]); [inv_all|].
  destruct (startswith (lit "/*") css pos); [|inv_all].
  destruct (find (lit "*/") css (pos + 2)); [inv_all|].
  split; reflexivity.
Qed.

Lemma dispatch_break ssv su css skip_comments end_char line column pos c ts :
  dispatch ssv su css skip_comments end_char line column pos c = Ok (Break ts) ->
  startswith (lit "/*") css pos = true
  /\ find (lit "*/") css (pos + 2) = None.
Proof.
  unfold dispatch. cbv zeta. intros H.
  destruct (mem c WS); [inv_all|].
  match type of H with bind ?m _ = _ => destruct m as [[|]| |] end;
    cbn [bind] in H; try discriminate H; [inv_all|].
  destruct (startswith (lit "-->") css pos); [inv_all|].
  destruct (_is_ident_start css pos) as [[|]| |]; cbn [bind] in H;
    try discriminate H; [|eapply dispatch_rest_break; eassumption].
  destruct (_consume_ident css pos) as [[v p]| |]; cbn [bind] in H;
    try discriminate H.
  destruct (negb (startswith (lit "(") css p)); [inv_all|].
  match type of H with bind ?m _ = _ => destruct m as [[|]| |] end;
    cbn [bind] in H; try discriminate H; inv_all.
Qed.

(** the loop is left at the end of the input or by the [break] of an
    iteration *)
Lemma loop_end ssv su css skip_comments fuel : forall s f,
  s.(pos) <= length css ->
  loop ssv su fuel css skip_comments s = Ok f ->
  f.(final_pos) = Z.of_nat (length css)
  \/ exists s0, s0.(pos) < length css
                /\ iteration ssv su css skip_comments s0 = Ok (inr f).
Proof.
  induction fuel as [|fuel IH]; intros s f Hle; cbn [loop].
  - destruct (pos s <? length css) eqn:E; [discriminate|].
    apply Nat.ltb_ge in E. intros [= <-]. left. cbn. f_equal. lia.
  - destruct (pos s <? length css) eqn:E.
    + apply Nat.ltb_lt in E.
      destruct (iteration ssv su css skip_comments s) as [[s1|f1]| |] eqn:Hi;
        cbn [bind]; try discriminate.
      * apply IH. apply DispatchBounds.iteration_within in Hi. lia.
      * intros [= <-]. right. exists s. split; assumption.
    + apply Nat.ltb_ge in E. intros [= <-]. left. cbn. f_equal. lia.
Qed.

End LoopEnd.

(** ** Names are not empty *)

Module IdentValue.
Import Bounds IdentSpec.

Lemma length_concat_snoc (chunks : list str) (x : str) :
  length (concat (chunks ++ [x])) = length (concat chunks) + length x.
Proof. rewrite concat_app, length_app. cbn [concat]. rewrite app_nil_r. reflexivity. Qed.

Lemma _consume_ident_loop_length fuel : forall css chunks start pos v p,
  start <= pos <= length css ->
  _consume_ident_loop fuel css chunks start pos = Ok (v, p) ->
  length (concat chunks) + (pos - start) <= length v.
Proof.
  induction fuel as [|fuel IH]; intros css chunks start pos v p Hp H;
    cbn [_consume_ident_loop] in H;
    destruct (pos <? length css) eqn:El;
    try discriminate H;
    try (injection H as <- _; rewrite length_concat_snoc, slice_length; lia).
  apply Nat.ltb_lt in El. case_bind H. case_if H.
  - apply IH in H; lia.
  - case_if H.
    + case_bind H. case_pair H.
      match goal with
      | He : _consume_escape _ _ = Ok _ |- _ =>
          apply _consume_escape_le in He; [|lia]
      end.
      apply IH in H; [|lia].
      rewrite !length_concat_snoc, slice_length in H by lia.
      cbn [length] in H. lia.
    + injection H as <- _. rewrite length_concat_snoc, slice_length; lia.
Qed.

Lemma _consume_ident_nonempty css pos c v p :
  css !! pos = Some c -> ident_first css pos c = true ->
  _consume_ident css pos = Ok (v, p) -> 1 <= length v.
Proof.
  intros Hc Hf H. pose proof (lookup_lt_Some _ _ _ Hc) as Hlt.
  unfold _consume_ident in H. revert H. generalize (length css) at 1.
  intros fuel H. destruct fuel as [|fuel]; cbn [_consume_ident_loop] in H;
    rewrite (ltb_lt_length css pos c Hc) in H; [discriminate H|].
  rewrite (IdentFacts.idx_eq _ _ _ Hc) in H.
  cbn [bind] in H. unfold ident_first, NAME in Hf. case_if H.
  - apply _consume_ident_loop_length in H; [|lia]. cbn [concat length] in H. lia.
  - cbn [orb] in Hf. rewrite Hf in H.
    case_bind H. case_pair H.
    match goal with
    | He : _consume_escape _ _ = Ok _ |- _ =>
        apply _consume_escape_le in He; [|lia]
    end.
    apply _consume_ident_loop_length in H; [|lia].
    rewrite !length_concat_snoc in H. cbn [length concat] in H. lia.
Qed.

End IdentValue.

(** ** The pattern of numbers as a scan *)

Module NumberMatch.
Import NumberSpec NumberFacts NumberScan.

Lemma number_scan_lt css pos q g :
  number_scan css pos = Some (q, g) -> pos < length css.
Proof.
  intros H. destruct (css !! pos) as [c|] eqn:Hc;
    [eapply lookup_lt_Some; eassumption|].
  exfalso. revert H. unfold number_scan, startswith_any. rewrite Hc.
  intros H. apply NumberInt.number_body_shape in H.
  destruct (any (groups_ css g)).
  - destruct H as (k & x & Hk & Hx & _). apply lookup_lt_Some in Hx.
    apply lookup_ge_None in Hc. lia.
  - destruct H as [_ Hd]. rewrite digits_from_end in Hd by assumption. lia.
Qed.

End NumberMatch.

(** ** The cause of every parse error *)

Module Causes.

Ltac cause_trivial :=
  cbn [appended app];
  repeat first [apply List.Forall_nil
               | apply List.Forall_cons; [exact I|]].

Section Dispatch.

Variable serialize_string_value : str -> str.
Variable serialize_url : str -> str.

Lemma eqb_str_eq (a : str) : forall b, eqb_str a b = true -> a = b.
Proof.
  induction a as [|x a IH]; intros [|y b] H; cbn [eqb_str] in H;
    try discriminate H; [reflexivity|].
  apply andb_prop in H as [Hx Hr]. apply Z.eqb_eq in Hx. subst y.
  f_equal. apply IH. assumption.
Qed.

Lemma string_tokens_caused css end_char pos c line column value p error_ :
  mem c [DQUOTE; SQUOTE] = true ->
  _consume_quoted_string css pos = Ok (value, p, error_) ->
  Forall (caused css end_char pos c)
    (string_tokens serialize_string_value line column value error_).
Proof.
  unfold string_tokens. intros Hm Hs.
  destruct value as [v|], error_ as [[k m]|];
    cbn [app]; repeat (apply List.Forall_cons || apply List.Forall_nil);
    try exact I; cbn [caused]; right; left; (split; [exact Hm|]); eauto.
Qed.

Lemma url_tokens_caused css end_char pos c line column name q value p error_
    ts :
  _is_ident_start css pos = Ok true ->
  _consume_ident css pos = Ok (name, q) ->
  startswith (lit "(") css q = true ->
  ascii_lower name = Ok (lit "url") ->
  _consume_url css (q + 1) = Ok (value, p, error_) ->
  url_tokens serialize_url line column value error_ = Ok ts ->
  Forall (caused css end_char pos c) ts.
Proof.
  unfold url_tokens. intros Hs Hi Hp Hl Hu H.
  destruct value as [v|], error_ as [[k m]|];
    inv_all; cbn [app];
    repeat (apply List.Forall_cons || apply List.Forall_nil);
    try exact I; cbn [caused]; right; right;
    exists name, q; eauto 10.
Qed.

Lemma dispatch_rest_caused css skip_comments end_char line column pos c a :
  dispatch_rest serialize_string_value css skip_comments end_char line column
    pos c = Ok a ->
  Forall (caused css end_char pos c) (appended a).
Proof.
  unfold dispatch_rest. cbv zeta. intros H.
  destruct (match_ _NUMBER_RE css pos) as [[q g]|] eqn:Hn.
  { inv_all; cause_trivial. }
  destruct (c =? ch "@")%Z; [inv_all; cause_trivial|].
  destruct (c =? ch "#")%Z; [inv_all; cause_trivial|].
  destruct (c =? ch "{")%Z; [inv_all; cause_trivial|].
  destruct (c =? ch "[")%Z; [inv_all; cause_trivial|].
  destruct (c =? ch "(")%Z; [inv_all; cause_trivial|].
  destruct (match end_char with Some e => (c =? e)%Z | None => false end)
    eqn:Hend; [inv_all; cause_trivial|].
  destruct (mem c (lit "}])")) eqn:Hm.
  { inv_all. cbn [appended]. apply List.Forall_cons; [|apply List.Forall_nil].
    cbn [caused]. left. split; [exact Hm|]. split; [|split; reflexivity].
    intros ->. rewrite Z.eqb_refl in Hend. discriminate Hend. }
  destruct (mem c [DQUOTE; SQUOTE]) eqn:Hq.
  { destruct (_consume_quoted_string css pos) as [[[v p] e]| |] eqn:Hs;
      cbn [bind] in H; try discriminate H.
    injection H as <-. cbn [appended].
    eapply string_tokens_caused; [exact Hq|exact Hs]. }
  destruct skip_comments; inv_all; cause_trivial.
Qed.

Lemma dispatch_caused css skip_comments end_char line column pos c a :
  dispatch serialize_string_value serialize_url css skip_comments end_char
    line column pos c = Ok a ->
  Forall (caused css end_char pos c) (appended a).
Proof.
  unfold dispatch. cbv zeta. intros H.
  destruct (mem c WS); [inv_all; cause_trivial|].
  match type of H with bind ?m _ = _ => destruct m as [[|]| |] end;
    cbn [bind] in H; try discriminate H.
  { inv_all; cause_trivial. }
  destruct (startswith (lit "-->") css pos); [inv_all; cause_trivial|].
  destruct (_is_ident_start css pos) as [[|]| |] eqn:Hstart; cbn [bind] in H;
    try discriminate H; [|eapply dispatch_rest_caused; eassumption].
  destruct (_consume_ident css pos) as [[v p]| |] eqn:Hident; cbn [bind] in H;
    try discriminate H.
  destruct (startswith (lit "(") css p) eqn:Hparen; cbn [negb] in H;
    [|inv_all; cause_trivial].
  destruct (ascii_lower v) as [lower| |] eqn:Hlower; cbn [bind] in H;
    try discriminate H.
  destruct (eqb_str lower (lit "url")) eqn:Hurl;
    [|cbn [bind] in H; inv_all; cause_trivial].
  apply eqb_str_eq in Hurl. subst lower.
  match type of H with bind ?m _ = _ => destruct m as [[|]| |] eqn:Hu end;
    cbn [bind] in H; try discriminate H; [|inv_all; cause_trivial].
  destruct (_consume_url css (p + 1)) as [[[value p'] err]| |] eqn:Hr;
    cbn [bind] in H; try discriminate H.
  destruct (url_tokens serialize_url line column value err) as [ts| |] eqn:Ht;
    cbn [bind] in H; try discriminate H.
  injection H as <-. cbn [appended].
  eapply url_tokens_caused; eassumption.
Qed.

End Dispatch.

End Causes.

(** ** Where the parse errors are *)

Module Located.
Import OpenBlocks.

Section Run.

Variable serialize_string_value : str -> str.
Variable serialize_url : str -> str.
Variable css : str.
Variable skip_comments : bool.

Let reached := reachable serialize_string_value serialize_url css skip_comments.
Let found (t : leaf) : Prop :=
  scanned serialize_string_value serialize_url css skip_comments t
  /\ located serialize_string_value serialize_url css skip_comments t.

(** what an iteration appends is scanned, and located if it is an error *)
Lemma appended_found s c a :
  reached s -> css !! s.(pos) = Some c ->
  dispatch serialize_string_value serialize_url css skip_comments
    s.(end_char) (next_line css s) (next_column css s) s.(pos) c = Ok a ->
  Forall found (appended a).
Proof.
  intros Hr Hc Hd.
  destruct (Lines.next_tracked css s (Lines.tracked_reachable _ _ _ _ _ Hr))
    as (Hl & Hcol & _).
  pose proof (dispatch_spec _ _ _ _ _ _ _ _ _ _ Hd) as Hspec.
  pose proof (Causes.dispatch_caused _ _ _ _ _ _ _ _ _ _ Hd) as Hcause.
  assert (Hts : Forall (leaf_spec css skip_comments (next_line css s)
                          (next_column css s) (pos s) c) (appended a)).
  { destruct a as [ts p|b cl p|p|ts]; cbn [appended action_spec] in *;
      try assumption; try constructor. }
  rewrite List.Forall_forall in Hts, Hcause. apply List.Forall_forall.
  intros t Hin. split.
  - exists s, c, a. auto.
  - specialize (Hts t Hin). specialize (Hcause t Hin).
    destruct Hts as (Hpos & _). destruct t; try exact I.
    cbn [located caused leaf_pos] in *. injection Hpos as -> ->.
    exists s, c. auto.
Qed.

Lemma found_step s r :
  reached s -> s.(pos) < length css ->
  Forall (Forall (cell_ok found)) s.(objects) ->
  iteration serialize_string_value serialize_url css skip_comments s = Ok r ->
  match r with
  | inl s' => reached s' /\ Forall (Forall (cell_ok found)) s'.(objects)
  | inr f => Forall (Forall (cell_ok found)) f.(final_objects)
  end.
Proof.
  intros Hr Hlt Hs Hi.
  assert (Hnext : match r with inl s' => reached s' | inr _ => True end).
  { destruct r as [s'|f]; [|exact I]. eapply reach_step; eassumption. }
  apply iteration_inv in Hi as (c & a & Hc & Hd & Hp).
  pose proof (appended_found s c a Hr Hc Hd) as Hfound.
  assert (Happ : forall ts,
    Forall found ts ->
    Forall (Forall (cell_ok found))
      (append (map Tok ts) (tokens s) (objects s))).
  { intros ts Hts. unfold append. apply Forall_alter; [exact Hs|].
    intros l _ Hl'. apply Forall_app. split; [assumption|].
    apply Forall_fmap. eapply Forall_impl; [exact Hts|].
    intros t Ht. exact Ht. }
  destruct a as [ts p|b cl p|p|ts];
    cbn [perform started objects tokens stack end_char pos token_start_pos
         line last_newline appended] in Hp, Hfound.
  - injection Hp as <-. split; [exact Hnext|]. exact (Happ ts Hfound).
  - injection Hp as <-. split; [exact Hnext|]. cbn [objects]. unfold append.
    apply Forall_alter.
    + apply Forall_app. split; [assumption|]. repeat constructor.
    + intros l _ Hl'. apply Forall_app. split; [assumption|]. repeat constructor.
  - destruct (stack s) as [|[t e] rest]; [discriminate|].
    injection Hp as <-. split; [exact Hnext|]. assumption.
  - injection Hp as <-. exact (Happ ts Hfound).
Qed.

End Run.

(** every token of the store the loop leaves was appended by an
    iteration, and every parse error is where its cause is *)
Lemma run_found ssv su css skip_comments f :
  run ssv su css skip_comments = Ok f ->
  Forall (Forall (cell_ok (fun t =>
    scanned ssv su (preprocess css) skip_comments t
    /\ located ssv su (preprocess css) skip_comments t)))
    f.(final_objects).
Proof.
  unfold run. intros Hrun.
  eapply (loop_invariant ssv su (preprocess css) skip_comments
            (fun s => reachable ssv su (preprocess css) skip_comments s
                      /\ Forall (Forall (cell_ok (fun t =>
                           scanned ssv su (preprocess css) skip_comments t
                           /\ located ssv su (preprocess css) skip_comments t)))
                           s.(objects))
            (fun f => Forall (Forall (cell_ok (fun t =>
                        scanned ssv su (preprocess css) skip_comments t
                        /\ located ssv su (preprocess css) skip_comments t)))
                        f.(final_objects)));
    [| | |exact Hrun].
  - intros s [_ H]. exact H.
  - intros s r [Hr Hs] Hlt Hi.
    exact (found_step ssv su (preprocess css) skip_comments s r Hr Hlt Hs Hi).
  - split; [apply reach_initial|repeat constructor].
Qed.

Lemma every_leaf_and (P Q : leaf -> Prop) ts :
  every_leaf (fun t => P t /\ Q t) ts <-> every_leaf P ts /\ every_leaf Q ts.
Proof.
  split.
  - induction 1 as [ts Hl _ IH]. split; constructor.
    + intros t Hin. exact (proj1 (Hl t Hin)).
    + intros b content Hin. exact (proj1 (IH b content Hin)).
    + intros t Hin. exact (proj2 (Hl t Hin)).
    + intros b content Hin. exact (proj2 (IH b content Hin)).
  - intros [HP HQ]. revert HQ.
    induction HP as [ts Hl _ IH]. intros HQ. inversion HQ as [? Hl' Hb']; subst.
    constructor.
    + intros t Hin. split; auto.
    + intros b content Hin. apply (IH b content Hin). eauto.
Qed.

(** the tokens of the list returned, at every depth *)
Lemma returned_found ssv su css skip_comments f :
  run ssv su css skip_comments = Ok f ->
  let returned := readback (length f.(final_objects)) f.(final_objects) root in
  every_leaf (scanned ssv su (preprocess css) skip_comments) returned
  /\ every_leaf (located ssv su (preprocess css) skip_comments) returned.
Proof.
  intros Hrun. cbv zeta. apply every_leaf_and.
  apply OpenBlockFacts.readback_every.
  apply run_found. assumption.
Qed.

End Located.

(** ** What is appended stays in the result *)

Module Kept.
Import OpenBlocks OpenBlockFacts.

Lemma grows_refl h : grows h h.
Proof. intros l cells H. exists []. rewrite app_nil_r. assumption. Qed.

Lemma grows_trans h1 h2 h3 : grows h1 h2 -> grows h2 h3 -> grows h1 h3.
Proof.
  intros H12 H23 l cells H. destruct (H12 l cells H) as (m1 & H2).
  destruct (H23 l _ H2) as (m2 & H3). exists (m1 ++ m2).
  rewrite app_assoc. assumption.
Qed.

Lemma append_grows cs l h : grows h (append cs l h).
Proof.
  intros l0 cells H. unfold append. destruct (Nat.eq_dec l l0) as [->|Hne].
  - exists cs. rewrite list_lookup_alter_eq, H. reflexivity.
  - exists []. rewrite list_lookup_alter_ne, app_nil_r by assumption. assumption.
Qed.

Lemma alloc_grows (h : heap) : grows h (h ++ [[]]).
Proof.
  intros l cells H. exists []. rewrite app_nil_r.
  rewrite lookup_app_l by (eapply lookup_lt_Some; eassumption). assumption.
Qed.

Definition objects_of (r : state + final_state) : heap :=
  match r with
  | inl s => s.(objects)
  | inr f => f.(final_objects)
  end.

Lemma perform_grows a s r : perform a s = Ok r -> grows s.(objects) (objects_of r).
Proof.
  destruct a as [ts p|b cl p|p|ts]; cbn [perform].
  - intros [= <-]. apply append_grows.
  - intros [= <-]. cbn [objects_of objects].
    eapply grows_trans; [apply alloc_grows|apply append_grows].
  - destruct (stack s) as [|[t e] rest]; [discriminate|].
    intros [= <-]. apply grows_refl.
  - intros [= <-]. apply append_grows.
Qed.

Lemma iteration_grows ssv su css skip_comments s r :
  iteration ssv su css skip_comments s = Ok r ->
  grows s.(objects) (objects_of r).
Proof.
  intros Hi. apply iteration_inv in Hi as (c & a & _ & _ & Hr).
  apply perform_grows in Hr. exact Hr.
Qed.

Lemma loop_grows ssv su css skip_comments fuel : forall s f,
  loop ssv su fuel css skip_comments s = Ok f ->
  grows s.(objects) f.(final_objects).
Proof.
  induction fuel as [|fuel IH]; intros s f; cbn [loop].
  - destruct (pos s <? length css); [discriminate|].
    intros [= <-]. apply grows_refl.
  - destruct (pos s <? length css); [|intros [= <-]; apply grows_refl].
    destruct (iteration ssv su css skip_comments s) as [r| |] eqn:Hi;
      cbn [bind]; try discriminate.
    apply iteration_grows in Hi. destruct r as [s'|f'].
    + intros H. eapply grows_trans; [exact Hi|]. apply IH. exact H.
    + intros [= <-]. exact Hi.
Qed.

(** the loop goes through every state that is reached *)
Lemma loop_passes ssv su css skip_comments s :
  reachable ssv su css skip_comments s ->
  forall fuel f,
    loop ssv su fuel css skip_comments initial = Ok f ->
    exists k, loop ssv su k css skip_comments s = Ok f.
Proof.
  induction 1 as [|s s' _ IH Hlt Hi]; intros fuel f Hrun; [eauto|].
  destruct (IH fuel f Hrun) as (k & Hk).
  destruct k as [|k]; cbn [loop] in Hk;
    rewrite (proj2 (Nat.ltb_lt _ _) Hlt) in Hk; [discriminate Hk|].
  rewrite Hi in Hk. cbn [bind] in Hk. eauto.
Qed.

Lemma linked_append cs l h : linked h -> linked (append cs l h).
Proof.
  intros Hl l0 Hl0. unfold append in *. rewrite length_alter in Hl0.
  destruct (Hl l0 Hl0) as (l' & cells & b & Hlt & Hc & Hin).
  destruct (append_grows cs l h l' cells Hc) as (more & Hm).
  exists l', (cells ++ more), b. split; [assumption|]. split; [exact Hm|].
  apply in_or_app. left. assumption.
Qed.

Lemma linked_step ssv su css skip_comments s r :
  open_state s -> linked s.(objects) ->
  iteration ssv su css skip_comments s = Ok r ->
  linked (objects_of r).
Proof.
  intros (_ & _ & Hlt) Hl Hi.
  apply iteration_inv in Hi as (c & a & _ & _ & Hr).
  destruct a as [ts p|b cl p|p|ts];
    cbn [perform started objects tokens stack end_char pos token_start_pos
         line last_newline] in Hr.
  - injection Hr as <-. apply linked_append. assumption.
  - injection Hr as <-. cbn [objects_of objects].
    intros l0 Hl0. unfold append in *.
    rewrite length_alter, length_app in Hl0. cbn [length] in Hl0.
    destruct (Nat.eq_dec l0 (length (objects s))) as [->|Hne].
    + destruct (lookup_lt_is_Some_2 _ _ Hlt) as [old Hold].
      exists (tokens s), (old ++ [Blk b (length (objects s))]), b.
      split; [assumption|]. split.
      * rewrite list_lookup_alter_eq, lookup_app_l, Hold by assumption.
        reflexivity.
      * apply in_or_app. right. left. reflexivity.
    + destruct (Hl l0 ltac:(lia)) as (l' & cells & b' & Hlt' & Hc & Hin).
      destruct (alloc_grows (objects s) l' cells Hc) as (m1 & H1).
      destruct (append_grows [Blk b (length (objects s))] (tokens s)
                  (objects s ++ [[]]) l' _ H1) as (m2 & H2).
      exists l', ((cells ++ m1) ++ m2), b'. split; [assumption|].
      split; [exact H2|]. apply in_or_app. left. apply in_or_app. left.
      assumption.
  - destruct (stack s) as [|[t e] rest]; [discriminate|].
    injection Hr as <-. assumption.
  - injection Hr as <-. apply linked_append. assumption.
Qed.

Lemma initial_open : open_state initial.
Proof.
  split; [|split; [reflexivity|unfold initial, root; simpl; lia]].
  intros l cells b l' Hl Hin. destruct l as [|l]; simpl in Hl.
  - injection Hl as <-. destruct Hin.
  - discriminate.
Qed.

Lemma initial_linked : linked initial.(objects).
Proof. intros l Hl. cbn in Hl. lia. Qed.

Lemma reachable_open ssv su css skip_comments s :
  reachable ssv su css skip_comments s ->
  open_state s /\ linked s.(objects).
Proof.
  apply (Reach.reachable_invariant ssv su css skip_comments
           (fun s => open_state s /\ linked s.(objects))).
  - split; [apply initial_open|apply initial_linked].
  - intros s0 s' [Ho Hl] _ Hi. split.
    + exact (open_state_step _ _ _ _ _ _ Ho Hi).
    + exact (linked_step _ _ _ _ _ _ Ho Hl Hi).
Qed.

Lemma run_open ssv su css skip_comments f :
  run ssv su css skip_comments = Ok f ->
  open_final f /\ linked f.(final_objects).
Proof.
  unfold run. intros Hrun.
  eapply (loop_invariant ssv su (preprocess css) skip_comments
            (fun s => open_state s /\ linked s.(objects))
            (fun f => open_final f /\ linked f.(final_objects)));
    [| | |exact Hrun].
  - intros s H. exact H.
  - intros s r [Ho Hl] _ Hi.
    pose proof (open_state_step _ _ _ _ _ _ Ho Hi) as Ho'.
    pose proof (linked_step _ _ _ _ _ _ Ho Hl Hi) as Hl'.
    destruct r; split; assumption.
  - split; [apply initial_open|apply initial_linked].
Qed.

Lemma readback_lookup (h : heap) l cells :
  h !! l = Some cells -> 0 < length h ->
  readback (length h) h l
  = map (fun c => match c with
                  | Tok t => Leaf t
                  | Blk b content => Block b (readback (length h - 1) h content)
                  end) cells.
Proof.
  intros Hc Hlen. destruct (length h) as [|d]; [lia|].
  replace (S d - 1) with d by lia. cbn [readback]. rewrite Hc. reflexivity.
Qed.

(** every list of the store is read back from [root] *)
Lemma occurs_root h : wf h -> linked h -> forall l t,
  l < length h ->
  occurs t (readback (length h) h l) -> occurs t (readback (length h) h root).
Proof.
  intros Hwf Hl l. induction l as [l IH] using lt_wf_ind. intros t Hlt Ho.
  destruct (Nat.eq_dec l 0) as [->|Hne]; [exact Ho|].
  destruct (Hl l ltac:(lia)) as (l' & cells & b & Hlt' & Hc & Hin).
  apply (IH l' Hlt' t); [lia|].
  apply (occurs_inside t b (readback (length h) h l)); [|exact Ho].
  rewrite (readback_lookup h l' cells Hc) by lia.
  apply in_map_iff. exists (Blk b l). split; [|assumption].
  f_equal. apply readback_stable; [assumption|lia|lia].
Qed.

Lemma occurs_cell h : wf h -> linked h -> forall l cells t,
  h !! l = Some cells -> In (Tok t) cells ->
  occurs t (readback (length h) h root).
Proof.
  intros Hwf Hl l cells t Hc Hin.
  pose proof (lookup_lt_Some _ _ _ Hc) as Hlt.
  apply (occurs_root h Hwf Hl l t Hlt). apply occurs_here.
  rewrite (readback_lookup h l cells Hc) by lia.
  apply in_map_iff. exists (Tok t). split; [reflexivity|assumption].
Qed.

(** the tokens that an iteration appends are in the list returned *)
Lemma appended_kept ssv su css skip_comments f s c a t :
  run ssv su css skip_comments = Ok f ->
  reachable ssv su (preprocess css) skip_comments s ->
  preprocess css !! s.(pos) = Some c ->
  dispatch ssv su (preprocess css) skip_comments s.(end_char)
    (next_line (preprocess css) s) (next_column (preprocess css) s)
    s.(pos) c = Ok a ->
  In t (appended a) ->
  occurs t (readback (length f.(final_objects)) f.(final_objects) root).
Proof.
  intros Hrun Hreach Hc Hd Hin.
  destruct (run_open _ _ _ _ _ Hrun) as [(Hwf & _) Hlinked].
  destruct (reachable_open _ _ _ _ _ Hreach) as [(_ & _ & Hlt) _].
  destruct (lookup_lt_is_Some_2 _ _ Hlt) as [old Hold].
  set (text := preprocess css) in *.
  assert (Hr : exists r,
    iteration ssv su text skip_comments s = Ok r
    /\ objects_of r !! tokens s = Some (old ++ map Tok (appended a))).
  { rewrite iteration_unfold, (IdentFacts.idx_eq _ _ _ Hc). cbn [bind].
    rewrite Hd. cbn [bind].
    destruct a as [ts p|b cl p|p|ts]; cbn [appended] in Hin;
      try destruct Hin;
      cbn [perform started objects tokens]; eexists; (split; [reflexivity|]);
      cbn [objects_of objects final_objects]; unfold append;
      rewrite list_lookup_alter_eq, Hold; reflexivity. }
  destruct Hr as (r & Hi & Hobj).
  assert (Hfinal : grows (objects_of r) f.(final_objects)).
  { unfold run in Hrun. fold text in Hrun.
    destruct (loop_passes _ _ _ _ _ Hreach _ _ Hrun) as (k & Hk).
    pose proof (lookup_lt_Some _ _ _ Hc) as Hpos.
    destruct k as [|k]; cbn [loop] in Hk;
      rewrite (proj2 (Nat.ltb_lt _ _) Hpos) in Hk; [discriminate Hk|].
    rewrite Hi in Hk. cbn [bind] in Hk. destruct r as [s'|f'].
    - cbn [objects_of]. eapply loop_grows. exact Hk.
    - injection Hk as <-. apply grows_refl. }
  destruct (Hfinal _ _ Hobj) as (more & Hmore).
  eapply (occurs_cell _ Hwf Hlinked); [exact Hmore|].
  apply in_or_app. left. apply in_or_app. right.
  apply in_map. assumption.
Qed.

End Kept.

(** ** Inputs on which nothing raises *)

Module Safe.
Import Bounds.

Lemma In_take {A} (x : A) n : forall l, In x (take n l) -> In x l.
Proof.
  induction n as [|n IH]; intros [|a l]; simpl; try tauto.
  intros [H|H]; [left; assumption|right; apply IH; assumption].
Qed.

Lemma In_drop {A} (x : A) n : forall l, In x (drop n l) -> In x l.
Proof.
  induction n as [|n IH]; intros [|a l]; simpl; try tauto.
  intros H. right. apply IH. assumption.
Qed.

Lemma In_slice_css (css : str) a b x : In x (slice css a b) -> In x css.
Proof. unfold slice. intros H. apply In_take in H. eapply In_drop. eassumption. Qed.

Lemma idx_In css pos c : idx css pos = Ok c -> In c css.
Proof.
  unfold idx. destruct (css !! pos) as [x|] eqn:E; [|discriminate].
  intros [= <-]. eapply list_elem_of_In, list_elem_of_lookup_2. eassumption.
Qed.

(** without a backslash in the text, a name is made of its characters *)
Lemma _consume_ident_loop_chars fuel : forall css chunks start pos v p,
  (forall c, In c css -> c <> BACKSLASH) ->
  Forall (Forall (fun c => In c css)) chunks ->
  _consume_ident_loop fuel css chunks start pos = Ok (v, p) ->
  Forall (fun c => In c css) v.
Proof.
  assert (Hend : forall css chunks start pos,
    Forall (Forall (fun c => In c css)) chunks ->
    Forall (fun c => In c css) (concat (chunks ++ [slice css start pos]))).
  { intros css chunks start pos Hch. apply Forall_concat.
    apply Forall_app. split; [assumption|].
    constructor; [|constructor]. apply List.Forall_forall.
    intros x. apply In_slice_css. }
  induction fuel as [|fuel IH]; intros css chunks start pos v p Hnb Hch H;
    cbn [_consume_ident_loop] in H;
    destruct (pos <? length css) eqn:El;
    try discriminate H; try (injection H as <- _; apply Hend; assumption).
  case_bind H. case_if H.
  - eapply IH; eassumption.
  - case_if H.
    + exfalso. apply andb_prop in E1 as [E1 _]. apply Z.eqb_eq in E1.
      apply idx_In in E. exact (Hnb _ E E1).
    + injection H as <- _. apply Hend. assumption.
Qed.

Lemma existsb_surrogate css v :
  Forall (fun c => c <> BACKSLASH /\ surrogate c = false) css ->
  Forall (fun c => In c css) v -> existsb surrogate v = false.
Proof.
  intros Hcss Hv. rewrite List.Forall_forall in Hcss.
  induction Hv as [|c v Hc _ IH]; [reflexivity|]. cbn [existsb].
  rewrite (proj2 (Hcss c Hc)), IH. reflexivity.
Qed.

Lemma no_cause css pos e :
  length css <= int_max_str_digits ->
  Forall (fun c => c <> BACKSLASH /\ surrogate c = false) css ->
  ~ raise_cause css pos e.
Proof.
  intros Hlen Hcss [[_ (v & p & _ & Hv & _ & Hs)]|[_ (q & g & Hm & _ & Hq)]].
  - apply _consume_ident_loop_chars in Hv.
    + rewrite (existsb_surrogate css v Hcss Hv) in Hs. discriminate.
    + intros c Hc. rewrite List.Forall_forall in Hcss. apply (Hcss c Hc).
    + constructor.
  - rewrite NumberFacts._NUMBER_RE_scan in Hm.
    pose proof (NumberMatch.number_scan_lt css pos q g Hm) as Hlt.
    apply number_scan_le in Hm; lia.
Qed.






End Safe.

(** ** More on single iterations *)

Module Steps.



Lemma run_returns ssv su css skip_comments (P : final_state -> Prop) :
  (forall f, run ssv su css skip_comments = Ok f -> P f) ->
  returns css P (run ssv su css skip_comments).
Proof.
  intros HP.
  destruct (run_ok ssv su css skip_comments)
    as [(f & Hf)|(e & p & He & Hp & Hc)].
  - rewrite Hf. cbn [returns]. apply HP. assumption.
  - rewrite He. cbn [returns]. eauto.
Qed.

(** the loop is left from a state that iterations reached: where the
    text ends, with the variables as they are, or by the [break] of an
    iteration *)
Lemma loop_exit ssv su css skip_comments fuel : forall s f,
  reachable ssv su css skip_comments s ->
  loop ssv su fuel css skip_comments s = Ok f ->
  exists s0,
    reachable ssv su css skip_comments s0
    /\ ((length css <= s0.(pos) /\ f = leave s0)
        \/ (s0.(pos) < length css
            /\ iteration ssv su css skip_comments s0 = Ok (inr f))).
Proof.
  induction fuel as [|fuel IH]; intros s f Hr; cbn [loop];
    destruct (pos s <? length css) eqn:E; try discriminate.
  - apply Nat.ltb_ge in E. intros [= <-]. exists s. auto.
  - apply Nat.ltb_lt in E.
    destruct (iteration ssv su css skip_comments s) as [[s1|f1]| |] eqn:Hi;
      cbn [bind]; try discriminate.
    + apply IH. eapply reach_step; eassumption.
    + intros [= <-]. exists s. auto.
  - apply Nat.ltb_ge in E. intros [= <-]. exists s. auto.
Qed.

End Steps.

(** ** Unicode ranges without question marks *)

Module RangePlain.

Lemma plain_range (css : str) (pos : nat) :
  pos <= length css ->
  let digits := RangeSpec.hex_count css pos in
  let p := pos + digits in
  0 < digits -> RangeSpec.question_count css pos = 0 ->
  exists start,
    int16 (slice css pos p) = Ok start
    /\ if startswith [ch "-"] css p && startswith_any RangeSpec.HEX css (p + 1)
       then
         let digits' := RangeSpec.hex_count css (p + 1) in
         exists end_,
           0 < digits'
           /\ int16 (slice css (p + 1) (p + 1 + digits')) = Ok end_
           /\ _consume_unicode_range css pos = Ok (start, end_, p + 1 + digits')
       else _consume_unicode_range css pos = Ok (start, start, p).
Proof.
  intros Hp. cbv zeta. intros Hd Hq.
  destruct (RangeValue.hex_text css pos) as [Hhex Hlen].
  destruct (int16_hex (slice css pos (pos + RangeSpec.hex_count css pos)))
    as (start & Hs & _); [|assumption|].
  { intros He. rewrite He in Hlen. cbn [length] in Hlen. lia. }
  exists start. split; [assumption|].
  unfold _consume_unicode_range. fold RangeSpec.HEX. cbv zeta.
  rewrite RangeBudget.first_loop, RangeBudget.second_loop by assumption.
  rewrite Hq, Nat.add_0_r, Nat.sub_diag. cbn [Nat.eqb negb].
  set (p := pos + RangeSpec.hex_count css pos) in *.
  assert (Hdash :
    (if p + 1 <? length css
     then let* c := idx css p in
          if (c =? ch "-")%Z
          then let* d := idx css (p + 1) in Ok (mem d RangeSpec.HEX)
          else Ok false
     else Ok false)
    = Ok (startswith [ch "-"] css p && startswith_any RangeSpec.HEX css (p + 1))).
  { unfold startswith, startswith_any.
    destruct (p + 1 <? length css) eqn:E.
    - apply Nat.ltb_lt in E.
      destruct (idx_lt css p ltac:(lia)) as (c & Hc & ->).
      destruct (idx_lt css (p + 1) E) as (d & Hd' & Hi). cbn [bind].
      rewrite (drop_S _ _ _ Hc). cbn [is_prefix]. rewrite Hd', andb_true_r.
      rewrite (Z.eqb_sym c).
      destruct (ch "-" =? c)%Z; [rewrite Hi|]; reflexivity.
    - apply Nat.ltb_ge in E. rewrite (lookup_ge_None_2 css (p + 1)) by lia.
      rewrite andb_false_r. reflexivity. }
  rewrite Hdash. cbn [bind].
  destruct (startswith [ch "-"] css p && startswith_any RangeSpec.HEX css (p + 1))
    eqn:Edash.
  - apply andb_prop in Edash as [_ Eh]. unfold startswith_any in Eh.
    destruct (css !! (p + 1)) as [d|] eqn:Hd1; [|discriminate].
    pose proof (lookup_lt_Some _ _ _ Hd1) as Hlt.
    rewrite RangeBudget.first_loop by lia.
    destruct (RangeValue.hex_text css (p + 1)) as [Hhex' Hlen'].
    assert (Hpos : 0 < RangeSpec.hex_count css (p + 1)).
    { unfold RangeSpec.hex_count. destruct (drop_cases css (p + 1))
        as [(Hn & _)|(x & Hx & _ & ->)]; [congruence|].
      assert (x = d) by congruence. subst x.
      pose proof (SpanFacts.span_first RangeSpec.HEX (Some 6) d
                    (drop (S (p + 1)) css) Eh eq_refl). lia. }
    destruct (int16_hex (slice css (p + 1) (p + 1 + RangeSpec.hex_count css (p + 1))))
      as (e & He & _); [|assumption|].
    { intros Hx. rewrite Hx in Hlen'. cbn [length] in Hlen'. lia. }
    exists e. split; [assumption|]. split; [assumption|].
    rewrite Hs. cbn [bind]. rewrite He. reflexivity.
  - rewrite Hs. reflexivity.
Qed.

(** the counts are those of the characters of the text: hex digits,
    then question marks, each run as long as it can be within 6 *)
Lemma counts_text (css : str) (pos : nat) :
  pos <= length css ->
  let digits := RangeSpec.hex_count css pos in
  let marks := RangeSpec.question_count css pos in
  Forall (fun c => mem c RangeSpec.HEX = true) (slice css pos (pos + digits))
  /\ length (slice css pos (pos + digits)) = digits
  /\ slice css (pos + digits) (pos + digits + marks) = replicate marks (ch "?")
  /\ (digits < 6 -> startswith_any RangeSpec.HEX css (pos + digits) = false)
  /\ (digits + marks < 6 ->
      startswith_any [ch "?"] css (pos + digits + marks) = false).
Proof.
  intros Hp. cbv zeta.
  unfold RangeSpec.question_count.
  set (d := RangeSpec.hex_count css pos).
  set (m := ReSpec.span [ch "?"] (Some (6 - d)) (drop (pos + d) css)).
  assert (Hd : d <= length (drop pos css))
    by apply SpanFacts.span_le_length.
  assert (Hm : m <= length (drop (pos + d) css))
    by apply SpanFacts.span_le_length.
  assert (Hd6 : d <= 6) by apply SpanFacts.span_le_hi.
  assert (Hm6 : m <= 6 - d) by apply SpanFacts.span_le_hi.
  rewrite length_drop in Hd, Hm.
  assert (Hall : Forall (fun c => mem c RangeSpec.HEX = true)
                   (take d (drop pos css)))
    by apply SpanFacts.span_all.
  assert (Hallm : Forall (fun c => mem c [ch "?"] = true)
                    (take m (drop (pos + d) css)))
    by apply SpanFacts.span_all.
  assert (Hsd : Some 6 = Some d
                \/ match drop pos css !! d with
                   | Some c => mem c RangeSpec.HEX = false
                   | None => True
                   end)
    by apply (SpanFacts.span_stop RangeSpec.HEX (Some 6) (drop pos css)).
  assert (Hsm : Some (6 - d) = Some m
                \/ match drop (pos + d) css !! m with
                   | Some c => mem c [ch "?"] = false
                   | None => True
                   end)
    by apply (SpanFacts.span_stop [ch "?"] (Some (6 - d)) (drop (pos + d) css)).
  clearbody m. clearbody d.
  split; [|split; [|split; [|split]]].
  - rewrite EscapeProps.slice_add. assumption.
  - rewrite EscapeProps.slice_add, length_take, length_drop. lia.
  - rewrite EscapeProps.slice_add.
    assert (Hlen : length (take m (drop (pos + d) css)) = m)
      by (rewrite length_take, length_drop; lia).
    revert Hallm Hlen. generalize (take m (drop (pos + d) css)) as l.
    clear. induction m as [|m IH]; intros [|x l] Hall Hlen;
      cbn [length] in Hlen; try lia; [reflexivity|].
    inversion Hall as [|? ? Hx Hl]; subst. cbn [replicate].
    f_equal; [|apply IH; [assumption|lia]].
    mem_cases Hx. reflexivity.
  - intros Hlt. destruct Hsd as [Heq|Hstop].
    + injection Heq as Heq. lia.
    + unfold startswith_any. rewrite lookup_drop in Hstop.
      destruct (css !! (pos + d)); [assumption|reflexivity].
  - intros Hlt. destruct Hsm as [Heq|Hstop].
    + injection Heq as Heq. lia.
    + unfold startswith_any. rewrite lookup_drop in Hstop.
      destruct (css !! (pos + d + m)); [assumption|reflexivity].
Qed.

End RangePlain.

(** * The claims *)




(** C2: at a [}], []] or [)] that is not the current [end_char] (also
    when no block is open and [end_char] is [None]), the iteration
    appends one [ParseError] with the position of that character to the
    current list [tokens], moves one character on, and leaves [tokens],
    [end_char] and the stack of open blocks as they were. *)
Theorem C2_unmatched_closer (serialize_string_value serialize_url : str -> str)
    (css : str) (skip_comments : bool) (s : state) (c : Z) :
  css !! s.(pos) = Some c -> mem c (lit "}])") = true ->
  s.(end_char) <> Some c ->
  iteration serialize_string_value serialize_url css skip_comments s
  = Ok (inl (mk_state (s.(pos) + 1) s.(pos)
               (next_line css s) (next_last_newline css s)
               (append [Tok (ParseError (next_line css s) (next_column css s)
                               [c] (lit "Unmatched " ++ [c]))]
                  s.(tokens) s.(objects))
               s.(tokens) s.(end_char) s.(stack))).
Proof.
  intros Hc Hm He. rewrite iteration_unfold, (IdentFacts.idx_eq _ _ _ Hc).
  cbn [bind].
  destruct (Punctuation.dispatch_plain serialize_string_value serialize_url css
              skip_comments (end_char s) (next_line css s) (next_column css s)
              (pos s) c Hc) as [-> Hn].
  { mem_cases Hm; reflexivity. }
  unfold dispatch_rest. rewrite Hn. cbv zeta.
  assert (Hend : match end_char s with Some e => (c =? e)%Z | None => false end
                 = false).
  { destruct (end_char s) as [e|]; [|reflexivity].
    apply Z.eqb_neq. congruence. }
  rewrite Hend, Hm.
  mem_cases Hm; reflexivity.
Qed.

Lemma C2_witness :
  iteration ser_id ser_id (lit "{)") false
    (mk_state 1 0 1 (-1) [[Blk (CurlyBracketsBlock 1 1) 1]; []] 1
       (Some (ch "}")) [(0, None)])
  = Ok (inl (mk_state 2 1 1 (-1)
               [[Blk (CurlyBracketsBlock 1 1) 1];
                [Tok (ParseError 1 2 (lit ")") (lit "Unmatched )"))]]
               1 (Some (ch "}")) [(0, None)])).
Proof.
  apply (C2_unmatched_closer ser_id ser_id (lit "{)") false
           (mk_state 1 0 1 (-1) [[Blk (CurlyBracketsBlock 1 1) 1]; []] 1
              (Some (ch "}")) [(0, None)]) (ch ")")).
  - reflexivity.
  - reflexivity.
  - discriminate.
Defined.

(** C3: a string whose body, read from the character after the opening
    quote, reaches a newline of its own at [j] before any closing quote:
    [_consume_quoted_string] returns no value, the position [j] of the
    newline and [bad-string]; the iteration appends only the
    [ParseError], with the position of the opening quote, and leaves
    [pos] at the newline; and the next iteration appends a
    [WhitespaceToken] that starts with this newline. *)
Theorem C3_bad_string (serialize_string_value serialize_url : str -> str)
    (css : str) (skip_comments : bool) (s : state) (quote : Z) (j : nat) :
  css !! s.(pos) = Some quote -> mem quote [DQUOTE; SQUOTE] = true ->
  closing s.(end_char) ->
  StringSpec.string_body css quote (s.(pos) + 1) j -> css !! j = Some LF ->
  let s1 :=
    mk_state j s.(pos) (next_line css s) (next_last_newline css s)
      (append [Tok (ParseError (next_line css s) (next_column css s)
                      (lit "bad-string") (lit "Bad string token"))]
         s.(tokens) s.(objects))
      s.(tokens) s.(end_char) s.(stack) in
  let after := skip_ws css (j + 1) in
  _consume_quoted_string css s.(pos) = Ok (None, j, Some bad_string)
  /\ iteration serialize_string_value serialize_url css skip_comments s
     = Ok (inl s1)
  /\ iteration serialize_string_value serialize_url css skip_comments s1
     = Ok (inl (mk_state after j (next_line css s1) (next_last_newline css s1)
                  (append [Tok (WhitespaceToken (next_line css s1)
                                  (next_column css s1)
                                  (LF :: slice css (S j) after))]
                     s1.(tokens) s1.(objects))
                  s1.(tokens) s1.(end_char) s1.(stack))).
Proof.
  intros Hq Hm Hend Hbody Hj. cbv zeta.
  pose proof (StringFacts._consume_quoted_string_newline css (pos s) quote j
                Hq Hm Hbody Hj) as Hs.
  split; [exact Hs|]. split.
  - rewrite iteration_unfold, (IdentFacts.idx_eq _ _ _ Hq). cbn [bind].
    destruct (Punctuation.dispatch_plain serialize_string_value serialize_url
                css skip_comments (end_char s) (next_line css s)
                (next_column css s) (pos s) quote Hq) as [-> Hn].
    { mem_cases Hm; reflexivity. }
    unfold dispatch_rest. rewrite Hn. cbv zeta.
    assert (Hend' : match end_char s with
                    | Some e => (quote =? e)%Z | None => false end = false).
    { unfold closing in Hend. destruct (end_char s) as [e|]; [|reflexivity].
      apply Z.eqb_neq. intros <-. mem_cases Hm; discriminate Hend. }
    rewrite Hend', Hm, Hs. cbn [bind].
    mem_cases Hm; reflexivity.
  - rewrite iteration_unfold. cbn [pos]. rewrite (IdentFacts.idx_eq _ _ _ Hj).
    cbn [bind]. unfold dispatch. cbv zeta.
    change (mem LF WS) with true. cbv iota.
    pose proof (skip_ws_ge css (j + 1)) as Hge.
    rewrite (NumberScan.slice_nonempty css j (skip_ws css (j + 1)) LF Hj)
      by lia.
    reflexivity.
Qed.

Lemma C3_witness :
  let css := [SQUOTE; ch "x"; LF; ch "y"] in
  let s := mk_state 0 0 1 (-1) [[]] 0 None [] in
  let s1 :=
    mk_state 2 0 1 (-1)
      [[Tok (ParseError 1 1 (lit "bad-string") (lit "Bad string token"))]]
      0 None [] in
  _consume_quoted_string css 0 = Ok (None, 2, Some bad_string)
  /\ iteration ser_id ser_id css false s = Ok (inl s1)
  /\ iteration ser_id ser_id css false s1
     = Ok (inl (mk_state 3 2 1 (-1)
                  [[Tok (ParseError 1 1 (lit "bad-string") (lit "Bad string token"));
                    Tok (WhitespaceToken 1 3 [LF])]]
                  0 None [])).
Proof.
  cbv zeta.
  apply (C3_bad_string ser_id ser_id [SQUOTE; ch "x"; LF; ch "y"] false
           (mk_state 0 0 1 (-1) [[]] 0 None []) SQUOTE 2).
  - reflexivity.
  - reflexivity.
  - exact I.
  - eapply StringSpec.body_char with (c := ch "x");
      [reflexivity|discriminate|discriminate|discriminate|].
    apply StringSpec.body_end.
  - reflexivity.
Defined.

(** C4: in [_consume_unicode_range], the hex digits of [start] and the
    question marks after them are at most 6 together (the question marks
    get what the hex digits left of the 6).  These counts are those of
    the characters the function reads: the text of [start] is the
    longest run of hex digits at [pos], up to 6, and the question marks
    are the longest run after it, up to what is left of the 6.  When
    there are question marks, [start] is the hex text followed by a [0]
    for each and [end] the hex text followed by an [F] for each, both
    read as hexadecimal, and the function stops after the last question
    mark.  When there is none, [start] is the hex text read as
    hexadecimal and the function stops after it, with [end = start],
    unless a [-] and a hex digit follow: then [end] is read from the
    hex digits after the [-], again up to 6.  And ["U+1F??"] is one
    [UnicodeRangeToken] from 0x1F00 to 0x1FFF. *)
Theorem C4_unicode_range (serialize_string_value serialize_url : str -> str)
    (css : str) (pos : nat) :
  pos <= length css ->
  let digits := RangeSpec.hex_count css pos in
  let marks := RangeSpec.question_count css pos in
  let text := slice css pos (pos + digits) in
  digits + marks <= 6
  /\ (Forall (fun c => mem c RangeSpec.HEX = true) text
      /\ length text = digits
      /\ slice css (pos + digits) (pos + digits + marks)
         = replicate marks (ch "?")
      /\ (digits < 6 ->
          startswith_any RangeSpec.HEX css (pos + digits) = false)
      /\ (digits + marks < 6 ->
          startswith_any [ch "?"] css (pos + digits + marks) = false))
  /\ (0 < marks ->
      _consume_unicode_range css pos =
      let* s := int16 (text ++ replicate marks (ch "0")) in
      let* e := int16 (text ++ replicate marks (ch "F")) in
      Ok (s, e, pos + digits + marks))
  /\ (0 < digits -> marks = 0 ->
      let p := pos + digits in
      exists start,
        int16 text = Ok start
        /\ if startswith [ch "-"] css p
              && startswith_any RangeSpec.HEX css (p + 1)
           then
             let digits' := RangeSpec.hex_count css (p + 1) in
             exists end_,
               0 < digits' /\ digits' <= 6
               /\ int16 (slice css (p + 1) (p + 1 + digits')) = Ok end_
               /\ _consume_unicode_range css pos
                  = Ok (start, end_, p + 1 + digits')
           else _consume_unicode_range css pos = Ok (start, start, p))
  /\ forall skip_comments,
       parse_component_value_list serialize_string_value serialize_url
         (lit "U+1F??") skip_comments
       = Ok [Leaf (UnicodeRangeToken 1 1 0x1F00 0x1FFF)].
Proof.
  intros Hp. cbv zeta. split; [apply RangeBudget.range_budget|].
  split; [apply RangePlain.counts_text; assumption|]. split; [|split].
  - intros Hq. apply RangeBudget.range_wildcards; assumption.
  - intros Hd Hm.
    destruct (RangePlain.plain_range css pos Hp Hd Hm) as (start & Hs & Hr).
    exists start. split; [exact Hs|].
    destruct (startswith [ch "-"] css (pos + RangeSpec.hex_count css pos)
              && startswith_any RangeSpec.HEX css
                   (pos + RangeSpec.hex_count css pos + 1)); [|exact Hr].
    destruct Hr as (end_ & Hd' & He & Hc). exists end_.
    split; [exact Hd'|]. split; [apply SpanFacts.span_le_hi|].
    split; assumption.
  - intros [|]; vm_compute; reflexivity.
Qed.

Lemma C4_witness :
  2 <= length (lit "U+1F??")
  /\ (RangeSpec.hex_count (lit "U+1F??") 2 = 2
      /\ RangeSpec.question_count (lit "U+1F??") 2 = 2)
  /\ _consume_unicode_range (lit "U+1F??") 2 = Ok (0x1F00%Z, 0x1FFF%Z, 6).
Proof.
  split; [vm_compute; lia|]. split; [split; vm_compute; reflexivity|].
  destruct (C4_unicode_range ser_id ser_id (lit "U+1F??") 2)
    as (_ & _ & H & _).
  - vm_compute. lia.
  - rewrite H; vm_compute; [reflexivity|lia].
Defined.

(** C5: the positions [(line, column)] of the tokens of the returned
    list do not decrease: a token is never before an earlier token of
    the list, in lexicographic order; the same holds in the content of
    every block, at every depth.  This is so of every list the function
    returns; the function terminates, and when it does not return it
    raises at an integer literal of more than 4300 digits or at a
    function name with a surrogate. *)
Theorem C5_positions_nondecreasing
    (serialize_string_value serialize_url : str -> str)
    (css : str) (skip_comments : bool) :
  returns css
    (fun tokens : list token =>
       (forall i j a b,
          i <= j -> tokens !! i = Some a -> tokens !! j = Some b ->
          Positions.lex_le (Positions.token_pos a) (Positions.token_pos b))
       /\ Positions.sorted_tokens tokens)
    (parse_component_value_list serialize_string_value serialize_url css
       skip_comments).
Proof.
  apply parse_returns. intros f Hrun.
  assert (Hs : Positions.sorted_heap f.(final_objects)).
  { unfold run in Hrun.
    eapply (loop_invariant serialize_string_value serialize_url
              (preprocess css) skip_comments
              (Positions.sorted_state (preprocess css))
              (fun f => Positions.sorted_heap f.(final_objects)));
      [| | |exact Hrun].
    - intros s H. unfold Positions.sorted_heap. cbn [leave final_objects].
      eapply Forall_impl; [exact H|]. intros l [Hl _]. exact Hl.
    - intros s0 r H0 _ Hi.
      exact (PositionFacts.sorted_state_step _ _ _ _ _ _ H0 Hi).
    - constructor; [|constructor]. split; [exact I|constructor]. }
  assert (Hsorted : Positions.sorted_tokens
                      (readback (length (final_objects f)) (final_objects f)
                         root)).
  { apply PositionFacts.readback_sorted. exact Hs. }
  split; [|exact Hsorted].
  intros i j a b Hij Hi Hj. destruct Hsorted as [ts Hnd _].
  eapply (PositionFacts.nondecreasing_lookup _ Hnd i j); [assumption| |];
    rewrite list_lookup_fmap; [rewrite Hi|rewrite Hj]; reflexivity.
Qed.


(** C7, amended: the iteration at [pos] appends a [NumberToken], a
    [PercentageToken] or a [DimensionToken] only where, after an
    optional sign, the text starts with a digit, or with a point that is
    followed by a digit (no digit is needed before the point); and
    [_NUMBER_RE] matches at exactly these positions. *)
Theorem C7_number_start (serialize_string_value serialize_url : str -> str)
    (css : str) (skip_comments : bool) (end_char : option Z) (line column : Z)
    (pos : nat) (c : Z) (a : action) (t : leaf) :
  dispatch serialize_string_value serialize_url css skip_comments end_char
    line column pos c = Ok a ->
  In t (appended a) -> is_number t = true ->
  NumberSpec.number_start css pos = true
  /\ forall pos', match_ _NUMBER_RE css pos' <> None
                  <-> NumberSpec.number_start css pos' = true.
Proof.
  intros Hd Hin Hnum. split; [|intros pos'; apply NumberStart._NUMBER_RE_start].
  apply NumberStart._NUMBER_RE_start.
  apply dispatch_spec in Hd.
  assert (Hall : Forall (leaf_spec css skip_comments line column pos c) (appended a)).
  { destruct a; simpl in *; try assumption; constructor. }
  rewrite List.Forall_forall in Hall. destruct (Hall t Hin) as (_ & H & _).
  apply H. assumption.
Qed.

Lemma C7_witness :
  NumberSpec.number_start (lit ".5") 0 = true
  /\ forall pos', match_ _NUMBER_RE (lit ".5") pos' <> None
                  <-> NumberSpec.number_start (lit ".5") pos' = true.
Proof.
  apply (C7_number_start ser_id ser_id (lit ".5") false None 1 1 0 (ch ".")
           (Append [NumberToken 1 1 (float_ (lit ".5")) None (lit ".5")] 2)
           (NumberToken 1 1 (float_ (lit ".5")) None (lit ".5"))).
  - vm_compute. reflexivity.
  - simpl. left. reflexivity.
  - reflexivity.
Defined.

(** C7 as stated fails: [".5"] is a [NumberToken], with no digit on the
    left of its point. *)
Lemma C7_counterexample :
  parse_component_value_list ser_id ser_id (lit ".5") false
  = Ok [Leaf (NumberToken 1 1 (float_ (lit ".5")) None (lit ".5"))]
  /\ NumberSpec.digit_first (lit ".5") 0 = false.
Proof. split; vm_compute; reflexivity. Qed.

(** C8: the outcome with comments suppressed is the outcome with
    comments retained, the list returned without its [Comment] tokens
    at every depth.  This holds for every input, so also for those
    whose comments are all closed; where one call raises, so does the
    other. *)
Theorem C8_skip_comments (serialize_string_value serialize_url : str -> str)
    (css : str) :
  parse_component_value_list serialize_string_value serialize_url css true
  = Comments.res_map Comments.strip_tokens
      (parse_component_value_list serialize_string_value serialize_url css
         false).
Proof.
  unfold parse_component_value_list.
  assert (Hskip : run serialize_string_value serialize_url css true
                  = Comments.res_map Comments.strip_final
                      (run serialize_string_value serialize_url css false)).
  { unfold run.
    change initial with (Comments.strip_state initial) at 1.
    apply CommentFacts.loop_strip. }
  rewrite Hskip.
  destruct (run serialize_string_value serialize_url css false) as [f| |];
    cbn [bind Comments.res_map]; [|reflexivity|reflexivity].
  cbn [final_objects Comments.strip_final].
  rewrite CommentFacts.strip_heap_length, CommentFacts.readback_strip.
  reflexivity.
Qed.

(** C9: when the input ends, nothing is appended for the blocks that are
    still open.  The list returned is the value of [root] as the loop
    left it; following the last token of each list as many times as
    blocks are open leads through blocks only, to the content of the
    innermost one, which is the current list [tokens] with all that was
    appended to it.  The tokens of the list returned, at every depth,
    are those that the iterations append: each one that an iteration
    appends is in the list, and each one of the list was appended by an
    iteration, at the character where it started.  So every
    [ParseError] of the list has the line and column of a character at
    which an iteration starts and which is the cause of this very
    error: a closing character that is not the one awaited, a quote at
    which [_consume_quoted_string] reports the error, or the name of a
    [url(] after which [_consume_url] reports it; none is for the end
    of the input or for a missing closer.  An input without [}], []]
    and [)] (every block it opens stays open) has no parse errors but
    those of strings and URLs.  The variables the loop ends with are
    those of a state that iterations reached, as they were when the
    text ended, or as the [break] at an unclosed comment left them:
    nothing is appended after the last iteration.  ["{a"] is one
    [CurlyBracketsBlock] that holds [Ident a], and ["{a}(b"] is a
    closed [CurlyBracketsBlock] and an open [ParenthesesBlock] that
    holds [Ident b]. *)
Theorem C9_open_blocks (serialize_string_value serialize_url : str -> str)
    (css : str) (skip_comments : bool) :
  let text := preprocess css in
  returns css
    (fun f : final_state =>
       let returned := readback (length f.(final_objects)) f.(final_objects)
                         root in
       parse_component_value_list serialize_string_value serialize_url css
         skip_comments = Ok returned
       /\ OpenBlocks.open_blocks (length f.(final_stack)) returned
          = Some (readback (length f.(final_objects)) f.(final_objects)
                    f.(final_tokens))
       /\ (forall s c a t,
             reachable serialize_string_value serialize_url text
               skip_comments s ->
             text !! s.(pos) = Some c ->
             dispatch serialize_string_value serialize_url text skip_comments
               s.(end_char) (next_line text s) (next_column text s)
               s.(pos) c = Ok a ->
             In t (appended a) -> occurs t returned)
       /\ OpenBlocks.every_leaf
            (scanned serialize_string_value serialize_url text skip_comments)
            returned
       /\ OpenBlocks.every_leaf
            (located serialize_string_value serialize_url text skip_comments)
            returned
       /\ (OpenBlocks.closer_free css ->
           OpenBlocks.every_leaf OpenBlocks.string_or_url_error returned)
       /\ exists s0,
            reachable serialize_string_value serialize_url text
              skip_comments s0
            /\ ((length text <= s0.(pos) /\ f = leave s0)
                \/ (s0.(pos) < length text
                    /\ startswith (lit "/*") text s0.(pos) = true
                    /\ find (lit "*/") text (s0.(pos) + 2) = None
                    /\ iteration serialize_string_value serialize_url text
                         skip_comments s0 = Ok (inr f))))
    (run serialize_string_value serialize_url css skip_comments)
  /\ parse_component_value_list serialize_string_value serialize_url
       (lit "{a") skip_comments
     = Ok [Block (CurlyBracketsBlock 1 1) [Leaf (IdentToken 1 2 (lit "a"))]]
  /\ parse_component_value_list serialize_string_value serialize_url
       (lit "{a}(b") skip_comments
     = Ok [Block (CurlyBracketsBlock 1 1) [Leaf (IdentToken 1 2 (lit "a"))];
           Block (ParenthesesBlock 1 4) [Leaf (IdentToken 1 5 (lit "b"))]].
Proof.
  cbv zeta. split; [|split; destruct skip_comments; vm_compute; reflexivity].
  apply Steps.run_returns. intros f Hrun.
  split; [unfold parse_component_value_list; rewrite Hrun; reflexivity|].
  split; [|split; [|split; [|split; [|split]]]].
  - destruct (Kept.run_open _ _ _ _ f Hrun) as [(Hwf & Hsp & _) _].
    apply OpenBlockFacts.open_blocks_spine; assumption.
  - intros s c a t Hreach Hc Ha Ht. eapply Kept.appended_kept; eassumption.
  - exact (proj1 (Located.returned_found _ _ _ _ f Hrun)).
  - exact (proj2 (Located.returned_found _ _ _ _ f Hrun)).
  - intros Hcf. apply OpenBlockFacts.readback_every. unfold run in Hrun.
    eapply (loop_invariant serialize_string_value serialize_url
              (preprocess css) skip_comments OpenBlocks.errors_ok
              (fun f => Forall (Forall (OpenBlocks.cell_ok
                                          OpenBlocks.string_or_url_error))
                          f.(final_objects)));
      [| | |exact Hrun].
    + intros s H. exact H.
    + intros s0 r H0 _ Hi.
      exact (OpenBlockFacts.errors_ok_step _ _ _ _ _ _
               (OpenBlockFacts.closer_free_preprocess css Hcf) H0 Hi).
    + repeat constructor.
  - unfold run in Hrun.
    apply Steps.loop_exit in Hrun as (s0 & Hr & Hexit); [|apply reach_initial].
    exists s0. split; [exact Hr|].
    destruct Hexit as [Hend|[Hlt Hi]]; [left; exact Hend|right].
    split; [exact Hlt|].
    pose proof Hi as Hi'.
    apply iteration_inv in Hi as (c & a & Hc & Hd & Hp).
    destruct a as [ts p|b cl p|p|ts];
      cbn [perform started objects tokens stack end_char pos token_start_pos
           line last_newline] in Hp; try discriminate Hp.
    + destruct (stack s0) as [|[t e] rest]; discriminate Hp.
    + destruct (LoopEnd.dispatch_break _ _ _ _ _ _ _ _ _ _ Hd) as [Hs Hf].
      split; [exact Hs|]. split; [exact Hf|exact Hi'].
Qed.

Lemma C9_witness :
  OpenBlocks.closer_free (lit "{a")
  /\ exists (f : final_state) (returned : list token),
       run ser_id ser_id (lit "{a") false = Ok f
       /\ returned = [Block (CurlyBracketsBlock 1 1) [Leaf (IdentToken 1 2 (lit "a"))]]
       /\ length f.(final_stack) = 1
       /\ OpenBlocks.open_blocks 1 returned = Some [Leaf (IdentToken 1 2 (lit "a"))]
       /\ OpenBlocks.every_leaf OpenBlocks.string_or_url_error returned.
Proof.
  assert (Hcf : OpenBlocks.closer_free (lit "{a")).
  { intros c [<-|[<-|[]]]; reflexivity. }
  split; [exact Hcf|].
  destruct (C9_open_blocks ser_id ser_id (lit "{a") false) as [Hret _].
  assert (Hs : run ser_id ser_id (lit "{a") false
               = Ok (mk_final 2
                       [[Blk (CurlyBracketsBlock 1 1) 1];
                        [Tok (IdentToken 1 2 (lit "a"))]]
                       1 (Some (ch "}")) [(0, None)]))
    by (vm_compute; reflexivity).
  rewrite Hs in Hret. cbn [returns] in Hret.
  destruct Hret as (_ & Hopen & _ & _ & _ & Herr & _).
  eexists. eexists. split; [exact Hs|]. split; [reflexivity|].
  split; [reflexivity|]. split; [vm_compute; reflexivity|].
  exact (Herr Hcf).
Defined.

(** C10: when the first character after the whitespace that follows
    [url(] is not a quote (the condition under which the main loop calls
    [_consume_url]), [_consume_url] returns; a value that comes with an
    error comes with [eof-in-url]; and the code that builds the tokens
    from the result ([url_tokens]) does not raise: its [eof-in-string]
    branch is not taken and its assertion holds. *)
Theorem C10_url_error_kind (serialize_url : str -> str) (line column : Z)
    (css : str) (pos : nat) :
  UrlSpec.unquoted css pos ->
  exists value pos' error_,
    _consume_url css pos = Ok (value, pos', error_)
    /\ (forall v kind message,
          value = Some v -> error_ = Some (kind, message) ->
          kind = lit "eof-in-url" /\ eqb_str kind (lit "eof-in-string") = false)
    /\ exists ts, url_tokens serialize_url line column value error_ = Ok ts.
Proof.
  intros Hu.
  destruct (UrlFacts._consume_url_unquoted css pos Hu)
    as ([[value p] err] & Hr & _ & Hres).
  exists value, p, err. split; [assumption|]. split.
  - intros v kind message -> ->. simpl in Hres. injection Hres as -> ->.
    split; reflexivity.
  - eapply url_tokens_ok. eassumption.
Qed.

Lemma C10_witness :
  UrlSpec.unquoted (lit "url(a") 4
  /\ exists value pos' error_,
       _consume_url (lit "url(a") 4 = Ok (value, pos', error_)
       /\ (forall v kind message,
             value = Some v -> error_ = Some (kind, message) ->
             kind = lit "eof-in-url" /\ eqb_str kind (lit "eof-in-string") = false)
       /\ exists ts, url_tokens ser_id 1 1 value error_ = Ok ts.
Proof.
  split; [vm_compute; reflexivity|].
  apply (C10_url_error_kind ser_id 1 1 (lit "url(a") 4). vm_compute. reflexivity.
Defined.

(** * Further properties *)

(** X1: after the replacements of lines 30 to 32 the text has no NUL, no
    carriage return and no form feed, and doing the replacements again
    changes nothing. *)
Theorem X1_preprocess_clean (css : str) :
  ~ In NUL (preprocess css) /\ ~ In CR (preprocess css)
  /\ ~ In FF (preprocess css)
  /\ preprocess (preprocess css) = preprocess css.
Proof.
  destruct (Preprocess.preprocess_clean css) as (H0 & Hr & Hf).
  split; [assumption|]. split; [assumption|]. split; [assumption|].
  unfold preprocess at 1.
  rewrite (Preprocess.replace1_id NUL) by assumption.
  rewrite (Preprocess.replace_crlf_id_n (length (preprocess css))) by auto.
  rewrite (Preprocess.replace1_id CR) by assumption.
  apply Preprocess.replace1_id. assumption.
Qed.

(** X2: with [skip_comments] true, a list that is returned has no
    [Comment], neither at the top nor in the content of any block or
    function, at any depth.  (The call terminates; when it does not
    return, it raises at an integer literal of more than 4300 digits or
    at a function name with a surrogate.) *)
Theorem X2_no_comment_when_skipped
    (serialize_string_value serialize_url : str -> str) (css : str) :
  returns css (OpenBlocks.every_leaf (fun t => is_comment t = false))
    (parse_component_value_list serialize_string_value serialize_url css true).
Proof.
  apply Leaves.every_leaf_result.
  intros line column pos c t (_ & _ & Hc & _).
  destruct (is_comment t); [|reflexivity]. discriminate (Hc eq_refl).
Qed.

(** X3: for every input, the kind of every [ParseError] of a list that
    is returned, at every depth, is [bad-string], [eof-in-string],
    [bad-url], [eof-in-url], or the unmatched closing character itself:
    one of the three brackets.  (The call terminates; when it does not
    return, it raises at an integer literal of more than 4300 digits or
    at a function name with a surrogate.) *)
Theorem X3_error_kinds (serialize_string_value serialize_url : str -> str)
    (css : str) (skip_comments : bool) :
  returns css (OpenBlocks.every_leaf known_error)
    (parse_component_value_list serialize_string_value serialize_url css
       skip_comments).
Proof.
  apply Leaves.every_leaf_result.
  intros line column pos c t (_ & _ & _ & He).
  destruct t; try exact I. cbn [error_spec] in He. cbn [known_error].
  unfold ERROR_KINDS. apply in_or_app.
  destruct He as [He|[-> Hm]]; [left; assumption|right].
  mem_cases Hm; simpl; auto.
Qed.

(** X4: in every state in which an iteration starts, [end_char] is
    [None] exactly when the stack of open blocks is empty, and
    otherwise one of the three closing characters, at every level of
    the stack; so the [stack.pop()] of a closing character finds a
    block to close: the iteration returns, or it raises at an integer
    literal of more than 4300 digits ([ValueError]) or at a function
    name with a surrogate ([UnicodeEncodeError]) that starts at [pos],
    and never for another reason. *)
Theorem X4_end_char_invariant
    (serialize_string_value serialize_url : str -> str)
    (css : str) (skip_comments : bool) (s : state) :
  reachable serialize_string_value serialize_url css skip_comments s ->
  frames s.(stack) s.(end_char)
  /\ (s.(end_char) = None <-> s.(stack) = [])
  /\ closing s.(end_char)
  /\ (s.(pos) < length css ->
      match iteration serialize_string_value serialize_url css
              skip_comments s with
      | Ok _ => True
      | Raise e => raise_cause css s.(pos) e
      | OutOfFuel => False
      end)
  /\ (s.(pos) < length css ->
      (forall e, ~ raise_cause css s.(pos) e) ->
      exists r, iteration serialize_string_value serialize_url css
                  skip_comments s = Ok r).
Proof.
  intros Hr. pose proof (Reach.frames_reachable _ _ _ _ _ Hr) as Hf.
  split; [assumption|]. split; [|split; [|split]].
  - destruct (stack s) as [|[t e] rest]; simpl in Hf.
    + split; auto.
    + destruct Hf as [(c & -> & _) _]. split; discriminate.
  - destruct (stack s) as [|[t e] rest]; simpl in Hf.
    + rewrite Hf. exact I.
    + destruct Hf as [(c & -> & Hc) _]. exact Hc.
  - intros Hlt.
    destruct (iteration_ok serialize_string_value serialize_url css
                skip_comments s Hlt (Reach.frames_stack_ok _ _ Hf))
      as [(r & Hi & _)|(e & Hi & Hc)]; rewrite Hi; [exact I|exact Hc].
  - intros Hlt Hno.
    destruct (iteration_ok serialize_string_value serialize_url css
                skip_comments s Hlt (Reach.frames_stack_ok _ _ Hf))
      as [(r & Hi & _)|(e & Hi & Hc)]; [eauto|].
    destruct (Hno e Hc).
Qed.

Lemma X4_witness :
  let s := mk_state 1 0 1 (-1) [[Blk (CurlyBracketsBlock 1 1) 1]; []] 1
             (Some (ch "}")) [(0, None)] in
  reachable ser_id ser_id (lit "{}") false s
  /\ frames s.(stack) s.(end_char)
  /\ exists r, iteration ser_id ser_id (lit "{}") false s = Ok r.
Proof.
  cbv zeta.
  assert (Hr : reachable ser_id ser_id (lit "{}") false
                 (mk_state 1 0 1 (-1) [[Blk (CurlyBracketsBlock 1 1) 1]; []] 1
                    (Some (ch "}")) [(0, None)])).
  { apply (reach_step ser_id ser_id (lit "{}") false initial);
      [apply reach_initial|vm_compute; lia|vm_compute; reflexivity]. }
  split; [exact Hr|].
  destruct (X4_end_char_invariant ser_id ser_id (lit "{}") false _ Hr)
    as (Hf & _ & _ & _ & Hi).
  split; [exact Hf|]. apply Hi; [vm_compute; lia|].
  intros e. apply Safe.no_cause; [vm_compute; lia|].
  repeat constructor; try discriminate; reflexivity.
Defined.

(** X5: the line and the column given to the tokens of the iteration
    that starts at [pos] are those of the character at [pos], counted
    from 1: the line is one more than the number of newlines before
    [pos], the column is the distance from the last newline before [pos]
    ([pos + 1] on the first line).  Every token the iteration appends,
    and the block it opens, carries this position. *)
Theorem X5_line_column (serialize_string_value serialize_url : str -> str)
    (css : str) (skip_comments : bool) (s : state)
    (r : state + final_state) :
  reachable serialize_string_value serialize_url css skip_comments s ->
  iteration serialize_string_value serialize_url css skip_comments s = Ok r ->
  let line := line_of css s.(pos) in
  let column := column_of css s.(pos) in
  next_line css s = line /\ next_column css s = column
  /\ (1 <= line)%Z /\ (1 <= column)%Z
  /\ exists c a,
       css !! s.(pos) = Some c
       /\ dispatch serialize_string_value serialize_url css skip_comments
            s.(end_char) line column s.(pos) c = Ok a
       /\ perform a (started css s) = Ok r
       /\ Forall (fun t => leaf_pos t = (line, column)) (appended a)
       /\ forall b e p, a = OpenBlock b e p -> block_pos b = (line, column).
Proof.
  intros Hreach Hi. cbv zeta.
  destruct (Lines.next_tracked css s (Lines.tracked_reachable _ _ _ _ _ Hreach))
    as (Hl & Hc & _).
  destruct (Lines.line_column_ge css (pos s)) as [H1 H2].
  split; [assumption|]. split; [assumption|]. split; [assumption|].
  split; [assumption|].
  apply iteration_inv in Hi as (c & a & Hcs & Hd & Hp).
  rewrite Hl, Hc in Hd. exists c, a.
  split; [assumption|]. split; [assumption|]. split; [assumption|].
  apply dispatch_spec in Hd. split.
  - destruct a as [ts p|b e p|p|ts]; cbn [appended action_spec] in *;
      try constructor;
      (eapply Forall_impl; [exact Hd|]); intros t Ht; apply Ht.
  - intros b e p ->. apply Hd.
Qed.

Lemma X5_witness :
  let css := [ch "a"; LF; ch "b"] in
  let s := mk_state 2 1 1 (-1)
             [[Tok (IdentToken 1 1 (lit "a")); Tok (WhitespaceToken 1 2 [LF])]]
             0 None [] in
  reachable ser_id ser_id css false s
  /\ iteration ser_id ser_id css false s
     = Ok (inl (mk_state 3 2 2 1
                  [[Tok (IdentToken 1 1 (lit "a")); Tok (WhitespaceToken 1 2 [LF]);
                    Tok (IdentToken 2 1 (lit "b"))]] 0 None []))
  /\ next_line css s = 2%Z /\ next_column css s = 1%Z.
Proof.
  cbv zeta.
  assert (Hr : reachable ser_id ser_id [ch "a"; LF; ch "b"] false
                 (mk_state 2 1 1 (-1)
                    [[Tok (IdentToken 1 1 (lit "a"));
                      Tok (WhitespaceToken 1 2 [LF])]] 0 None [])).
  { eapply reach_step; [eapply reach_step; [apply reach_initial| |]| |];
      [vm_compute; lia|vm_compute; reflexivity|vm_compute; lia
      |vm_compute; reflexivity]. }
  split; [exact Hr|]. split; [vm_compute; reflexivity|].
  destruct (X5_line_column ser_id ser_id [ch "a"; LF; ch "b"] false _
              (inl (mk_state 3 2 2 1
                      [[Tok (IdentToken 1 1 (lit "a"));
                        Tok (WhitespaceToken 1 2 [LF]);
                        Tok (IdentToken 2 1 (lit "b"))]] 0 None [])) Hr)
    as (Hl & Hc & _); [vm_compute; reflexivity|].
  split; [exact Hl|exact Hc].
Defined.

(** X6: a string whose text between the quotes has no backslash, no
    newline and not the opening quote, and that is closed by the same
    quote at [j]: [_consume_quoted_string] returns this text as it is,
    the position after the closing quote and no error, and the
    iteration appends one [StringToken] with this value, whose
    representation is the serialized value between double quotes
    (also for a string in single quotes). *)
Theorem X6_closed_string (serialize_string_value serialize_url : str -> str)
    (css : str) (skip_comments : bool) (end_char : option Z) (line column : Z)
    (pos : nat) (quote : Z) (j : nat) :
  css !! pos = Some quote -> mem quote [DQUOTE; SQUOTE] = true -> pos < j ->
  Forall (fun c => PlainText.string_char quote c = true) (slice css (pos + 1) j) ->
  css !! j = Some quote -> closing end_char ->
  let value := slice css (pos + 1) j in
  _consume_quoted_string css pos = Ok (Some value, j + 1, None)
  /\ dispatch serialize_string_value serialize_url css skip_comments end_char
       line column pos quote
     = Ok (Append [StringToken line column value
                     ([DQUOTE] ++ serialize_string_value value ++ [DQUOTE])]
             (j + 1)).
Proof.
  intros Hq Hm Hlt Hall Hj Hend. cbv zeta.
  pose proof (StringPlain.closed css pos quote j Hq Hm Hlt Hall Hj) as Hs.
  split; [exact Hs|].
  rewrite (StringPlain.dispatch_quote _ _ _ _ _ _ _ _ _ _ Hq Hm Hend Hs).
  reflexivity.
Qed.

Lemma X6_witness :
  _consume_quoted_string (lit "'a b'") 0 = Ok (Some (lit "a b"), 5, None)
  /\ dispatch ser_id ser_id (lit "'a b'") false None 1 1 0 SQUOTE
     = Ok (Append [StringToken 1 1 (lit "a b") ([DQUOTE] ++ lit "a b" ++ [DQUOTE])] 5).
Proof.
  apply (X6_closed_string ser_id ser_id (lit "'a b'") false None 1 1 0 SQUOTE 4).
  - reflexivity.
  - reflexivity.
  - lia.
  - vm_compute. repeat constructor.
  - reflexivity.
  - exact I.
Defined.

(** X7: a string that is not closed, whose text up to the end of the
    input has no backslash, no newline and not the opening quote:
    [_consume_quoted_string] returns all of this text with the error
    [eof-in-string] and the position of the end of the input, and the
    iteration appends a [StringToken] whose representation has no
    closing quote, and then the [ParseError]. *)
Theorem X7_unterminated_string
    (serialize_string_value serialize_url : str -> str)
    (css : str) (skip_comments : bool) (end_char : option Z) (line column : Z)
    (pos : nat) (quote : Z) :
  css !! pos = Some quote -> mem quote [DQUOTE; SQUOTE] = true ->
  Forall (fun c => PlainText.string_char quote c = true)
    (slice_from css (pos + 1)) ->
  closing end_char ->
  let value := slice_from css (pos + 1) in
  _consume_quoted_string css pos
  = Ok (Some value, length css, Some eof_in_string)
  /\ dispatch serialize_string_value serialize_url css skip_comments end_char
       line column pos quote
     = Ok (Append [StringToken line column value
                     (drop_last 1
                        ([DQUOTE] ++ serialize_string_value value ++ [DQUOTE]));
                   ParseError line column (lit "eof-in-string")
                     (lit "EOF in string")]
             (length css)).
Proof.
  intros Hq Hm Hall Hend. cbv zeta.
  pose proof (StringPlain.unterminated css pos quote Hq Hm Hall) as Hs.
  split; [exact Hs|].
  rewrite (StringPlain.dispatch_quote _ _ _ _ _ _ _ _ _ _ Hq Hm Hend Hs).
  reflexivity.
Qed.

Lemma X7_witness :
  _consume_quoted_string (lit "'ab") 0
  = Ok (Some (lit "ab"), 3, Some eof_in_string)
  /\ dispatch ser_id ser_id (lit "'ab") false None 1 1 0 SQUOTE
     = Ok (Append [StringToken 1 1 (lit "ab") (DQUOTE :: lit "ab");
                   ParseError 1 1 (lit "eof-in-string") (lit "EOF in string")]
             3).
Proof.
  apply (X7_unterminated_string ser_id ser_id (lit "'ab") false None 1 1 0 SQUOTE).
  - reflexivity.
  - reflexivity.
  - vm_compute. repeat constructor.
  - exact I.
Defined.

(** X8: [_consume_url], called after [url(], on an argument without
    quotes: after the leading whitespace, a run of characters that are
    neither [)], whitespace, a backslash nor one of the characters that
    make a URL bad, then whitespace or none, then [)].  It returns the
    run as it is, without the whitespace around it, the position after
    the [)] and no error. *)
Theorem X8_plain_url (css : str) (pos j : nat) :
  let p := skip_ws css pos in
  p <= j ->
  Forall (fun c => PlainText.url_char c = true) (slice css p j) ->
  css !! skip_ws css j = Some (ch ")") ->
  _consume_url css pos = Ok (Some (slice css p j), skip_ws css j + 1, None).
Proof. apply UrlPlain.plain_url. Qed.

Lemma X8_witness :
  _consume_url (lit "url( a.png )") 4 = Ok (Some (lit "a.png"), 12, None).
Proof.
  apply (X8_plain_url (lit "url( a.png )") 4 10).
  - vm_compute. lia.
  - vm_compute. repeat constructor.
  - reflexivity.
Defined.

(** X9: [_consume_ident] on a run of name characters (letters, digits,
    [-], [_] and all that is above U+007F) that ends at [j], where the
    input ends or a character follows that is neither a name character
    nor the backslash of a valid escape:  it returns the run as it is
    and the position [j].  The name is the longest such run. *)
Theorem X9_plain_ident (css : str) (pos j : nat) :
  pos <= j -> j <= length css ->
  Forall (fun c => PlainText.name_char c = true) (slice css pos j) ->
  match css !! j with
  | Some c => IdentSpec.ident_first css j c = false
  | None => True
  end ->
  _consume_ident css pos = Ok (slice css pos j, j).
Proof. apply IdentPlain.plain_ident. Qed.

Lemma X9_witness :
  _consume_ident (lit "a-b1:") 0 = Ok (lit "a-b1", 4).
Proof.
  apply (X9_plain_ident (lit "a-b1:") 0 4).
  - lia.
  - vm_compute. lia.
  - vm_compute. repeat constructor.
  - reflexivity.
Defined.

(** X10: at [/*], the comment ends at the first [*/] that starts at
    least two characters further (so [/*/] does not close itself):
    the iteration appends the text in between as one [Comment], or
    nothing when comments are skipped, and goes on after that [*/].
    Without such a [*/], the rest of the input is the comment and the
    loop is left. *)
Theorem X10_comment_end (serialize_string_value serialize_url : str -> str)
    (css : str) (skip_comments : bool) (end_char : option Z) (line column : Z)
    (pos : nat) :
  startswith (lit "/*") css pos = true -> closing end_char ->
  match find (lit "*/") css (pos + 2) with
  | Some i =>
      dispatch serialize_string_value serialize_url css skip_comments end_char
        line column pos (ch "/")
      = Ok (Append (if negb skip_comments
                    then [Comment line column (slice css (pos + 2) i)]
                    else [])
              (i + 2))
      /\ pos + 2 <= i
      /\ startswith (lit "*/") css i = true
      /\ forall k, pos + 2 <= k < i -> startswith (lit "*/") css k = false
  | None =>
      dispatch serialize_string_value serialize_url css skip_comments end_char
        line column pos (ch "/")
      = Ok (Break (if negb skip_comments
                   then [Comment line column (slice_from css (pos + 2))]
                   else []))
      /\ forall k, pos + 2 <= k -> startswith (lit "*/") css k = false
  end.
Proof.
  intros Hs Hend.
  pose proof (CommentEnd.dispatch_comment serialize_string_value serialize_url
                css skip_comments end_char line column pos Hs Hend) as Hd.
  destruct (find (lit "*/") css (pos + 2)) as [i|] eqn:E.
  - split; [exact Hd|]. apply CommentEnd.find_some. exact E.
  - split; [exact Hd|]. exact (CommentEnd.find_none _ _ _ _ E).
Qed.

Lemma X10_witness :
  dispatch ser_id ser_id (lit "/*/ */x") false None 1 1 0 (ch "/")
  = Ok (Append [Comment 1 1 (lit "/ ")] 6).
Proof.
  pose proof (X10_comment_end ser_id ser_id (lit "/*/ */x") false None 1 1 0
                eq_refl I) as H.
  change (find (lit "*/") (lit "/*/ */x") (0 + 2)) with (Some 4) in H.
  destruct H as [H _]. exact H.
Defined.

(** X11: at a space, a newline or a tab, the iteration appends one
    [WhitespaceToken] whose value is the whole run of such characters
    from [pos] on: all of its characters are whitespace, it is not
    empty, it lies within the input, and the character after it, if
    there is one, is not whitespace. *)
Theorem X11_whitespace_run (serialize_string_value serialize_url : str -> str)
    (css : str) (skip_comments : bool) (end_char : option Z) (line column : Z)
    (pos : nat) (c : Z) :
  css !! pos = Some c -> mem c WS = true ->
  let p := skip_ws css (pos + 1) in
  dispatch serialize_string_value serialize_url css skip_comments end_char
    line column pos c
  = Ok (Append [WhitespaceToken line column (slice css pos p)] p)
  /\ pos < p <= length css
  /\ Forall (fun x => mem x WS = true) (slice css pos p)
  /\ length (slice css pos p) = p - pos
  /\ startswith_any WS css p = false.
Proof.
  intros Hc Hm. cbv zeta. pose proof (lookup_lt_Some _ _ _ Hc) as Hlt.
  pose proof (skip_ws_ge css (pos + 1)) as Hge.
  assert (Hle : skip_ws css (pos + 1) <= length css).
  { unfold skip_ws.
    pose proof (skip_in_le WS (drop (pos + 1) css) (pos + 1)) as H.
    rewrite length_drop in H. lia. }
  split; [|split; [lia|split; [|split]]].
  - unfold dispatch. cbv zeta. rewrite Hm. reflexivity.
  - rewrite (NumberScan.slice_nonempty css pos _ c Hc) by lia.
    constructor; [exact Hm|].
    pose proof (skip_in_take WS (drop (pos + 1) css) (pos + 1)) as H.
    unfold slice. replace (S pos) with (pos + 1) by lia. exact H.
  - apply slice_length. exact Hle.
  - apply PlainFacts.skip_ws_stop.
Qed.

Lemma X11_witness :
  dispatch ser_id ser_id [SPACE; LF; ch "a"] false None 1 1 0 SPACE
  = Ok (Append [WhitespaceToken 1 1 [SPACE; LF]] 2).
Proof.
  destruct (X11_whitespace_run ser_id ser_id [SPACE; LF; ch "a"] false None
              1 1 0 SPACE eq_refl eq_refl) as [H _].
  exact H.
Defined.

(** X12: where [_NUMBER_RE] matches, the iteration appends exactly one
    token, a [NumberToken], [PercentageToken] or [DimensionToken], whose
    representation is the matched text, when this text has a decimal
    point or an exponent ([e] or [E]) or has at most 4300 digits.  Its
    [int_value] is [None] exactly when the text has a point or an
    exponent; otherwise the text is an optional sign and digits, and
    [int_value] is what [int] reads of it.  On a text of more than 4300
    digits without point and exponent, [int] raises [ValueError], and
    so does the iteration. *)
Theorem X12_int_value (serialize_string_value serialize_url : str -> str)
    (css : str) (skip_comments : bool) (end_char : option Z) (line column : Z)
    (pos : nat) (c : Z) (q : nat) (g : groups) :
  css !! pos = Some c -> match_ _NUMBER_RE css pos = Some (q, g) ->
  let text := slice css pos q in
  let digits := q - NumberSpec.after_sign css pos in
  let result :=
    dispatch serialize_string_value serialize_url css skip_comments end_char
      line column pos c in
  (has_point_or_exponent text \/ digits <= int_max_str_digits ->
   exists t p,
     result = Ok (Append [t] p)
     /\ q <= p /\ is_number t = true /\ leaf_pos t = (line, column)
     /\ number_repr t = text
     /\ match number_int_value t with
        | Some n => int10 text = Ok n /\ ~ has_point_or_exponent text
        | None => has_point_or_exponent text
        end)
  /\ (~ has_point_or_exponent text -> int_max_str_digits < digits ->
      int10 text = Raise ValueError /\ result = Raise ValueError).
Proof.
  intros Hc Hm. cbv zeta.
  pose proof Hm as Hs. rewrite NumberFacts._NUMBER_RE_scan in Hs.
  pose proof (NumberInt.number_scan_shape css pos q g Hs) as Hshape.
  rewrite (NumberDispatch.dispatch_number serialize_string_value serialize_url
             css skip_comments end_char line column pos c Hc)
    by (rewrite Hm; discriminate).
  unfold dispatch_rest. rewrite Hm. cbv zeta.
  destruct (any (groups_ css g)) eqn:Hany; cbn [negb].
  - split; [|intros Hn; contradiction]. intros _. cbn [bind].
    destruct (ident_follows_ok css q) as (b & ->). cbn [bind].
    destruct b.
    + destruct (IdentFacts._consume_ident_ok css q) as (v & p & -> & Hle).
      cbn [bind]. eexists _, p. split; [reflexivity|]. split; [assumption|].
      split; [reflexivity|]. split; [reflexivity|]. split; [reflexivity|].
      exact Hshape.
    + destruct (startswith (lit "%") css q); eexists _, _;
        (split; [reflexivity|]); (split; [|split; [reflexivity|split;
          [reflexivity|split; [reflexivity|exact Hshape]]]]); lia.
  - pose proof (NumberScan.number_scan_int css pos q g Hs Hany) as Hint.
    apply NumberInt.sign_digits_plain in Hshape.
    destruct (int_max_str_digits <? q - NumberSpec.after_sign css pos)%nat
      eqn:E.
    + apply Nat.ltb_lt in E. split.
      * intros [H|H]; [contradiction|]. clear Hany. lia.
      * intros _ _. rewrite Hint. split; reflexivity.
    + apply Nat.ltb_ge in E. destruct Hint as (n & Hn).
      split; [|intros _ Hlt; clear Hany; lia]. intros _.
      rewrite Hn. cbn [bind].
      destruct (ident_follows_ok css q) as (b & ->). cbn [bind].
      destruct b.
      * destruct (IdentFacts._consume_ident_ok css q) as (v & p & -> & Hle).
        cbn [bind]. eexists _, p. split; [reflexivity|]. split; [assumption|].
        split; [reflexivity|]. split; [reflexivity|]. split; [reflexivity|].
        split; [reflexivity|assumption].
      * destruct (startswith (lit "%") css q); eexists _, _;
          (split; [reflexivity|]); (split; [|split; [reflexivity|split;
            [reflexivity|split; [reflexivity|split;
              [reflexivity|assumption]]]]]); lia.
Qed.

Lemma X12_witness :
  exists t p,
    dispatch ser_id ser_id (lit "-12px 1e3") false None 1 1 0 (ch "-")
    = Ok (Append [t] p)
    /\ number_repr t = lit "-12" /\ number_int_value t = Some (-12)%Z.
Proof.
  destruct (X12_int_value ser_id ser_id (lit "-12px 1e3") false None 1 1 0
              (ch "-") 3 [] eq_refl eq_refl) as [H _].
  destruct H as (t & p & Hd & _); [right; vm_compute; lia|].
  exists t, p. split; [exact Hd|].
  vm_compute in Hd. injection Hd as <- <-. split; reflexivity.
Defined.

(** X13: with question marks, a unicode range is one whole block of
    code points: [start] is a multiple of 16 to the number of question
    marks (the value [v] of the hex digits before them, 0 if there are
    none, times that power), and [end] is the last code point of the
    same block, so [start <= end], the range has exactly 16 to the
    number of question marks code points, and [end] is below 16^6. *)
Theorem X13_wildcard_block (css : str) (pos : nat) :
  pos <= length css ->
  let digits := RangeSpec.hex_count css pos in
  let marks := RangeSpec.question_count css pos in
  0 < marks ->
  exists v start end_,
    _consume_unicode_range css pos = Ok (start, end_, pos + digits + marks)
    /\ (0 <= v < 16 ^ Z.of_nat digits)%Z
    /\ int16_acc 0 (slice css pos (pos + digits)) = Ok v
    /\ start = (v * 16 ^ Z.of_nat marks)%Z
    /\ end_ = (start + 16 ^ Z.of_nat marks - 1)%Z
    /\ (0 <= start <= end_)%Z /\ (end_ < 16 ^ 6)%Z.
Proof.
  intros Hp. cbv zeta. intros Hq.
  rewrite (RangeBudget.range_wildcards css pos Hp Hq). cbv zeta.
  destruct (RangeValue.hex_text css pos) as [Hhex Hlen].
  destruct (RangeValue.int16_acc_bound _ Hhex 0%Z ltac:(lia)) as (v & Hv & Hb).
  rewrite Hlen in Hb.
  rewrite !RangeValue.int16_app_replicate by assumption.
  rewrite !RangeValue.int16_acc_app, Hv. cbn [bind].
  rewrite RangeValue.int16_acc_zeros. cbn [bind].
  rewrite RangeValue.int16_acc_Fs. cbn [bind].
  exists v. eexists _, _. split; [reflexivity|].
  pose proof (RangeBudget.range_budget css pos) as Hbudget.
  set (d := RangeSpec.hex_count css pos) in *.
  set (m := RangeSpec.question_count css pos) in *.
  assert (Hd : (0 < 16 ^ Z.of_nat d)%Z) by (apply Z.pow_pos_nonneg; lia).
  assert (Hm : (0 < 16 ^ Z.of_nat m)%Z) by (apply Z.pow_pos_nonneg; lia).
  assert (Hsum : (16 ^ Z.of_nat d * 16 ^ Z.of_nat m <= 16 ^ 6)%Z).
  { rewrite <- Z.pow_add_r by lia. apply Z.pow_le_mono_r; lia. }
  split; [lia|]. split; [reflexivity|]. split; [reflexivity|].
  split; [lia|]. split; [nia|nia].
Qed.

Lemma X13_witness :
  _consume_unicode_range (lit "U+4??") 2 = Ok (0x400%Z, 0x4FF%Z, 5).
Proof.
  destruct (X13_wildcard_block (lit "U+4??") 2) as (v & s & e & H & _ & Hv & Hs & He & _).
  - vm_compute. lia.
  - vm_compute. lia.
  - vm_compute in Hv. injection Hv as <-. subst e s. exact H.
Defined.

(** X14: without question marks, and with at least one hex digit, a
    unicode range is one code point, [start = end], the value of the
    hex digits (at most 6), unless a [-] and a hex digit follow them:
    then [end] is the value of the hex digits after the [-] (at most 6
    again), whether or not it is below [start]. *)
Theorem X14_plain_range (css : str) (pos : nat) :
  pos <= length css ->
  let digits := RangeSpec.hex_count css pos in
  let p := pos + digits in
  0 < digits -> RangeSpec.question_count css pos = 0 ->
  exists start,
    int16 (slice css pos p) = Ok start
    /\ if startswith [ch "-"] css p && startswith_any RangeSpec.HEX css (p + 1)
       then
         let digits' := RangeSpec.hex_count css (p + 1) in
         exists end_,
           0 < digits'
           /\ int16 (slice css (p + 1) (p + 1 + digits')) = Ok end_
           /\ _consume_unicode_range css pos = Ok (start, end_, p + 1 + digits')
       else _consume_unicode_range css pos = Ok (start, start, p).
Proof. apply RangePlain.plain_range. Qed.

Lemma X14_witness :
  _consume_unicode_range (lit "U+7F-3x") 2 = Ok (0x7F%Z, 0x3%Z, 6).
Proof.
  destruct (X14_plain_range (lit "U+7F-3x") 2) as (s & Hs & H).
  - vm_compute. lia.
  - vm_compute. lia.
  - reflexivity.
  - change (startswith [ch "-"] (lit "U+7F-3x")
              (2 + RangeSpec.hex_count (lit "U+7F-3x") 2)
            && startswith_any RangeSpec.HEX (lit "U+7F-3x")
                 (2 + RangeSpec.hex_count (lit "U+7F-3x") 2 + 1)) with true in H.
    cbv zeta in H. destruct H as (e & _ & He & H).
    vm_compute in Hs, He. injection Hs as <-. injection He as <-. exact H.
Defined.

(** X15: in every state in which an iteration starts, [pos] is within
    the input and not before the start of the last token; and an
    iteration that goes on leaves [pos] strictly further, still within
    the input, with [token_start_pos] where it started. *)
Theorem X15_positions_within
    (serialize_string_value serialize_url : str -> str)
    (css : str) (skip_comments : bool) (s : state) :
  reachable serialize_string_value serialize_url css skip_comments s ->
  s.(token_start_pos) <= s.(pos) <= length css
  /\ forall s',
       iteration serialize_string_value serialize_url css skip_comments s
       = Ok (inl s') ->
       s.(pos) < s'.(pos) <= length css /\ s'.(token_start_pos) = s.(pos).
Proof.
  intros Hr. split; [|intros s'; apply DispatchBounds.iteration_within].
  induction Hr as [|s s' _ IH Hlt Hi]; [cbn; lia|].
  apply DispatchBounds.iteration_within in Hi. lia.
Qed.

Lemma X15_witness :
  let s := mk_state 3 0 1 (-1)
             [[Tok (StringToken 1 1 (lit "a") ([DQUOTE] ++ lit "a" ++ [DQUOTE]))]]
             0 None [] in
  reachable ser_id ser_id (lit "'a'") false s
  /\ s.(token_start_pos) <= s.(pos) <= length (lit "'a'").
Proof.
  cbv zeta.
  assert (Hr : reachable ser_id ser_id (lit "'a'") false
                 (mk_state 3 0 1 (-1)
                    [[Tok (StringToken 1 1 (lit "a")
                             ([DQUOTE] ++ lit "a" ++ [DQUOTE]))]] 0 None [])).
  { apply (reach_step ser_id ser_id (lit "'a'") false initial);
      [apply reach_initial|vm_compute; lia|vm_compute; reflexivity]. }
  split; [exact Hr|].
  exact (proj1 (X15_positions_within ser_id ser_id (lit "'a'") false _ Hr)).
Defined.

(** X16: the loop reads all of the input.  When it ends, [pos] is the
    length of the text (the input after the replacements of lines 30 to
    32), never beyond it; or the loop was left by [break], which
    happens only in an iteration that starts at a [/*] that no [*/]
    closes, and then [pos] is -1, the result of [css.find].  (The loop
    terminates; when it does not end in one of these ways, it raises
    at an integer literal of more than 4300 digits or at a function
    name with a surrogate.) *)
Theorem X16_whole_input (serialize_string_value serialize_url : str -> str)
    (css : str) (skip_comments : bool) :
  let text := preprocess css in
  returns css
    (fun f : final_state =>
       f.(final_pos) = Z.of_nat (length text)
       \/ (f.(final_pos) = (-1)%Z
           /\ exists s0 : state,
                s0.(pos) < length text
                /\ iteration serialize_string_value serialize_url text
                     skip_comments s0 = Ok (inr f)
                /\ startswith (lit "/*") text s0.(pos) = true
                /\ find (lit "*/") text (s0.(pos) + 2) = None))
    (run serialize_string_value serialize_url css skip_comments).
Proof.
  cbv zeta. apply Steps.run_returns. intros f Hrun. unfold run in Hrun.
  apply LoopEnd.loop_end in Hrun; [|cbn; lia].
  destruct Hrun as [He|(s0 & Hlt & Hi)]; [left; exact He|right].
  pose proof Hi as Hi'.
  apply iteration_inv in Hi as (c & a & Hc & Hd & Hp).
  destruct a as [ts p|b cl p|p|ts];
    cbn [perform started objects tokens stack end_char pos token_start_pos
         line last_newline] in Hp; try discriminate Hp.
  - destruct (stack s0) as [|[t e] rest]; discriminate Hp.
  - injection Hp as <-. cbn [final_pos]. split; [reflexivity|].
    exists s0. split; [exact Hlt|]. split; [exact Hi'|].
    eapply LoopEnd.dispatch_break. exact Hd.
Qed.

(** X17: at [{], [[] or [(] the iteration appends the block to the
    current list, saves the current list and [end_char] on the stack,
    and goes on in the new, empty content list with the matching
    closing character as [end_char].  At that closing character, in
    any later state with this stack and this [end_char], the iteration
    appends nothing and restores exactly the list, the [end_char] and
    the stack that were current when the block was opened. *)
Theorem X17_block_round_trip
    (serialize_string_value serialize_url : str -> str)
    (css : str) (skip_comments : bool) (s : state) (c : Z) :
  css !! s.(pos) = Some c -> mem c OPENING = true ->
  let content := length s.(objects) in
  let s1 :=
    mk_state (s.(pos) + 1) s.(pos) (next_line css s) (next_last_newline css s)
      (append [Blk (bracket_block c (next_line css s) (next_column css s)) content]
         s.(tokens) (s.(objects) ++ [[]]))
      content (Some (closer c)) ((s.(tokens), s.(end_char)) :: s.(stack)) in
  iteration serialize_string_value serialize_url css skip_comments s
  = Ok (inl s1)
  /\ forall s2,
       s2.(stack) = s1.(stack) -> s2.(end_char) = s1.(end_char) ->
       css !! s2.(pos) = Some (closer c) ->
       iteration serialize_string_value serialize_url css skip_comments s2
       = Ok (inl (mk_state (s2.(pos) + 1) s2.(pos) (next_line css s2)
                    (next_last_newline css s2) s2.(objects)
                    s.(tokens) s.(end_char) s.(stack))).
Proof.
  intros Hc Hm. cbv zeta. split.
  - rewrite iteration_unfold, (IdentFacts.idx_eq _ _ _ Hc). cbn [bind].
    destruct (Punctuation.dispatch_plain serialize_string_value serialize_url
                css skip_comments (end_char s) (next_line css s)
                (next_column css s) (pos s) c Hc) as [-> Hn].
    { unfold OPENING in Hm. mem_cases Hm; reflexivity. }
    unfold dispatch_rest. rewrite Hn. cbv zeta.
    unfold OPENING in Hm. mem_cases Hm; reflexivity.
  - intros s2 Hs He Hc2. cbn [stack end_char] in Hs, He.
    rewrite iteration_unfold, (IdentFacts.idx_eq _ _ _ Hc2). cbn [bind].
    assert (Hcl : mem (closer c) (lit "}])") = true).
    { unfold OPENING in Hm. mem_cases Hm; reflexivity. }
    set (c' := closer c) in *. clearbody c'.
    destruct (Punctuation.dispatch_plain serialize_string_value serialize_url
                css skip_comments (end_char s2) (next_line css s2)
                (next_column css s2) (pos s2) c' Hc2) as [-> Hn].
    { mem_cases Hcl; reflexivity. }
    assert (Hd : dispatch_rest serialize_string_value css skip_comments
                   (end_char s2) (next_line css s2) (next_column css s2)
                   (pos s2) c' = Ok (CloseBlock (pos s2 + 1))).
    { unfold dispatch_rest. rewrite Hn, He. cbv zeta. rewrite Z.eqb_refl.
      mem_cases Hcl; reflexivity. }
    rewrite Hd. cbn [bind perform started stack]. rewrite Hs. reflexivity.
Qed.

Lemma X17_witness :
  iteration ser_id ser_id (lit "[a]") false initial
  = Ok (inl (mk_state 1 0 1 (-1) [[Blk (SquareBracketsBlock 1 1) 1]; []] 1
               (Some (ch "]")) [(0, None)]))
  /\ iteration ser_id ser_id (lit "[a]") false
       (mk_state 2 1 1 (-1)
          [[Blk (SquareBracketsBlock 1 1) 1]; [Tok (IdentToken 1 2 (lit "a"))]]
          1 (Some (ch "]")) [(0, None)])
     = Ok (inl (mk_state 3 2 1 (-1)
                  [[Blk (SquareBracketsBlock 1 1) 1];
                   [Tok (IdentToken 1 2 (lit "a"))]]
                  0 None [])).
Proof.
  destruct (X17_block_round_trip ser_id ser_id (lit "[a]") false initial
              (ch "[") eq_refl eq_refl) as [H1 H2].
  split; [exact H1|].
  exact (H2 (mk_state 2 1 1 (-1)
               [[Blk (SquareBracketsBlock 1 1) 1];
                [Tok (IdentToken 1 2 (lit "a"))]]
               1 (Some (ch "]")) [(0, None)]) eq_refl eq_refl eq_refl).
Defined.

(** X18: where [_is_ident_start] holds, which is what [_consume_ident]
    assumes, [_consume_ident] returns a name that is not empty, and a
    position strictly after [pos] and within the input. *)
Theorem X18_ident_not_empty (css : str) (pos : nat) :
  _is_ident_start css pos = Ok true ->
  exists v p,
    _consume_ident css pos = Ok (v, p)
    /\ pos < p <= length css /\ v <> [].
Proof.
  intros Hs.
  assert (Hc : exists c, css !! pos = Some c).
  { unfold _is_ident_start, _is_name_start, idx in Hs.
    destruct (css !! pos) as [c|]; [eauto|discriminate Hs]. }
  destruct Hc as (c & Hc). pose proof (lookup_lt_Some _ _ _ Hc) as Hlt.
  destruct (IdentFacts._is_ident_start_ok css pos c Hc) as (b & Hb & Hfirst).
  rewrite Hs in Hb. injection Hb as <-. specialize (Hfirst eq_refl).
  destruct (IdentFacts._consume_ident_progress css pos c Hc Hfirst)
    as (v & p & Hv & Hp).
  exists v, p. split; [exact Hv|]. split.
  - split; [exact Hp|]. eapply Bounds._consume_ident_le; [|exact Hv]. lia.
  - intros ->.
    pose proof (IdentValue._consume_ident_nonempty css pos c [] p Hc Hfirst Hv)
      as Hn.
    cbn [length] in Hn. lia.
Qed.

Lemma X18_witness :
  exists v p, _consume_ident (lit "-\41 b;") 0 = Ok (v, p)
              /\ 0 < p <= length (lit "-\41 b;") /\ v <> [].
Proof.
  apply (X18_ident_not_empty (lit "-\41 b;") 0). vm_compute. reflexivity.
Defined.

(** X19: what [_NUMBER_RE.match(css, pos)] returns, as the match of a
    backtracking matcher, is what one scan from left to right returns:
    an optional sign; the digits and the point of a fraction if a digit
    follows the point; digits; and an exponent if at least one digit
    follows its [e] or [E] and optional sign.  A match is never empty
    and never goes beyond the input. *)
Theorem X19_number_re_scan (css : str) (pos : nat) :
  match_ _NUMBER_RE css pos = NumberSpec.number_scan css pos
  /\ forall q g,
       match_ _NUMBER_RE css pos = Some (q, g) -> pos < q <= length css.
Proof.
  split; [apply NumberFacts._NUMBER_RE_scan|].
  intros q g H. rewrite NumberFacts._NUMBER_RE_scan in H.
  split; [eapply NumberScan.number_scan_gt; eassumption|].
  pose proof (NumberMatch.number_scan_lt css pos q g H) as Hlt.
  eapply Bounds.number_scan_le; [|exact H]. lia.
Qed.
